(** * crossmemo: storage adapters, LRU/TTL eviction and memoize

    A shallow embedding of the three storage adapters of the repository
    (src/adapters/memory.ts, src/adapters/localStorage.ts,
    src/adapters/fileSystem.ts), of src/memoize.ts and of src/cache.ts,
    with the properties of the specification stated and settled against
    them, and with further properties of the code.

    Conventions of the embedding:
    - [Date.now()] is an explicit argument [now : Z] (milliseconds) of every
      operation; the two reads of the clock inside one [set] see the same
      instant.
    - [maxSize] is a count of entries ([nat]); numbers held by values and
      times are integers.
    - A JavaScript [Map] or object used as a dictionary is a [gmap]; where
      the platform enumerates its keys ([Object.keys(localStorage)],
      [fs.readdir]) the order is the one in which the map enumerates them,
      and no property below depends on it.
    - [localStorage.setItem] takes every write in [LocalStorage]; [Quota]
      has the same methods on a store that can refuse one.
    - The digest in the file names of the file adapter is a parameter
      [md5] of its operations; [Crypto.md5] is the MD5 digest itself.
    - A string held by a backing store is represented by what [JSON.parse]
      makes of it ([text] below); [JSON.stringify] of an entry or of an array
      of keys parses back to that entry or array.
    - An operation that can throw is a computation in a state-and-exception
      monad over the backing store; a loop that may not end returns an
      [option].
    - [async]/[await] is sequential composition: one operation runs to its
      end before the next one starts (single writer).
    - The listeners of the cache are told apart by a name, as JavaScript
      tells function objects apart; what a call of one does is a
      computation on a world of its own. *)

From Stdlib Require Import ZArith String Ascii List Lia Bool.
From stdpp Require Import base decidable option list gmap strings fin_maps.

Open Scope Z_scope.
Open Scope string_scope.
Open Scope list_scope.

(** ** Values and entries (src/types.ts) *)

Module Types.

(** The JavaScript values a cache holds; [JUndefined] is the value that the
    public interface also uses for a miss. *)
Inductive jsval : Type :=
| JUndefined
| JNull
| JBool (b : bool)
| JNum (n : Z)
| JStr (s : string).

#[export] Instance jsval_eq_dec : EqDecision jsval.
Proof. solve_decision. Defined.

(** [interface CacheOptions { ttl?: number; maxSize?: number; ... }]
    [maxSize] is a count of entries. *)
Record CacheOptions : Type := mkOptions {
  ttl : option Z;
  maxSize : option nat
}.

(** [interface CacheEntry<T> { value: T; timestamp: number; expiry?: number }] *)
Record CacheEntry : Type := mkEntry {
  value : jsval;
  timestamp : Z;
  expiry : option Z
}.

#[export] Instance CacheEntry_eq_dec : EqDecision CacheEntry.
Proof. solve_decision. Defined.

(** The bound kept by an adapter: a number of entries or [Infinity]. *)
Inductive bound : Type :=
| Fin (n : nat)
| Infinity.

#[export] Instance bound_eq_dec : EqDecision bound.
Proof. solve_decision. Defined.

(** [options?.maxSize || Infinity]: an absent and a zero [maxSize] are both
    falsy. *)
Definition maxSizeOrInfinity (options : option CacheOptions) : bound :=
  match options with
  | Some o =>
      match maxSize o with
      | Some (S n) => Fin (S n)
      | Some O => Infinity
      | None => Infinity
      end
  | None => Infinity
  end.

(** [n > b] and [n >= b] for a count [n] and a bound [b]. *)
Definition gt_bound (n : nat) (b : bound) : bool :=
  match b with
  | Fin m => bool_decide (m < n)%nat
  | Infinity => false
  end.

Definition ge_bound (n : nat) (b : bound) : bool :=
  match b with
  | Fin m => bool_decide (m <= n)%nat
  | Infinity => false
  end.

(** [if (!entry.expiry) return false; return Date.now() >= entry.expiry;]
    An [expiry] that is absent or [0] is falsy. *)
Definition isExpired (entry : CacheEntry) (now : Z) : bool :=
  match expiry entry with
  | None => false
  | Some x => if decide (x = 0) then false else bool_decide (x <= now)
  end.

(** [options?.ttl ? Date.now() + options.ttl : undefined] *)
Definition expiryFor (options : option CacheOptions) (now : Z) : option Z :=
  match options with
  | Some o =>
      match ttl o with
      | Some d => if decide (d = 0) then None else Some (now + d)
      | None => None
      end
  | None => None
  end.

(** The entry built by every [set]:
    [{ value, timestamp: Date.now(), expiry: ... }]. *)
Definition newEntry (v : jsval) (options : option CacheOptions) (now : Z)
  : CacheEntry :=
  {| value := v; timestamp := now; expiry := expiryFor options now |}.

(** [if (oldestKey)] on a [string | undefined]: the empty string is falsy. *)
Definition truthyKey (k : string) : bool :=
  match k with
  | EmptyString => false
  | String _ _ => true
  end.

(** [order.filter(k => k !== key)] *)
Definition without (key : string) (order : list string) : list string :=
  filter (λ k, k ≠ key) order.

(** [order.filter(k => k !== key); order.push(key)] *)
Definition moveToTail (key : string) (order : list string) : list string :=
  without key order ++ [key].

End Types.

Import Types.

(** ** The volatile adapter (src/adapters/memory.ts) *)

Module Memory.

Record MemoryAdapter : Type := mkAdapter {
  store : gmap string CacheEntry;
  maxSize : bound;
  accessOrder : list string
}.

(** [constructor(options?)] *)
Definition new (options : option CacheOptions) : MemoryAdapter :=
  {| store := ∅; maxSize := maxSizeOrInfinity options; accessOrder := [] |}.

(** [updateAccessOrder(key)] *)
Definition updateAccessOrder (key : string) (self : MemoryAdapter)
  : MemoryAdapter :=
  {| store := store self; maxSize := maxSize self;
     accessOrder := moveToTail key (accessOrder self) |}.

(** One turn of [for (const [key, entry] of this.store.entries())] in
    [cleanup]. *)
Definition sweepStep (now : Z) (acc : gmap string CacheEntry * list string)
  (kv : string * CacheEntry) : gmap string CacheEntry * list string :=
  if isExpired kv.2 now
  then (delete kv.1 acc.1, without kv.1 acc.2)
  else acc.

(** The whole [for] loop of [cleanup], over the entries of the store. *)
Definition sweepExpired (now : Z) (m : gmap string CacheEntry)
  (order : list string) : gmap string CacheEntry * list string :=
  foldl (sweepStep now) (m, order) (map_to_list m).

(** [while (this.store.size > this.maxSize && this.accessOrder.length > 0)]
    of [cleanup].  A turn whose oldest key is falsy changes nothing, so the
    loop does not end from there: [None]. *)
Fixpoint evictLoop (b : bound) (m : gmap string CacheEntry)
  (order : list string) : option (gmap string CacheEntry * list string) :=
  match order with
  | [] => Some (m, [])
  | oldestKey :: rest =>
      if gt_bound (size m) b
      then if truthyKey oldestKey
           then evictLoop b (delete oldestKey m) rest
           else None
      else Some (m, order)
  end.

(** [cleanup()]; [None] when its [while] loop does not end. *)
Definition cleanup (now : Z) (self : MemoryAdapter) : option MemoryAdapter :=
  let order0 := filter (λ k, k ∈ dom (store self)) (accessOrder self) in
  let swept := sweepExpired now (store self) order0 in
  match evictLoop (maxSize self) swept.1 swept.2 with
  | Some (m, order) =>
      Some {| store := m; maxSize := maxSize self; accessOrder := order |}
  | None => None
  end.

(** [get(key)] *)
Definition get (key : string) (now : Z) (self : MemoryAdapter)
  : MemoryAdapter * jsval :=
  match store self !! key with
  | None => (self, JUndefined)
  | Some entry =>
      if isExpired entry now
      then ({| store := delete key (store self); maxSize := maxSize self;
               accessOrder := without key (accessOrder self) |}, JUndefined)
      else (updateAccessOrder key self, value entry)
  end.

(** The [if] of [set] that removes the oldest key. *)
Definition evictOldest (key : string) (self : MemoryAdapter) : MemoryAdapter :=
  if ge_bound (size (store self)) (maxSize self)
     && bool_decide (store self !! key = None)
  then match accessOrder self with
       | oldestKey :: rest =>
           if truthyKey oldestKey
           then {| store := delete oldestKey (store self);
                   maxSize := maxSize self; accessOrder := rest |}
           else self
       | [] => self
       end
  else self.

(** [set(key, value, options)]; [None] when [cleanup] does not end. *)
Definition set (key : string) (v : jsval) (options : option CacheOptions)
  (now : Z) (self : MemoryAdapter) : option MemoryAdapter :=
  match cleanup now self with
  | None => None
  | Some s1 =>
      let s2 := evictOldest key s1 in
      Some (updateAccessOrder key
              {| store := <[key := newEntry v options now]> (store s2);
                 maxSize := maxSize s2; accessOrder := accessOrder s2 |})
  end.

(** [delete(key)] *)
Definition delete (key : string) (self : MemoryAdapter) : MemoryAdapter :=
  {| store := base.delete key (store self); maxSize := maxSize self;
     accessOrder := without key (accessOrder self) |}.

(** [clear()] *)
Definition clear (self : MemoryAdapter) : MemoryAdapter :=
  {| store := ∅; maxSize := maxSize self; accessOrder := [] |}.

(** [has(key)] *)
Definition has (key : string) (now : Z) (self : MemoryAdapter)
  : MemoryAdapter * bool :=
  match store self !! key with
  | None => (self, false)
  | Some entry =>
      if isExpired entry now
      then ({| store := base.delete key (store self); maxSize := maxSize self;
               accessOrder := without key (accessOrder self) |}, false)
      else (self, true)
  end.

End Memory.

(** ** Exceptions and stored text *)

Module Js.

(** The exceptions the adapters can meet. *)
Inductive exn : Type :=
| SyntaxError   (* JSON.parse on text that is not JSON *)
| TypeError     (* a property read on null, a call of a missing method *)
| ENOENT        (* a file or directory that does not exist *)
| QuotaExceededError. (* localStorage.setItem on a store that is full *)

#[export] Instance exn_eq_dec : EqDecision exn.
Proof. solve_decision. Defined.

Inductive result (A : Type) : Type :=
| Ok (a : A)
| Throw (e : exn).

Arguments Ok {A} a.
Arguments Throw {A} e.

(** Computations over a backing store [S] that return or throw; the store
    keeps the writes made before a throw. *)
Definition M (S A : Type) : Type := S → S * result A.

Definition ret {S A : Type} (a : A) : M S A := λ s, (s, Ok a).

Definition throw {S A : Type} (e : exn) : M S A := λ s, (s, Throw e).

Definition bind {S A B : Type} (m : M S A) (k : A → M S B) : M S B :=
  λ s, match m s with
       | (s', Ok a) => k a s'
       | (s', Throw e) => (s', Throw e)
       end.

(** [try { m } catch { handler }] *)
Definition tryCatch {S A : Type} (m : M S A) (handler : M S A) : M S A :=
  λ s, match m s with
       | (s', Ok a) => (s', Ok a)
       | (s', Throw _) => handler s'
       end.

Definition lift {S A : Type} (r : result A) : M S A := λ s, (s, r).

(** A string kept by a backing store, by what [JSON.parse] makes of it. *)
Inductive text : Type :=
| TEmpty                      (* the empty string *)
| TInvalid                    (* not empty and not JSON *)
| TNull                       (* the JSON text null *)
| TScalar                     (* a JSON number, string or boolean *)
| TEntry (e : CacheEntry)     (* JSON.stringify of an entry *)
| TOrder (l : list string).   (* JSON.stringify of an array of strings *)

#[export] Instance text_eq_dec : EqDecision text.
Proof. solve_decision. Defined.

(** What [JSON.parse] returns. *)
Inductive json : Type :=
| JsNull
| JsScalar
| JsEntry (e : CacheEntry)
| JsArray (l : list string).

Definition JSON_parse (t : text) : result json :=
  match t with
  | TEmpty => Throw SyntaxError
  | TInvalid => Throw SyntaxError
  | TNull => Ok JsNull
  | TScalar => Ok JsScalar
  | TEntry e => Ok (JsEntry e)
  | TOrder l => Ok (JsArray l)
  end.

(** [this.isExpired(entry)] on a parsed value: reading [.expiry] of null
    throws, and a value without that property is not expired. *)
Definition isExpiredJson (j : json) (now : Z) : result bool :=
  match j with
  | JsNull => Throw TypeError
  | JsScalar => Ok false
  | JsEntry e => Ok (isExpired e now)
  | JsArray _ => Ok false
  end.

(** [entry.value], read after [isExpired] has returned. *)
Definition valueOf (j : json) : jsval :=
  match j with
  | JsEntry e => value e
  | _ => JUndefined
  end.

(** The receiver of [.filter(...)]: only an array has that method. *)
Definition asArray (j : json) : result (list string) :=
  match j with
  | JsArray l => Ok l
  | _ => Throw TypeError
  end.

(** [if (raw)] / [order ? .. : ..] on the result of a read: a missing item
    and the empty string are falsy. *)
Definition truthyText (raw : option text) : bool :=
  match raw with
  | None => false
  | Some TEmpty => false
  | Some _ => true
  end.

(** [s.slice(n)] *)
Fixpoint slice (n : nat) (s : string) : string :=
  match n, s with
  | O, _ => s
  | S n', String _ s' => slice n' s'
  | S _, EmptyString => EmptyString
  end.

End Js.

Import Js.

Notation "'do' x <- m ; k" := (Js.bind m (λ x, k))
  (at level 10, x name, m at level 100, k at level 200, only parsing).
Notation "m ;; k" := (Js.bind m (λ _, k))
  (at level 100, k at level 200, right associativity, only parsing).

(** ** The persistent key/value adapter (src/adapters/localStorage.ts)

    The global [localStorage] is a [gmap] from item names to text; it is
    defined, and [setItem] accepts every write (a store that can be full is
    that of [Quota] below). *)

Module LocalStorage.

Record LocalStorageAdapter : Type := mkAdapter {
  prefix : string;
  maxSize : bound;
  accessOrderKey : string
}.

(** [constructor(options?)]: [options?.prefix || 'cache:'] *)
Definition new (options : option CacheOptions) (prefixOption : option string)
  : LocalStorageAdapter :=
  let p := match prefixOption with
           | Some (String c s) => String c s
           | Some EmptyString => "cache:"
           | None => "cache:"
           end in
  {| prefix := p; maxSize := maxSizeOrInfinity options;
     accessOrderKey := p +:+ "__access_order" |}.

Section Operations.

Variable self : LocalStorageAdapter.

(** The operations of the [Storage] object. *)
Definition getItem (k : string) : M (gmap string text) (option text) :=
  λ ls, (ls, Ok (ls !! k)).

Definition setItem (k : string) (t : text) : M (gmap string text) unit :=
  λ ls, (<[k := t]> ls, Ok tt).

Definition removeItem (k : string) : M (gmap string text) unit :=
  λ ls, (delete k ls, Ok tt).

Definition storageClear : M (gmap string text) unit :=
  λ ls, (∅, Ok tt).

(** [Object.keys(localStorage)] *)
Definition storageKeys : M (gmap string text) (list string) :=
  λ ls, (ls, Ok (map_to_list ls).*1).

(** [getFullKey(key)] *)
Definition getFullKey (key : string) : string := prefix self +:+ key.

(** [getAccessOrder()]; the value returned need not be an array. *)
Definition getAccessOrder : M (gmap string text) json :=
  tryCatch
    (do order <- getItem (accessOrderKey self);
     match order with
     | Some t => if truthyText order then lift (JSON_parse t)
                 else ret (JsArray [])
     | None => ret (JsArray [])
     end)
    (ret (JsArray [])).

(** [setAccessOrder(order)] *)
Definition setAccessOrder (order : list string) : M (gmap string text) unit :=
  setItem (accessOrderKey self) (TOrder order).

(** [removeFromStorage(key)] *)
Definition removeFromStorage (key : string) : M (gmap string text) unit :=
  removeItem (getFullKey key) ;;
  do j <- getAccessOrder;
  do order <- lift (asArray j);
  setAccessOrder (without key order).

(** [updateAccessOrder(key)] *)
Definition updateAccessOrder (key : string) : M (gmap string text) unit :=
  do j <- getAccessOrder;
  do order0 <- lift (asArray j);
  let order := moveToTail key order0 in
  if gt_bound (length order) (maxSize self)
  then match order with
       | oldestKey :: rest =>
           (if truthyKey oldestKey then removeFromStorage oldestKey
            else ret tt) ;;
           setAccessOrder rest
       | [] => setAccessOrder []
       end
  else setAccessOrder order.

(** One turn of [for (const key of allKeys)] in [cleanup]; [accessOrder] is
    the local array. *)
Definition cleanupStep (now : Z) (accessOrder : list string) (key : string)
  : M (gmap string text) (list string) :=
  tryCatch
    (do raw <- getItem (getFullKey key);
     match raw with
     | Some t =>
         if truthyText raw
         then do entry <- lift (JSON_parse t);
              do expired <- lift (isExpiredJson entry now);
              if expired : bool
              then removeFromStorage key ;; ret accessOrder
              else ret (if bool_decide (key ∈ accessOrder) then accessOrder
                        else accessOrder ++ [key])
         else ret accessOrder
     | None => ret accessOrder
     end)
    (removeFromStorage key ;; ret accessOrder).

Fixpoint cleanupLoop (now : Z) (accessOrder : list string)
  (allKeys : list string) : M (gmap string text) (list string) :=
  match allKeys with
  | [] => ret accessOrder
  | key :: rest =>
      do accessOrder' <- cleanupStep now accessOrder key;
      cleanupLoop now accessOrder' rest
  end.

(** [while (accessOrder.length > this.maxSize)] of [cleanup] *)
Fixpoint evictLoop (accessOrder : list string)
  : M (gmap string text) (list string) :=
  match accessOrder with
  | [] => ret []
  | oldestKey :: rest =>
      if gt_bound (length accessOrder) (maxSize self)
      then (if truthyKey oldestKey then removeFromStorage oldestKey
            else ret tt) ;;
           evictLoop rest
      else ret accessOrder
  end.

(** [cleanup()] *)
Definition cleanup (now : Z) : M (gmap string text) unit :=
  do keys <- storageKeys;
  let allKeys :=
    slice (String.length (prefix self)) <$>
      filter (λ key, String.prefix (prefix self) key = true
                     ∧ key ≠ accessOrderKey self) keys in
  do j <- getAccessOrder;
  do order0 <- lift (asArray j);
  let accessOrder := filter (λ key, key ∈ allKeys) order0 in
  do accessOrder1 <- cleanupLoop now accessOrder allKeys;
  do accessOrder2 <- evictLoop accessOrder1;
  setAccessOrder accessOrder2.

(** [get(key)] *)
Definition get (key : string) (now : Z) : M (gmap string text) jsval :=
  do raw <- getItem (getFullKey key);
  match raw with
  | Some t =>
      if truthyText raw
      then tryCatch
             (do entry <- lift (JSON_parse t);
              do expired <- lift (isExpiredJson entry now);
              if expired : bool
              then removeFromStorage key ;; ret JUndefined
              else updateAccessOrder key ;; ret (valueOf entry))
             (removeFromStorage key ;; ret JUndefined)
      else ret JUndefined
  | None => ret JUndefined
  end.

(** [set(key, value, options)] *)
Definition set (key : string) (v : jsval) (options : option CacheOptions)
  (now : Z) : M (gmap string text) unit :=
  let entry := newEntry v options now in
  tryCatch
    (setItem (getFullKey key) (TEntry entry) ;; updateAccessOrder key)
    (cleanup now ;;
     setItem (getFullKey key) (TEntry entry) ;;
     updateAccessOrder key).

(** [delete(key)] *)
Definition delete (key : string) : M (gmap string text) unit :=
  removeFromStorage key.

Fixpoint removeAll (keys : list string) : M (gmap string text) unit :=
  match keys with
  | [] => ret tt
  | key :: rest => removeItem key ;; removeAll rest
  end.

(** [clear()] *)
Definition clear : M (gmap string text) unit :=
  do allKeys <- storageKeys;
  let keys := filter (λ key, String.prefix (prefix self) key = true) allKeys in
  removeAll keys ;;
  removeItem (accessOrderKey self) ;;
  storageClear.

(** [has(key)] *)
Definition has (key : string) (now : Z) : M (gmap string text) bool :=
  do v <- get key now;
  ret (bool_decide (v ≠ JUndefined)).

End Operations.

End LocalStorage.

(** ** The key/value adapter on a store with a quota

    [localStorage.setItem] throws a QuotaExceededError when the store does
    not take the write.  What a store takes is up to the browser:
    [accepts ls k t] tells whether the store [ls] takes the text [t] under
    the name [k].  The methods below are those of [LocalStorage] with this
    [setItem]; [getItem], [removeItem], [clear] and [Object.keys] do not
    fail. *)

Module Quota.

Section Operations.

Variable accepts : gmap string text → string → text → bool.

Variable self : LocalStorage.LocalStorageAdapter.

(** [localStorage.setItem(k, t)] *)
Definition setItem (k : string) (t : text) : M (gmap string text) unit :=
  λ ls, if accepts ls k t then (<[k := t]> ls, Ok tt)
        else (ls, Throw QuotaExceededError).

(** [setAccessOrder(order)] *)
Definition setAccessOrder (order : list string) : M (gmap string text) unit :=
  setItem (LocalStorage.accessOrderKey self) (TOrder order).

(** [removeFromStorage(key)] *)
Definition removeFromStorage (key : string) : M (gmap string text) unit :=
  LocalStorage.removeItem (LocalStorage.getFullKey self key) ;;
  do j <- LocalStorage.getAccessOrder self;
  do order <- lift (asArray j);
  setAccessOrder (without key order).

(** [updateAccessOrder(key)] *)
Definition updateAccessOrder (key : string) : M (gmap string text) unit :=
  do j <- LocalStorage.getAccessOrder self;
  do order0 <- lift (asArray j);
  let order := moveToTail key order0 in
  if gt_bound (length order) (LocalStorage.maxSize self)
  then match order with
       | oldestKey :: rest =>
           (if truthyKey oldestKey then removeFromStorage oldestKey
            else ret tt) ;;
           setAccessOrder rest
       | [] => setAccessOrder []
       end
  else setAccessOrder order.

(** One turn of [for (const key of allKeys)] in [cleanup]; [accessOrder] is
    the local array. *)
Definition cleanupStep (now : Z) (accessOrder : list string) (key : string)
  : M (gmap string text) (list string) :=
  tryCatch
    (do raw <- LocalStorage.getItem (LocalStorage.getFullKey self key);
     match raw with
     | Some t =>
         if truthyText raw
         then do entry <- lift (JSON_parse t);
              do expired <- lift (isExpiredJson entry now);
              if expired : bool
              then removeFromStorage key ;; ret accessOrder
              else ret (if bool_decide (key ∈ accessOrder) then accessOrder
                        else accessOrder ++ [key])
         else ret accessOrder
     | None => ret accessOrder
     end)
    (removeFromStorage key ;; ret accessOrder).

Fixpoint cleanupLoop (now : Z) (accessOrder : list string)
  (allKeys : list string) : M (gmap string text) (list string) :=
  match allKeys with
  | [] => ret accessOrder
  | key :: rest =>
      do accessOrder' <- cleanupStep now accessOrder key;
      cleanupLoop now accessOrder' rest
  end.

(** [while (accessOrder.length > this.maxSize)] of [cleanup] *)
Fixpoint evictLoop (accessOrder : list string)
  : M (gmap string text) (list string) :=
  match accessOrder with
  | [] => ret []
  | oldestKey :: rest =>
      if gt_bound (length accessOrder) (LocalStorage.maxSize self)
      then (if truthyKey oldestKey then removeFromStorage oldestKey
            else ret tt) ;;
           evictLoop rest
      else ret accessOrder
  end.

(** [cleanup()] *)
Definition cleanup (now : Z) : M (gmap string text) unit :=
  do keys <- LocalStorage.storageKeys;
  let allKeys :=
    slice (String.length (LocalStorage.prefix self)) <$>
      filter (λ key, String.prefix (LocalStorage.prefix self) key = true
                     ∧ key ≠ LocalStorage.accessOrderKey self) keys in
  do j <- LocalStorage.getAccessOrder self;
  do order0 <- lift (asArray j);
  let accessOrder := filter (λ key, key ∈ allKeys) order0 in
  do accessOrder1 <- cleanupLoop now accessOrder allKeys;
  do accessOrder2 <- evictLoop accessOrder1;
  setAccessOrder accessOrder2.

(** [get(key)] *)
Definition get (key : string) (now : Z) : M (gmap string text) jsval :=
  do raw <- LocalStorage.getItem (LocalStorage.getFullKey self key);
  match raw with
  | Some t =>
      if truthyText raw
      then tryCatch
             (do entry <- lift (JSON_parse t);
              do expired <- lift (isExpiredJson entry now);
              if expired : bool
              then removeFromStorage key ;; ret JUndefined
              else updateAccessOrder key ;; ret (valueOf entry))
             (removeFromStorage key ;; ret JUndefined)
      else ret JUndefined
  | None => ret JUndefined
  end.

(** [set(key, value, options)]: when the store is full, [cleanup] and a
    second try. *)
Definition set (key : string) (v : jsval) (options : option CacheOptions)
  (now : Z) : M (gmap string text) unit :=
  let entry := newEntry v options now in
  tryCatch
    (setItem (LocalStorage.getFullKey self key) (TEntry entry) ;;
     updateAccessOrder key)
    (cleanup now ;;
     setItem (LocalStorage.getFullKey self key) (TEntry entry) ;;
     updateAccessOrder key).

(** [delete(key)] *)
Definition delete (key : string) : M (gmap string text) unit :=
  removeFromStorage key.

(** [clear()] writes nothing. *)
Definition clear : M (gmap string text) unit := LocalStorage.clear self.

(** [has(key)] *)
Definition has (key : string) (now : Z) : M (gmap string text) bool :=
  do v <- get key now;
  ret (bool_decide (v ≠ JUndefined)).

End Operations.

End Quota.

(** ** The digest of the file names (node's crypto module)

    [crypto.createHash('md5').update(key).digest('hex')] is the MD5 digest
    (RFC 1321) of the bytes of [key], written as 32 lower-case hexadecimal
    digits.  A [string] is taken as the sequence of bytes that [update]
    hashes (the UTF-8 encoding of the key; for an ASCII key, its
    characters). *)

Module Crypto.

(** The low 32 bits. *)
Definition word (x : Z) : Z := Z.land x 4294967295.

(** Rotation of a 32-bit word to the left. *)
Definition rotateLeft (x c : Z) : Z :=
  Z.lor (word (Z.shiftl x c)) (Z.shiftr x (32 - c)).

(** The shift of every round. *)
Definition shifts : list Z :=
  [ 7; 12; 17; 22; 7; 12; 17; 22; 7; 12; 17; 22; 7; 12; 17; 22;
    5; 9; 14; 20; 5; 9; 14; 20; 5; 9; 14; 20; 5; 9; 14; 20;
    4; 11; 16; 23; 4; 11; 16; 23; 4; 11; 16; 23; 4; 11; 16; 23;
    6; 10; 15; 21; 6; 10; 15; 21; 6; 10; 15; 21; 6; 10; 15; 21 ].

(** [floor(2^32 * abs(sin(i + 1)))] for [i] from 0 to 63. *)
Definition sines : list Z :=
  [ 0xd76aa478; 0xe8c7b756; 0x242070db; 0xc1bdceee;
    0xf57c0faf; 0x4787c62a; 0xa8304613; 0xfd469501;
    0x698098d8; 0x8b44f7af; 0xffff5bb1; 0x895cd7be;
    0x6b901122; 0xfd987193; 0xa679438e; 0x49b40821;
    0xf61e2562; 0xc040b340; 0x265e5a51; 0xe9b6c7aa;
    0xd62f105d; 0x02441453; 0xd8a1e681; 0xe7d3fbc8;
    0x21e1cde6; 0xc33707d6; 0xf4d50d87; 0x455a14ed;
    0xa9e3e905; 0xfcefa3f8; 0x676f02d9; 0x8d2a4c8a;
    0xfffa3942; 0x8771f681; 0x6d9d6122; 0xfde5380c;
    0xa4beea44; 0x4bdecfa9; 0xf6bb4b60; 0xbebfbc70;
    0x289b7ec6; 0xeaa127fa; 0xd4ef3085; 0x04881d05;
    0xd9d4d039; 0xe6db99e5; 0x1fa27cf8; 0xc4ac5665;
    0xf4292244; 0x432aff97; 0xab9423a7; 0xfc93a039;
    0x655b59c3; 0x8f0ccc92; 0xffeff47d; 0x85845dd1;
    0x6fa87e4f; 0xfe2ce6e0; 0xa3014314; 0x4e0811a1;
    0xf7537e82; 0xbd3af235; 0x2ad7d2bb; 0xeb86d391 ].

(** The bytes of a string. *)
Fixpoint bytes (s : string) : list Z :=
  match s with
  | EmptyString => []
  | String c s' => Z.of_N (N_of_ascii c) :: bytes s'
  end.

(** [n] bytes of [x], the least significant first. *)
Fixpoint littleEndian (n : nat) (x : Z) : list Z :=
  match n with
  | O => []
  | S n' => Z.land x 255 :: littleEndian n' (Z.shiftr x 8)
  end.

Fixpoint fromLittleEndian (bs : list Z) : Z :=
  match bs with
  | [] => 0
  | b :: rest => b + 256 * fromLittleEndian rest
  end.

(** The message followed by the bit 1, zeros up to 56 bytes modulo 64 and
    the length of the message in bits, on 8 bytes. *)
Definition padded (message : list Z) : list Z :=
  let len := Z.of_nat (length message) in
  message ++ [128] ++ replicate (Z.to_nat ((55 - len) mod 64)) 0
    ++ littleEndian 8 (8 * len).

(** The words of a block of bytes, 4 bytes each. *)
Fixpoint words (n : nat) (block : list Z) : list Z :=
  match n with
  | O => []
  | S n' => fromLittleEndian (take 4 block) :: words n' (drop 4 block)
  end.

(** One of the 64 operations on the state [(a, b, c, d)]. *)
Definition operation (m : list Z) (state : Z * Z * Z * Z) (i : nat)
  : Z * Z * Z * Z :=
  let '(a, b, c, d) := state in
  let not32 x := Z.lxor x 4294967295 in
  let '(f, g) :=
    if (i <? 16)%nat
    then (Z.lor (Z.land b c) (Z.land (not32 b) d), i)
    else if (i <? 32)%nat
    then (Z.lor (Z.land d b) (Z.land (not32 d) c), ((5 * i + 1) mod 16)%nat)
    else if (i <? 48)%nat
    then (Z.lxor b (Z.lxor c d), ((3 * i + 5) mod 16)%nat)
    else (Z.lxor c (Z.lor b (not32 d)), ((7 * i) mod 16)%nat) in
  let f' := word (f + a + nth i sines 0 + nth g m 0) in
  (d, word (b + rotateLeft f' (nth i shifts 0)), b, c).

(** The state after one block of 64 bytes. *)
Definition block (state : Z * Z * Z * Z) (bs : list Z) : Z * Z * Z * Z :=
  let '(a0, b0, c0, d0) := state in
  let '(a, b, c, d) := foldl (operation (words 16 bs)) state (seq 0 64) in
  (word (a0 + a), word (b0 + b), word (c0 + c), word (d0 + d)).

Fixpoint blocks (n : nat) (state : Z * Z * Z * Z) (bs : list Z)
  : Z * Z * Z * Z :=
  match n with
  | O => state
  | S n' => blocks n' (block state (take 64 bs)) (drop 64 bs)
  end.

(** A hexadecimal digit, in lower case. *)
Definition hexDigit (x : Z) : ascii :=
  if Z.ltb x 10 then ascii_of_N (Z.to_N (48 + x))
  else ascii_of_N (Z.to_N (87 + x)).

Fixpoint hex (bs : list Z) : string :=
  match bs with
  | [] => EmptyString
  | b :: rest =>
      String (hexDigit (Z.shiftr b 4)) (String (hexDigit (Z.land b 15)) (hex rest))
  end.

(** [createHash('md5').update(key).digest('hex')] *)
Definition md5 (key : string) : string :=
  let message := padded (bytes key) in
  let '(a, b, c, d) :=
    blocks (length message / 64)
      (0x67452301, 0xefcdab89, 0x98badcfe, 0x10325476) message in
  hex (littleEndian 4 a ++ littleEndian 4 b ++ littleEndian 4 c
       ++ littleEndian 4 d).

End Crypto.

(** ** The persistent file adapter (src/adapters/fileSystem.ts)

    The store is the configured directory: [None] while it does not exist,
    otherwise a [gmap] from file names to the text of the files.
    [path.join(this.directory, name)] is the name inside that directory, and
    [readdir] lists the names in the order in which the map enumerates
    them. *)

Module FileSystem.

Record FileSystemAdapter : Type := mkAdapter {
  maxSize : bound
}.

(** [constructor(options?)] *)
Definition new (options : option CacheOptions) : FileSystemAdapter :=
  {| maxSize := maxSizeOrInfinity options |}.

(** ['__access_order.json'], the name of [this.accessOrderFile]. *)
Definition accessOrderFile : string := "__access_order.json".

(** [s.replace(pat, rep)] with a string pattern: the first occurrence. *)
Fixpoint replaceFirst (pat rep s : string) : string :=
  if String.prefix pat s
  then rep +:+ slice (String.length pat) s
  else match s with
       | EmptyString => EmptyString
       | String c s' => String c (replaceFirst pat rep s')
       end.

(** [fs/promises] on the directory. *)
Definition access : M (option (gmap string text)) unit :=
  λ d, match d with
       | Some _ => (d, Ok tt)
       | None => (d, Throw ENOENT)
       end.

Definition mkdir : M (option (gmap string text)) unit :=
  λ d, match d with
       | Some _ => (d, Ok tt)
       | None => (Some ∅, Ok tt)
       end.

Definition readFile (name : string) : M (option (gmap string text)) text :=
  λ d, match d with
       | Some files =>
           match files !! name with
           | Some t => (d, Ok t)
           | None => (d, Throw ENOENT)
           end
       | None => (d, Throw ENOENT)
       end.

Definition writeFile (name : string) (t : text)
  : M (option (gmap string text)) unit :=
  λ d, match d with
       | Some files => (Some (<[name := t]> files), Ok tt)
       | None => (d, Throw ENOENT)
       end.

Definition unlink (name : string) : M (option (gmap string text)) unit :=
  λ d, match d with
       | Some files =>
           match files !! name with
           | Some _ => (Some (delete name files), Ok tt)
           | None => (d, Throw ENOENT)
           end
       | None => (d, Throw ENOENT)
       end.

Definition readdir : M (option (gmap string text)) (list string) :=
  λ d, match d with
       | Some files => (d, Ok (map_to_list files).*1)
       | None => (d, Throw ENOENT)
       end.

Section Operations.

(** [crypto.createHash('md5').update(key).digest('hex')] *)
Variable md5 : string → string.

Variable self : FileSystemAdapter.

(** [getFilePath(key)] *)
Definition getFilePath (key : string) : string := md5 key +:+ ".json".

(** [ensureDirectory()] *)
Definition ensureDirectory : M (option (gmap string text)) unit :=
  tryCatch access mkdir.

(** [getAccessOrder()]; the value returned need not be an array. *)
Definition getAccessOrder : M (option (gmap string text)) json :=
  tryCatch
    (do content <- readFile accessOrderFile;
     lift (JSON_parse content))
    (ret (JsArray [])).

(** [setAccessOrder(order)] *)
Definition setAccessOrder (order : list string)
  : M (option (gmap string text)) unit :=
  ensureDirectory ;;
  writeFile accessOrderFile (TOrder order).

(** [updateAccessOrder(key)] *)
Definition updateAccessOrder (key : string)
  : M (option (gmap string text)) unit :=
  do j <- getAccessOrder;
  do order0 <- lift (asArray j);
  setAccessOrder (moveToTail key order0).

(** One turn of the [for (const file of files.filter(...))] of [cleanup]. *)
Definition cleanupStep (now : Z) (validKeys : list string) (file : string)
  : M (option (gmap string text)) (list string) :=
  tryCatch
    (do content <- readFile file;
     do entry <- lift (JSON_parse content);
     do expired <- lift (isExpiredJson entry now);
     if expired : bool
     then unlink file ;; ret validKeys
     else ret (validKeys ++ [replaceFirst ".json" "" file]))
    (unlink file ;; ret validKeys).

Fixpoint cleanupLoop (now : Z) (validKeys : list string) (files : list string)
  : M (option (gmap string text)) (list string) :=
  match files with
  | [] => ret validKeys
  | file :: rest =>
      do validKeys' <- cleanupStep now validKeys file;
      cleanupLoop now validKeys' rest
  end.

(** [validKeys.forEach(key => { if (!updatedOrder.includes(key))
    updatedOrder.push(key) })] *)
Definition addMissing (updatedOrder validKeys : list string) : list string :=
  foldl (λ acc key, if bool_decide (key ∈ acc) then acc else acc ++ [key])
    updatedOrder validKeys.

(** [while (updatedOrder.length > this.maxSize)] of [cleanup] *)
Fixpoint evictLoop (updatedOrder : list string)
  : M (option (gmap string text)) (list string) :=
  match updatedOrder with
  | [] => ret []
  | oldestKey :: rest =>
      if gt_bound (length updatedOrder) (maxSize self)
      then (if truthyKey oldestKey
            then tryCatch (unlink (oldestKey +:+ ".json")) (ret tt)
            else ret tt) ;;
           evictLoop rest
      else ret updatedOrder
  end.

(** [cleanup()] *)
Definition cleanup (now : Z) : M (option (gmap string text)) unit :=
  ensureDirectory ;;
  do files <- readdir;
  do accessOrder <- getAccessOrder;
  do validKeys <-
    cleanupLoop now [] (filter (λ f, f ≠ "__access_order.json") files);
  do order0 <- lift (asArray accessOrder);
  let updatedOrder :=
    addMissing (filter (λ key, key ∈ validKeys) order0) validKeys in
  do updatedOrder' <- evictLoop updatedOrder;
  setAccessOrder updatedOrder'.

(** [get(key)] *)
Definition get (key : string) (now : Z)
  : M (option (gmap string text)) jsval :=
  ensureDirectory ;;
  tryCatch
    (do content <- readFile (getFilePath key);
     do entry <- lift (JSON_parse content);
     do expired <- lift (isExpiredJson entry now);
     if expired : bool
     then unlink (getFilePath key) ;;
          do j <- getAccessOrder;
          do order <- lift (asArray j);
          setAccessOrder (without key order) ;;
          ret JUndefined
     else updateAccessOrder key ;; ret (valueOf entry))
    (ret JUndefined).

(** [set(key, value, options)].  After [cleanup] the index file holds an
    array, the one [cleanup] has just written. *)
Definition set (key : string) (v : jsval) (options : option CacheOptions)
  (now : Z) : M (option (gmap string text)) unit :=
  cleanup now ;;
  do j <- getAccessOrder;
  do currentOrder <- lift (asArray j);
  (if negb (bool_decide (key ∈ currentOrder))
      && ge_bound (length currentOrder) (maxSize self)
   then match currentOrder with
        | oldestKey :: rest =>
            if truthyKey oldestKey
            then tryCatch (unlink (oldestKey +:+ ".json")) (ret tt) ;;
                 setAccessOrder rest
            else ret tt
        | [] => ret tt
        end
   else ret tt) ;;
  writeFile (getFilePath key) (TEntry (newEntry v options now)) ;;
  updateAccessOrder key.

(** [delete(key)] *)
Definition delete (key : string) : M (option (gmap string text)) unit :=
  tryCatch
    (unlink (getFilePath key) ;;
     do j <- getAccessOrder;
     do order <- lift (asArray j);
     setAccessOrder (without key order))
    (ret tt).

Fixpoint unlinkAll (files : list string) : M (option (gmap string text)) unit :=
  match files with
  | [] => ret tt
  | file :: rest => unlink file ;; unlinkAll rest
  end.

(** [clear()] *)
Definition clear : M (option (gmap string text)) unit :=
  tryCatch
    (do files <- readdir;
     unlinkAll files ;;
     setAccessOrder [])
    (ret tt).

(** [has(key)] *)
Definition has (key : string) (now : Z) : M (option (gmap string text)) bool :=
  do v <- get key now;
  ret (bool_decide (v ≠ JUndefined)).

End Operations.

End FileSystem.

(** ** Memoization (src/memoize.ts) *)

Module Memoize.

Section Memoize.

(** The arguments of the wrapped function and the world it acts on. *)
Context {A U : Type}.

(** [fn]: it returns a value or throws, and may act on the world. *)
Variable fn : A → M U jsval.

(** [options: MemoizeOptions = {}], the [CacheOptions] part. *)
Variable options : CacheOptions.

(** [options.keyResolver || ((...args) => JSON.stringify(args))] *)
Variable keyResolver : A → string.

(** [const cache = new MemoryAdapter<ReturnType<T>>(options)] *)
Definition newCache : Memory.MemoryAdapter := Memory.new (Some options).

(** The function returned by [memoize]; [now] is the clock at the read of the
    cache and [now'] the clock at the write.  [None] when the write to the
    cache does not end. *)
Definition memoized (a : A) (now now' : Z) (st : Memory.MemoryAdapter * U)
  : option (Memory.MemoryAdapter * U * result jsval) :=
  let key := keyResolver a in
  let r := Memory.get key now st.1 in
  if bool_decide (r.2 ≠ JUndefined)
  then Some (r.1, st.2, Ok r.2)
  else match fn a st.2 with
       | (u', Ok result) =>
           match Memory.set key result (Some options) now' r.1 with
           | Some cache' => Some (cache', u', Ok result)
           | None => None
           end
       | (u', Throw e) => Some (r.1, u', Throw e)
       end.

(** A sequence of calls of the memoized function, each with its two clock
    readings. *)
Fixpoint calls (l : list (A * Z * Z)) (st : Memory.MemoryAdapter * U)
  : option (Memory.MemoryAdapter * U) :=
  match l with
  | [] => Some st
  | (a, now, now') :: rest =>
      match memoized a now now' st with
      | Some (cache', u', _) => calls rest (cache', u')
      | None => None
      end
  end.

End Memoize.

End Memoize.

(** ** Sequences of operations on an adapter *)

Module Trace.

Inductive op : Type :=
| OpGet (key : string)
| OpSet (key : string) (v : jsval) (options : option CacheOptions)
| OpDelete (key : string)
| OpClear
| OpHas (key : string).

(** What the caller of an operation sees. *)
Inductive response : Type :=
| Value (v : jsval)
| Boolean (b : bool)
| Done
| Raised (e : exn).

#[export] Instance response_eq_dec : EqDecision response.
Proof. solve_decision. Defined.

Definition isRaised (r : response) : bool :=
  match r with
  | Raised _ => true
  | _ => false
  end.

(** One operation of the volatile adapter at time [now]; [None] when it does
    not end. *)
Definition memoryStep (o : op) (now : Z) (self : Memory.MemoryAdapter)
  : option (Memory.MemoryAdapter * response) :=
  match o with
  | OpGet key => let r := Memory.get key now self in Some (r.1, Value r.2)
  | OpSet key v options =>
      match Memory.set key v options now self with
      | Some self' => Some (self', Done)
      | None => None
      end
  | OpDelete key => Some (Memory.delete key self, Done)
  | OpClear => Some (Memory.clear self, Done)
  | OpHas key => let r := Memory.has key now self in Some (r.1, Boolean r.2)
  end.

Fixpoint runMemory (ops : list (op * Z)) (self : Memory.MemoryAdapter)
  : option (Memory.MemoryAdapter * list response) :=
  match ops with
  | [] => Some (self, [])
  | (o, now) :: rest =>
      match memoryStep o now self with
      | Some (self', r) =>
          match runMemory rest self' with
          | Some (self'', rs) => Some (self'', r :: rs)
          | None => None
          end
      | None => None
      end
  end.

(** The response of a computation that returns [A] or throws. *)
Definition respond {S A : Type} (f : A → response) (x : S * result A)
  : S * response :=
  match x with
  | (s, Ok a) => (s, f a)
  | (s, Throw e) => (s, Raised e)
  end.

(** One operation of the key/value adapter. *)
Definition localStorageStep (self : LocalStorage.LocalStorageAdapter)
  (o : op) (now : Z) (ls : gmap string text) : gmap string text * response :=
  match o with
  | OpGet key => respond Value (LocalStorage.get self key now ls)
  | OpSet key v options =>
      respond (λ _, Done) (LocalStorage.set self key v options now ls)
  | OpDelete key => respond (λ _, Done) (LocalStorage.delete self key ls)
  | OpClear => respond (λ _, Done) (LocalStorage.clear self ls)
  | OpHas key => respond Boolean (LocalStorage.has self key now ls)
  end.

Fixpoint runLocalStorage (self : LocalStorage.LocalStorageAdapter)
  (ops : list (op * Z)) (ls : gmap string text)
  : gmap string text * list response :=
  match ops with
  | [] => (ls, [])
  | (o, now) :: rest =>
      let x := localStorageStep self o now ls in
      let y := runLocalStorage self rest x.1 in
      (y.1, x.2 :: y.2)
  end.

(** One operation of the file adapter. *)
Definition fileSystemStep (md5 : string → string)
  (self : FileSystem.FileSystemAdapter) (o : op) (now : Z)
  (d : option (gmap string text)) : option (gmap string text) * response :=
  match o with
  | OpGet key => respond Value (FileSystem.get md5 key now d)
  | OpSet key v options =>
      respond (λ _, Done) (FileSystem.set md5 self key v options now d)
  | OpDelete key => respond (λ _, Done) (FileSystem.delete md5 key d)
  | OpClear => respond (λ _, Done) (FileSystem.clear d)
  | OpHas key => respond Boolean (FileSystem.has md5 key now d)
  end.

Fixpoint runFileSystem (md5 : string → string)
  (self : FileSystem.FileSystemAdapter) (ops : list (op * Z))
  (d : option (gmap string text))
  : option (gmap string text) * list response :=
  match ops with
  | [] => (d, [])
  | (o, now) :: rest =>
      let x := fileSystemStep md5 self o now d in
      let y := runFileSystem md5 self rest x.1 in
      (y.1, x.2 :: y.2)
  end.

End Trace.

Import Trace.

(** ** The storage interface (src/types.ts) *)

Module Adapter.

(** [interface StorageAdapter<T>]: the five methods that every adapter has,
    on the state [S] they act on.  A method returns or throws, or does not
    return at all ([None]).  The optional [addEventListener] and
    [removeEventListener] of the interface are defined by none of the three
    adapters. *)
Class StorageAdapter (S : Type) : Type := mkStorageAdapter {
  get : string → Z → S → option (S * result jsval);
  set : string → jsval → option CacheOptions → Z → S
        → option (S * result unit);
  delete : string → S → option (S * result unit);
  clear : S → option (S * result unit);
  has : string → Z → S → option (S * result bool)
}.

(** [class MemoryAdapter<T> implements StorageAdapter<T>] *)
Definition memory : StorageAdapter Memory.MemoryAdapter := {|
  get key now self :=
    let r := Memory.get key now self in Some (r.1, Ok r.2);
  set key v options now self :=
    match Memory.set key v options now self with
    | Some self' => Some (self', Ok tt)
    | None => None
    end;
  delete key self := Some (Memory.delete key self, Ok tt);
  clear self := Some (Memory.clear self, Ok tt);
  has key now self :=
    let r := Memory.has key now self in Some (r.1, Ok r.2)
|}.


(** [class FileSystemAdapter<T> implements StorageAdapter<T>], on its
    directory. *)
Definition fileSystem (md5 : string → string)
  (self : FileSystem.FileSystemAdapter)
  : StorageAdapter (option (gmap string text)) := {|
  get key now d := Some (FileSystem.get md5 key now d);
  set key v options now d := Some (FileSystem.set md5 self key v options now d);
  delete key d := Some (FileSystem.delete md5 key d);
  clear d := Some (FileSystem.clear d);
  has key now d := Some (FileSystem.has md5 key now d)
|}.

End Adapter.

(** ** The cache and its events (src/cache.ts) *)

Module Cache.

(** [type CacheEventType = 'set' | 'get' | 'delete' | 'clear' | 'expired'] *)
Inductive CacheEventType : Type :=
| OnSet
| OnGet
| OnDelete
| OnClear
| OnExpired.

#[global] Instance CacheEventType_eq_dec : EqDecision CacheEventType.
Proof. solve_decision. Defined.

#[global] Instance CacheEventType_countable : Countable CacheEventType.
Proof.
  refine (inj_countable'
            (λ t, match t with
                  | OnSet => 0 | OnGet => 1 | OnDelete => 2
                  | OnClear => 3 | OnExpired => 4
                  end)%nat
            (λ n, match n with
                  | 0 => OnSet | 1 => OnGet | 2 => OnDelete
                  | 3 => OnClear | _ => OnExpired
                  end)%nat _).
  by intros [].
Defined.

(** [interface CacheEvent<T> { type; key?; value?; timestamp }]; a property
    that the event does not have is [None]. *)
Record CacheEvent : Type := mkEvent {
  type : CacheEventType;
  key : option string;
  value : option jsval;
  timestamp : Z
}.

#[global] Instance CacheEvent_eq_dec : EqDecision CacheEvent.
Proof. solve_decision. Defined.

(** A property of an options object: not there, there with the value
    [undefined], or there with a value. *)
Inductive property (A : Type) : Type :=
| Missing
| Undefined
| Present (a : A).

Arguments Missing {A}.
Arguments Undefined {A}.
Arguments Present {A} a.

(** The [ttl] and [maxSize] of an options object passed to the cache. *)
Record Options : Type := mkOptions {
  ttl : property Z;
  maxSize : property nat
}.

(** [{}] *)
Definition noOptions : Options := {| ttl := Missing; maxSize := Missing |}.

(** What a read of the property gives: [undefined] in the first two cases. *)
Definition read {A : Type} (p : property A) : option A :=
  match p with
  | Present a => Some a
  | _ => None
  end.

(** The object as an adapter reads it. *)
Definition asCacheOptions (o : Options) : CacheOptions :=
  {| Types.ttl := read (ttl o); Types.maxSize := read (maxSize o) |}.

(** [{ ...a, ...b }]: every property that [b] has, also one that holds
    [undefined], replaces the one of [a]; spreading [undefined] adds
    nothing. *)
Definition spreadProperty {A : Type} (a b : property A) : property A :=
  match b with
  | Missing => a
  | _ => b
  end.

Definition spread (a : Options) (b : option Options) : Options :=
  match b with
  | Some b => {| ttl := spreadProperty (ttl a) (ttl b);
                 maxSize := spreadProperty (maxSize a) (maxSize b) |}
  | None => a
  end.

(** [set.add(listener)] and [set.delete(listener)] on a [Set], which keeps
    the order of insertion. *)
Definition setAdd {L : Type} `{EqDecision L} (listener : L) (s : list L)
  : list L :=
  if bool_decide (listener ∈ s) then s else s ++ [listener].

Definition setDelete {L : Type} `{EqDecision L} (listener : L) (s : list L)
  : list L :=
  filter (λ l, l ≠ listener) s.

(** [class Cache<T>]: the state of the adapter, the registered listeners
    and the options of the constructor. *)
Record Cache (S L : Type) : Type := mkCache {
  adapter : S;
  eventListeners : gmap CacheEventType (list L);
  options : Options
}.

Arguments mkCache {S L} _ _ _.
Arguments adapter {S L} _.
Arguments eventListeners {S L} _.
Arguments options {S L} _.





(** [constructor(options?)] with [options.adapter]: none of the adapters has
    [addEventListener], so nothing is forwarded. *)
Definition new {S L : Type} (options : option Options) (adapter : S)
  : Cache S L :=
  {| adapter := adapter; eventListeners := ∅;
     options := default noOptions options |}.


Section Methods.

Context {S : Type} {SA : Adapter.StorageAdapter S}.

(** The listeners, told apart as the function objects are, and what a call
    of one does: it acts on a world of its own and returns or throws.  A
    listener does not call the cache back. *)
Context {L W : Type} `{EqDecision L}.
Variable call : L → CacheEvent → M W unit.

(** [listeners.forEach(listener => listener(event))] *)
Fixpoint forEach (listeners : list L) (event : CacheEvent) : M W unit :=
  match listeners with
  | [] => ret tt
  | listener :: rest => call listener event ;; forEach rest event
  end.

(** [emitEvent(event)] *)
Definition emitEvent (self : Cache S L) (event : CacheEvent) : M W unit :=
  match eventListeners self !! type event with
  | Some listeners => forEach listeners event
  | None => ret tt
  end.

(** [addEventListener(type, listener)] *)
Definition addEventListener (type : CacheEventType) (listener : L)
  (self : Cache S L) : Cache S L :=
  let listeners := default [] (eventListeners self !! type) in
  {| adapter := adapter self;
     eventListeners := <[type := setAdd listener listeners]> (eventListeners self);
     options := options self |}.

(** [removeEventListener(type, listener)] *)
Definition removeEventListener (type : CacheEventType) (listener : L)
  (self : Cache S L) : Cache S L :=
  match eventListeners self !! type with
  | Some listeners =>
      {| adapter := adapter self;
         eventListeners :=
           <[type := setDelete listener listeners]> (eventListeners self);
         options := options self |}
  | None => self
  end.

(** The cache once the adapter has done its part. *)
Definition withAdapter (self : Cache S L) (a : S) : Cache S L :=
  {| adapter := a; eventListeners := eventListeners self;
     options := options self |}.

(** [this.emitEvent(event); return a;] *)
Definition emitThen {A : Type} (self : Cache S L) (event : CacheEvent) (a : A)
  (w : W) : option (Cache S L * W * result A) :=
  match emitEvent self event w with
  | (w', Ok _) => Some (self, w', Ok a)
  | (w', Throw e) => Some (self, w', Throw e)
  end.

(** [get(key)]; [now] is the clock when the adapter runs and [now'] the
    clock when the event is built. *)
Definition get (key : string) (now now' : Z) (self : Cache S L) (w : W)
  : option (Cache S L * W * result jsval) :=
  match Adapter.get key now (adapter self) with
  | Some (a, Ok v) =>
      if decide (v = JUndefined)
      then Some (withAdapter self a, w, Ok JUndefined)
      else emitThen (withAdapter self a)
             {| type := OnGet; key := Some key; value := Some v;
                timestamp := now' |} v w
  | Some (a, Throw e) => Some (withAdapter self a, w, Throw e)
  | None => None
  end.

(** [set(key, value, options)] *)
Definition set (key : string) (v : jsval) (callOptions : option Options)
  (now now' : Z) (self : Cache S L) (w : W)
  : option (Cache S L * W * result unit) :=
  let merged := spread (options self) callOptions in
  match Adapter.set key v (Some (asCacheOptions merged)) now (adapter self) with
  | Some (a, Ok _) =>
      emitThen (withAdapter self a)
        {| type := OnSet; key := Some key; value := Some v;
           timestamp := now' |} tt w
  | Some (a, Throw e) => Some (withAdapter self a, w, Throw e)
  | None => None
  end.

(** [delete(key)] *)
Definition delete (key : string) (now' : Z) (self : Cache S L) (w : W)
  : option (Cache S L * W * result unit) :=
  match Adapter.delete key (adapter self) with
  | Some (a, Ok _) =>
      emitThen (withAdapter self a)
        {| type := OnDelete; key := Some key; value := None;
           timestamp := now' |} tt w
  | Some (a, Throw e) => Some (withAdapter self a, w, Throw e)
  | None => None
  end.

(** [clear()] *)
Definition clear (now' : Z) (self : Cache S L) (w : W)
  : option (Cache S L * W * result unit) :=
  match Adapter.clear (adapter self) with
  | Some (a, Ok _) =>
      emitThen (withAdapter self a)
        {| type := OnClear; key := None; value := None; timestamp := now' |}
        tt w
  | Some (a, Throw e) => Some (withAdapter self a, w, Throw e)
  | None => None
  end.

(** [has(key)] *)
Definition has (key : string) (now : Z) (self : Cache S L) (w : W)
  : option (Cache S L * W * result bool) :=
  match Adapter.has key now (adapter self) with
  | Some (a, r) => Some (withAdapter self a, w, r)
  | None => None
  end.

(** A call of a method of the cache. *)
Inductive request : Type :=
| CallGet (key : string)
| CallSet (key : string) (v : jsval) (callOptions : option Options)
| CallDelete (key : string)
| CallClear
| CallHas (key : string).

(** One call, with its two readings of the clock, and what the caller
    sees. *)
Definition step (r : request) (now now' : Z) (self : Cache S L) (w : W)
  : option (Cache S L * W * response) :=
  let answer {A : Type} (f : A → response)
        (x : option (Cache S L * W * result A)) :=
    match x with
    | Some (c, w', Ok a) => Some (c, w', f a)
    | Some (c, w', Throw e) => Some (c, w', Raised e)
    | None => None
    end in
  match r with
  | CallGet key => answer Value (get key now now' self w)
  | CallSet key v callOptions =>
      answer (λ _, Done) (set key v callOptions now now' self w)
  | CallDelete key => answer (λ _, Done) (delete key now' self w)
  | CallClear => answer (λ _, Done) (clear now' self w)
  | CallHas key => answer Boolean (has key now self w)
  end.

Fixpoint run (rs : list (request * Z * Z)) (self : Cache S L) (w : W)
  : option (Cache S L * W * list response) :=
  match rs with
  | [] => Some (self, w, [])
  | (r, now, now') :: rest =>
      match step r now now' self w with
      | Some (c, w', x) =>
          match run rest c w' with
          | Some (c', w'', xs) => Some (c', w'', x :: xs)
          | None => None
          end
      | None => None
      end
  end.

End Methods.

End Cache.

(** ** Data of the examples *)

(** The MD5 hex digests of the keys used in the examples below; every other
    string is given the digest of the empty string. *)
Definition md5_examples (s : string) : string :=
  if decide (s = "A") then "7fc56270e7a70fa81a5935b72eacbe29"
  else if decide (s = "B") then "9d5ed678fe57bcca610140957afab571"
  else if decide (s = "C") then "0d61f8370cad1d412f80b84d143e1257"
  else if decide (s = "k") then "8ce4b16b22b58894aa86c421e8759df3"
  else "d41d8cd98f00b204e9800998ecf8427e".

(** Two keys with one MD5 digest, [faad49866e9498fc1719f5289e7a0269]; they
    differ in their 22nd character. *)
Definition collidingKey1 : string :=
  "TEXTCOLLBYfGiJUETHQ4hAcKSMd5zYpgqf1YRDhkmxHkhPWptrkoyz28wnI9V0aHeAuaKnak".

Definition collidingKey2 : string :=
  "TEXTCOLLBYfGiJUETHQ4hEcKSMd5zYpgqf1YRDhkmxHkhPWptrkoyz28wnI9V0aHeAuaKnak".

(** [{ maxSize: n }] *)
Definition withMaxSize (n : nat) : option CacheOptions :=
  Some {| ttl := None; Types.maxSize := Some n |}.

(** [{ ttl: d }] *)
Definition withTtl (d : Z) : option CacheOptions :=
  Some {| ttl := Some d; Types.maxSize := None |}.

(** [{}] *)
Definition noOptions : CacheOptions := {| ttl := None; Types.maxSize := None |}.

(** The scenario of the specification: insert A, B; read A; insert C; then
    read the three keys. *)
Definition readRenewsScenario : list (op * Z) :=
  [ (OpSet "A" (JStr "a") None, 0); (OpSet "B" (JStr "b") None, 1);
    (OpGet "A", 2); (OpSet "C" (JStr "c") None, 3);
    (OpGet "A", 4); (OpGet "B", 5); (OpGet "C", 6) ].

(** The sequence in which the second read is a [has]. *)
Definition hasRenewsScenario : list (op * Z) :=
  [ (OpSet "A" (JStr "a") None, 0); (OpSet "B" (JStr "b") None, 1);
    (OpHas "A", 2); (OpSet "C" (JStr "c") None, 3);
    (OpGet "A", 4); (OpGet "B", 5); (OpGet "C", 6) ].

(** A neighbour that has expired: A without ttl and B with a ttl of 10 are
    written at time 0; C is written at time 20, when B has expired; then A is
    read. *)
Definition expiredNeighbourScenario : list (op * Z) :=
  [ (OpSet "A" (JStr "a") None, 0); (OpSet "B" (JStr "b") (withTtl 10), 0);
    (OpSet "C" (JStr "c") None, 20); (OpGet "A", 21) ].

(** Operations after a first [set] of the key ["A"]: two more keys are
    written and the keys are read. *)
Definition laterOperations : list (op * Z) :=
  [ (OpSet "B" (JStr "b") None, 1); (OpGet "A", 2);
    (OpSet "C" (JStr "c") None, 3); (OpHas "B", 4); (OpDelete "C", 5) ].

(** A store shared with another application: one item outside the
    namespace ["test:"], one entry inside it and the adapter's index. *)
Definition sharedStorage : gmap string text :=
  <["other:x" := TScalar]>
    (<["test:k" := TEntry (newEntry (JStr "v") None 0)]>
       (<["test:__access_order" := TOrder ["k"]]> ∅)).

(** A directory whose file for the key ["k"] does not hold JSON. *)
Definition corruptDirectory : gmap string text :=
  <["8ce4b16b22b58894aa86c421e8759df3.json" := TInvalid]> ∅.


(** A store whose index holds the JSON text [null]. *)
Definition nullIndexStorage : gmap string text :=
  <["test:k" := TEntry (newEntry (JStr "v") None 0)]>
    (<["test:__access_order" := TNull]> ∅).

(** A function without arguments that counts its calls in the world and
    returns [undefined]. *)
Definition countingUndefined (_ : unit) : M nat jsval :=
  λ calls, (S calls, Ok JUndefined).

(** [JSON.stringify([])], the key of a call without arguments. *)
Definition noArguments (_ : unit) : string := "[]".

(** ** Live entries and consistent states of the volatile adapter *)

(** The entries that are not expired at [now], and the keys of the access
    order that still have such an entry. *)
Definition liveStore (now : Z) (self : Memory.MemoryAdapter)
  : gmap string CacheEntry :=
  filter (λ kv, isExpired kv.2 now = false) (Memory.store self).

Definition liveOrder (now : Z) (self : Memory.MemoryAdapter) : list string :=
  filter (λ k, k ∈ dom (liveStore now self)) (Memory.accessOrder self).

(** The keys of the entries of [l] that are expired at [now]. *)
Definition expiredKeys (now : Z) (l : list (string * CacheEntry))
  : list string :=
  (filter (λ kv, isExpired kv.2 now = true) l).*1.

(** The states the volatile adapter reaches from [new] through operations on
    non-empty keys: the access order lists the keys of the store once each,
    and the store is within the bound. *)
Record consistent (self : Memory.MemoryAdapter) : Prop := mkConsistent {
  order_NoDup : NoDup (Memory.accessOrder self);
  order_dom : ∀ k, k ∈ Memory.accessOrder self ↔ is_Some (Memory.store self !! k);
  order_truthy : ∀ k, k ∈ Memory.accessOrder self → truthyKey k = true;
  within_bound : gt_bound (size (Memory.store self)) (Memory.maxSize self) = false;
  bound_positive : Memory.maxSize self ≠ Fin 0
}.

(** The condition under which [Memory.set] removes the oldest key: the live
    entries fill the bound and [key] is not one of them. *)
Definition setEvicts (now : Z) (self : Memory.MemoryAdapter) (key : string)
  : bool :=
  ge_bound (size (liveStore now self)) (Memory.maxSize self)
  && bool_decide (liveStore now self !! key = None).

(** An operation that does not write under the empty string. *)
Definition truthyOp (o : op) : bool :=
  match o with
  | OpSet key _ _ => truthyKey key
  | _ => true
  end.

(** ** The access order kept by the persistent adapters *)

(** The value that [LocalStorage.getAccessOrder] returns on the store [ls]. *)
Definition storedOrder (self : LocalStorage.LocalStorageAdapter)
  (ls : gmap string text) : json :=
  match ls !! LocalStorage.accessOrderKey self with
  | Some t =>
      if truthyText (Some t)
      then match JSON_parse t with
           | Ok j => j
           | Throw _ => JsArray []
           end
      else JsArray []
  | None => JsArray []
  end.

(** The value that [FileSystem.getAccessOrder] returns on the directory [d]. *)
Definition indexedOrder (d : option (gmap string text)) : json :=
  match d with
  | Some files =>
      match files !! FileSystem.accessOrderFile with
      | Some t =>
          match JSON_parse t with
          | Ok j => j
          | Throw _ => JsArray []
          end
      | None => JsArray []
      end
  | None => JsArray []
  end.

(** The store that [LocalStorage.updateAccessOrder key] leaves when the
    stored order is the array [order0]: the key goes to the tail, and when
    the array is then longer than the bound its head is dropped, with its
    item when the head is truthy. *)
Definition afterUpdateAccessOrder (self : LocalStorage.LocalStorageAdapter)
  (key : string) (order0 : list string) (ls : gmap string text)
  : gmap string text :=
  let order := moveToTail key order0 in
  if gt_bound (length order) (LocalStorage.maxSize self)
  then match order with
       | oldestKey :: rest =>
           <[LocalStorage.accessOrderKey self := TOrder rest]>
             (if truthyKey oldestKey
              then delete (LocalStorage.getFullKey self oldestKey) ls
              else ls)
       | [] => <[LocalStorage.accessOrderKey self := TOrder []]> ls
       end
  else <[LocalStorage.accessOrderKey self := TOrder order]> ls.

(** ** Operations that keep an entry *)

(** An operation that neither removes nor overwrites the entry of [key]. *)
Definition keeps (key : string) (o : op) : bool :=
  match o with
  | OpSet k _ _ => bool_decide (k ≠ key)
  | OpDelete k => bool_decide (k ≠ key)
  | OpClear => false
  | OpGet _ => true
  | OpHas _ => true
  end.

(** An operation of the file adapter that neither removes nor overwrites the
    file of [key]: the keys with the digest of [key] share that file. *)
Definition keepsFile (md5 : string → string) (key : string) (o : op) : bool :=
  match o with
  | OpSet k _ _ => bool_decide (md5 k ≠ md5 key)
  | OpDelete k => bool_decide (md5 k ≠ md5 key)
  | OpClear => false
  | OpGet _ => true
  | OpHas _ => true
  end.

(** No response of a run is an exception. *)
Definition noneRaised (rs : list response) : bool :=
  forallb (λ r, negb (isRaised r)) rs.

(** No entry under [key] holds a value other than [undefined]. *)
Definition onlyUndefined (key : string) (cache : Memory.MemoryAdapter) : Prop :=
  ∀ e, Memory.store cache !! key = Some e → value e = JUndefined.

(** ** Runs of [set] *)

(** One call [set(key, value, options)] at time [wtime]. *)
Record write : Type := mkWrite {
  wkey : string;
  wvalue : jsval;
  woptions : option CacheOptions;
  wtime : Z
}.


(** The calls as operations. *)
Definition asSets (ws : list write) : list (op * Z) :=
  (λ w, (OpSet (wkey w) (wvalue w) (woptions w), wtime w)) <$> ws.

(** The options of the call carry no (truthy) ttl. *)
Definition noTtl (options : option CacheOptions) : bool :=
  match options with
  | Some o =>
      match ttl o with
      | Some d => bool_decide (d = 0)
      | None => true
      end
  | None => true
  end.



(** Three calls of [set] whose first key is the empty string. *)
Definition emptyKeyWrites : list write :=
  [ mkWrite "" (JStr "e") None 0; mkWrite "B" (JStr "b") None 1;
    mkWrite "C" (JStr "c") None 2 ].

(** ** The directory of the file adapter after a run of [set] *)








(** ** Items that a computation on the store leaves alone *)

(** A computation on [localStorage] that writes and removes only items whose
    name satisfies [P]. *)
Definition touchesOnly {A : Type} (P : string → Prop)
  (m : M (gmap string text) A) : Prop :=
  ∀ ls name, ¬ P name → (m ls).1 !! name = ls !! name.

(** The names that an adapter uses: the name of its index and the full keys. *)
Definition ownName (self : LocalStorage.LocalStorageAdapter) (name : string)
  : Prop :=
  name = LocalStorage.accessOrderKey self
  ∨ ∃ key, name = LocalStorage.getFullKey self key.

(** An operation other than [clear]. *)
Definition notClear (o : op) : bool :=
  match o with
  | OpClear => false
  | _ => true
  end.

(** ** Consistent stores of the key/value adapter *)

(** The stores that the key/value adapter reaches from a store without
    items of its own: the index holds the array [order], which lists, each
    once, the keys that have an item, none of them the empty string or the
    name of the index, and is within the bound. *)
Record lsConsistent (self : LocalStorage.LocalStorageAdapter)
  (ls : gmap string text) (order : list string) : Prop := mkLsConsistent {
  ls_index : asArray (storedOrder self ls) = Ok order;
  ls_NoDup : NoDup order;
  ls_items :
    ∀ key,
      LocalStorage.getFullKey self key ≠ LocalStorage.accessOrderKey self →
      key ∈ order ↔ is_Some (ls !! LocalStorage.getFullKey self key);
  ls_keys :
    ∀ key,
      key ∈ order →
      truthyKey key = true
      ∧ LocalStorage.getFullKey self key ≠ LocalStorage.accessOrderKey self;
  ls_within : gt_bound (length order) (LocalStorage.maxSize self) = false
}.

(** An operation on a key other than the name of the index that does not
    write under the empty string. *)
Definition plainOp (o : op) : bool :=
  match o with
  | OpSet key _ _ => truthyKey key && bool_decide (key ≠ "__access_order")
  | OpGet key => bool_decide (key ≠ "__access_order")
  | OpDelete key => bool_decide (key ≠ "__access_order")
  | OpHas key => bool_decide (key ≠ "__access_order")
  | OpClear => true
  end.

(** ** Runs of the key/value adapter on a store with a quota *)

(** One operation of the key/value adapter. *)
Definition quotaStep (accepts : gmap string text → string → text → bool)
  (self : LocalStorage.LocalStorageAdapter)
  (o : op) (now : Z) (ls : gmap string text) : gmap string text * response :=
  match o with
  | OpGet key => respond Value (Quota.get accepts self key now ls)
  | OpSet key v options =>
      respond (λ _, Done) (Quota.set accepts self key v options now ls)
  | OpDelete key => respond (λ _, Done) (Quota.delete accepts self key ls)
  | OpClear => respond (λ _, Done) (Quota.clear self ls)
  | OpHas key => respond Boolean (Quota.has accepts self key now ls)
  end.

Fixpoint runQuota (accepts : gmap string text → string → text → bool)
  (self : LocalStorage.LocalStorageAdapter)
  (ops : list (op * Z)) (ls : gmap string text)
  : gmap string text * list response :=
  match ops with
  | [] => (ls, [])
  | (o, now) :: rest =>
      let x := quotaStep accepts self o now ls in
      let y := runQuota accepts self rest x.1 in
      (y.1, x.2 :: y.2)
  end.

(** A store that takes at most [n] items. *)
Definition roomFor (n : nat) (ls : gmap string text) (k : string) (t : text)
  : bool :=
  bool_decide (size (<[k := t]> ls) ≤ n)%nat.

(** A store that takes every write. *)
Definition unlimited (ls : gmap string text) (k : string) (t : text) : bool :=
  true.

(** The index of the key/value adapter is absent, unparseable or an
    array. *)
Definition indexIsArray (self : LocalStorage.LocalStorageAdapter)
  (ls : gmap string text) : Prop :=
  ∃ order, asArray (storedOrder self ls) = Ok order.

(** A computation on the store that leaves an array in the index, raises
    only exceptions that satisfy [E], and returns only values that satisfy
    [Q], whenever it starts with an array in the index. *)
Definition keepsIndex (self : LocalStorage.LocalStorageAdapter)
  (E : exn → Prop) {A : Type} (m : M (gmap string text) A) (Q : A → Prop)
  : Prop :=
  ∀ ls, indexIsArray self ls →
        indexIsArray self (m ls).1
        ∧ match (m ls).2 with
          | Ok a => Q a
          | Throw e => E e
          end.

(** The exception of a store that is full. *)
Definition isQuota (e : exn) : Prop := e = QuotaExceededError.

(** The exception that a response carries, if any, is that of a full
    store. *)
Definition quotaOnly (r : response) : Prop :=
  ∀ e, r = Raised e → e = QuotaExceededError.

(** ** Functions to memoize *)

(** A function that counts its calls in the world and returns its
    argument, and one that counts its calls and throws. *)
Definition countingEcho (s : string) : M nat jsval :=
  λ calls, (S calls, Ok (JStr s)).

Definition countingFailure (_ : string) : M nat jsval :=
  λ calls, (S calls, Throw TypeError).

(** [{ ttl: d }] as the options of [memoize]. *)
Definition ttlOnly (d : Z) : CacheOptions :=
  {| ttl := Some d; Types.maxSize := None |}.

(** ** Listeners of the cache *)

(** The listeners registered for events of [type], in the order in which
    they are called. *)
Definition listenersOf {S L : Type} (self : Cache.Cache S L)
  (type : Cache.CacheEventType) : list L :=
  default [] (Cache.eventListeners self !! type).

(** A call of [addEventListener] or of [removeEventListener]. *)
Inductive registration (L : Type) : Type :=
| Listen (type : Cache.CacheEventType) (listener : L)
| Unlisten (type : Cache.CacheEventType) (listener : L).

Arguments Listen {L} type listener.
Arguments Unlisten {L} type listener.

(** The calls made one after the other. *)
Definition register {S L : Type} `{EqDecision L} (acts : list (registration L))
  (self : Cache.Cache S L) : Cache.Cache S L :=
  foldl (λ c act,
           match act with
           | Listen type listener => Cache.addEventListener type listener c
           | Unlisten type listener => Cache.removeEventListener type listener c
           end) self acts.

(** Whether the last of the calls that name [type] and [listener] is one of
    [addEventListener]. *)
Definition listening {L : Type} `{EqDecision L} (type : Cache.CacheEventType)
  (listener : L) (acts : list (registration L)) : bool :=
  foldl (λ b act,
           match act with
           | Listen t l =>
               if decide (t = type ∧ l = listener) then true else b
           | Unlisten t l =>
               if decide (t = type ∧ l = listener) then false else b
           end) false acts.

(** A listener that appends the event it is called with, and its own name,
    to a log. *)
Definition recorder {L : Type} (listener : L) (event : Cache.CacheEvent)
  : M (list (L * Cache.CacheEvent)) unit :=
  λ log, (log ++ [(listener, event)], Ok tt).

(** The event of a call of the cache that was answered with [x], when the
    event was built at time [now']. *)
Definition eventOf (r : Cache.request) (now' : Z) (x : response)
  : option Cache.CacheEvent :=
  match r, x with
  | Cache.CallGet key, Value v =>
      if decide (v = JUndefined) then None
      else Some {| Cache.type := Cache.OnGet; Cache.key := Some key;
                   Cache.value := Some v; Cache.timestamp := now' |}
  | Cache.CallSet key v _, Done =>
      Some {| Cache.type := Cache.OnSet; Cache.key := Some key;
              Cache.value := Some v; Cache.timestamp := now' |}
  | Cache.CallDelete key, Done =>
      Some {| Cache.type := Cache.OnDelete; Cache.key := Some key;
              Cache.value := None; Cache.timestamp := now' |}
  | Cache.CallClear, Done =>
      Some {| Cache.type := Cache.OnClear; Cache.key := None;
              Cache.value := None; Cache.timestamp := now' |}
  | _, _ => None
  end.

(** The calls of listeners that the event of a call of the cache leads to. *)
Definition deliveries {S L : Type} (self : Cache.Cache S L)
  (r : Cache.request * Z * Z) (x : response) : list (L * Cache.CacheEvent) :=
  match eventOf r.1.1 r.2 x with
  | Some event => (λ l, (l, event)) <$> listenersOf self (Cache.type event)
  | None => []
  end.


(** A listener that appends the event to the log, unless its name is the
    empty string: that one throws. *)
Definition failingRecorder (listener : string) (event : Cache.CacheEvent)
  : M (list (string * Cache.CacheEvent)) unit :=
  if truthyKey listener then recorder listener event else throw TypeError.

(** The expiry of the entry that [set] of the cache writes at time [now]:
    the ttl of the call when the call has that property, [undefined]
    included, and the ttl of the constructor otherwise. *)
Definition mergedExpiry (constructorOptions : Cache.Options)
  (callOptions : option Cache.Options) (now : Z) : option Z :=
  let ofTtl d := if decide (d = 0) then None else Some (now + d) in
  match match callOptions with
        | Some o => Cache.ttl o
        | None => Cache.Missing
        end with
  | Cache.Present d => ofTtl d
  | Cache.Undefined => None
  | Cache.Missing =>
      match Cache.ttl constructorOptions with
      | Cache.Present d => ofTtl d
      | _ => None
      end
  end.



(** ** What [cleanup] of the key/value adapter does with an item *)



(** A total function that counts its calls in the world: the [n]th call
    leaves the counter at [n]. *)
Definition counting {A : Type} (f : A → jsval) (a : A) : M nat jsval :=
  λ calls, (S calls, Ok (f a)).

(** The keys of the calls of a history. *)
Definition keysOf {A : Type} (keyResolver : A → string)
  (history : list (A * Z * Z)) : list string :=
  (λ x, keyResolver x.1.1) <$> history.

(** A cache without bound that holds an entry that never expires, with a
    value other than [undefined], for exactly the keys [seen]. *)
Record holdsKeys (seen : gset string) (cache : Memory.MemoryAdapter)
  : Prop := mkHoldsKeys {
  holds_unbounded : Memory.maxSize cache = Infinity;
  holds_seen : ∀ k, k ∈ seen ↔ is_Some (Memory.store cache !! k);
  holds_entries :
    ∀ k e, Memory.store cache !! k = Some e →
           expiry e = None ∧ value e ≠ JUndefined
}.

(** A volatile adapter with the bound [n] whose oldest key is the empty
    string: the store holds entries that never expire for the empty string
    and for the keys [ks], from the oldest to the most recent. *)
Record headedByEmpty (n : nat) (ks : list string) (self : Memory.MemoryAdapter)
  : Prop := mkHeadedByEmpty {
  headed_bound : Memory.maxSize self = Fin n;
  headed_order : Memory.accessOrder self = "" :: ks;
  headed_NoDup : NoDup ("" :: ks);
  headed_dom : ∀ k, k ∈ "" :: ks ↔ is_Some (Memory.store self !! k);
  headed_live : ∀ k e, Memory.store self !! k = Some e → expiry e = None
}.

(** * Properties *)

(** ** The scenario "insert A, B; read A; insert C" on the three adapters *)

Lemma memory_read_renews_recency :
  runMemory readRenewsScenario (Memory.new (withMaxSize 2)) =
  Some ({| Memory.store :=
             <["A" := newEntry (JStr "a") None 0]>
               (<["C" := newEntry (JStr "c") None 3]> ∅);
           Memory.maxSize := Fin 2;
           Memory.accessOrder := ["A"; "C"] |},
        [Done; Done; Value (JStr "a"); Done;
         Value (JStr "a"); Value JUndefined; Value (JStr "c")]).
Proof. vm_compute. reflexivity. Qed.

Lemma localStorage_read_renews_recency :
  (runLocalStorage (LocalStorage.new (withMaxSize 2) (Some "test:"))
     readRenewsScenario ∅).2 =
  [Done; Done; Value (JStr "a"); Done;
   Value (JStr "a"); Value JUndefined; Value (JStr "c")].
Proof. vm_compute. reflexivity. Qed.

(** C1, on the file adapter with [maxSize = 2]: after set(A), set(B), a hit
    on get(A) and set(C), the key A is the one that has been evicted and B is
    still retrievable; the read of A has not renewed its recency. *)
Theorem fileSystem_read_does_not_renew_recency :
  (runFileSystem md5_examples (FileSystem.new (withMaxSize 2))
     readRenewsScenario None).2 =
  [Done; Done; Value (JStr "a"); Done;
   Value JUndefined; Value (JStr "b"); Value (JStr "c")].
Proof. vm_compute. reflexivity. Qed.

(** In the volatile adapter a hit on [has] leaves the order as it is: after
    set(A), set(B), has(A), set(C) the key A is evicted. *)
Lemma memory_has_does_not_renew_recency :
  option_map snd (runMemory hasRenewsScenario (Memory.new (withMaxSize 2))) =
  Some [Done; Done; Boolean true; Done;
        Value JUndefined; Value (JStr "b"); Value (JStr "c")].
Proof. vm_compute. reflexivity. Qed.

Lemma localStorage_has_renews_recency :
  (runLocalStorage (LocalStorage.new (withMaxSize 2) (Some "test:"))
     hasRenewsScenario ∅).2 =
  [Done; Done; Boolean true; Done;
   Value (JStr "a"); Value JUndefined; Value (JStr "c")].
Proof. vm_compute. reflexivity. Qed.

(** C2: on one and the same sequence of operations, with the same keys,
    values, options and times, the file adapter and the volatile adapter
    return different results. *)
Theorem fileSystem_differs_from_memory :
  ∃ self rs,
    runMemory readRenewsScenario (Memory.new (withMaxSize 2)) = Some (self, rs)
    ∧ (runFileSystem md5_examples (FileSystem.new (withMaxSize 2))
         readRenewsScenario None).2 ≠ rs.
Proof.
  eexists _, _. split.
  - vm_compute. reflexivity.
  - vm_compute. discriminate.
Qed.

(** The key/value adapter differs from the volatile one too, on the
    sequence whose read is a [has]. *)
Lemma localStorage_differs_from_memory :
  ∃ self rs,
    runMemory hasRenewsScenario (Memory.new (withMaxSize 2)) = Some (self, rs)
    ∧ (runLocalStorage (LocalStorage.new (withMaxSize 2) (Some "test:"))
         hasRenewsScenario ∅).2 ≠ rs.
Proof.
  eexists _, _. split.
  - vm_compute. reflexivity.
  - vm_compute. discriminate.
Qed.

(** ** [clear] of the key/value adapter *)

Lemma localStorage_removeAll_returns keys ls :
  ∃ ls', LocalStorage.removeAll keys ls = (ls', Ok tt).
Proof.
  revert ls. induction keys as [|key keys IH]; intros ls; cbn.
  - eexists. reflexivity.
  - unfold bind, LocalStorage.removeItem. apply IH.
Qed.

Lemma localStorage_clear_empties_the_store self ls :
  LocalStorage.clear self ls = (∅, Ok tt).
Proof.
  unfold LocalStorage.clear, LocalStorage.storageKeys, bind.
  match goal with
  | |- context [LocalStorage.removeAll ?keys ls] =>
      destruct (localStorage_removeAll_returns keys ls) as [ls' ->]
  end.
  reflexivity.
Qed.

(** C8, on a store that also holds the item ["other:x"] of another
    application: [clear()] of the adapter with prefix ["test:"] removes that
    item, whose name does not begin with the prefix. *)
Theorem localStorage_clear_removes_foreign_item :
  String.prefix "test:" "other:x" = false
  ∧ sharedStorage !! "other:x" = Some TScalar
  ∧ (LocalStorage.clear (LocalStorage.new None (Some "test:")) sharedStorage).1
      !! "other:x" = None.
Proof.
  split; [reflexivity|]. split; [vm_compute; reflexivity|].
  rewrite localStorage_clear_empties_the_store. apply lookup_empty.
Qed.

(** ** Auxiliary facts on lists of keys *)

Lemma elem_of_without key order k :
  k ∈ without key order ↔ k ∈ order ∧ k ≠ key.
Proof. unfold without. rewrite list_elem_of_filter. tauto. Qed.

Lemma without_not_elem key order : key ∉ order → without key order = order.
Proof.
  unfold without. induction order as [|k order IH]; intros Hk; [done|].
  rewrite not_elem_of_cons in Hk. destruct Hk as [Hne Hk].
  rewrite filter_cons_True by congruence. by rewrite IH.
Qed.

Lemma NoDup_without key order : NoDup order → NoDup (without key order).
Proof. apply NoDup_filter. Qed.

Lemma NoDup_moveToTail key order : NoDup order → NoDup (moveToTail key order).
Proof.
  intros Hnd. unfold moveToTail. apply NoDup_app. split_and!.
  - by apply NoDup_without.
  - intros k Hk Hk'. apply elem_of_without in Hk.
    apply list_elem_of_singleton in Hk'. tauto.
  - apply NoDup_singleton.
Qed.

Lemma elem_of_moveToTail key order k :
  k ∈ moveToTail key order ↔ k ∈ order ∨ k = key.
Proof.
  unfold moveToTail. rewrite elem_of_app, elem_of_without, list_elem_of_singleton.
  destruct (decide (k = key)); tauto.
Qed.

Lemma gt_bound_Infinity n : gt_bound n Infinity = false.
Proof. reflexivity. Qed.

Lemma maxSizeOrInfinity_positive options : maxSizeOrInfinity options ≠ Fin 0.
Proof.
  unfold maxSizeOrInfinity. destruct options as [[? [[|n]|]]|]; discriminate.
Qed.

Lemma maxSizeOrInfinity_zero d :
  maxSizeOrInfinity (Some {| ttl := d; Types.maxSize := Some 0%nat |}) = Infinity.
Proof. reflexivity. Qed.

(** ** The sweep and the eviction loop of [Memory.cleanup] *)

Lemma elem_of_expiredKeys_map now (m : gmap string CacheEntry) k :
  k ∈ expiredKeys now (map_to_list m)
  ↔ ∃ e, m !! k = Some e ∧ isExpired e now = true.
Proof.
  unfold expiredKeys. rewrite list_elem_of_fmap. split.
  - intros [[k' e] [-> [Hexp Hin]%list_elem_of_filter]].
    apply elem_of_map_to_list in Hin. eauto.
  - intros [e [Hk Hexp]]. exists (k, e). split; [done|].
    apply list_elem_of_filter. split; [done|]. by apply elem_of_map_to_list.
Qed.

Lemma expiredKeys_nil now : expiredKeys now [] = [].
Proof. reflexivity. Qed.

Lemma expiredKeys_cons now k e l :
  expiredKeys now ((k, e) :: l) =
  if isExpired e now then k :: expiredKeys now l else expiredKeys now l.
Proof.
  unfold expiredKeys. destruct (isExpired e now) eqn:Hexp.
  - rewrite filter_cons_True by done. reflexivity.
  - rewrite filter_cons_False by (cbn; congruence). reflexivity.
Qed.

Lemma sweep_fold_store now l ma oa k :
  (foldl (Memory.sweepStep now) (ma, oa) l).1 !! k =
  if decide (k ∈ expiredKeys now l) then None else ma !! k.
Proof.
  revert ma oa. induction l as [|[k0 e0] l IH]; intros ma oa.
  - rewrite expiredKeys_nil, decide_False; [done|]. apply not_elem_of_nil.
  - rewrite expiredKeys_cons. cbn [foldl]. unfold Memory.sweepStep at 2.
    cbn [fst snd]. destruct (isExpired e0 now) eqn:Hexp.
    + rewrite IH. destruct (decide (k = k0)) as [->|Hne].
      * rewrite (decide_True (P := k0 ∈ k0 :: _)) by apply list_elem_of_here.
        case_decide; [done|]. apply lookup_delete_eq.
      * rewrite lookup_delete_ne by done.
        destruct (decide (k ∈ expiredKeys now l)) as [Hin|Hin].
        -- rewrite decide_True; [done|]. by apply list_elem_of_further.
        -- rewrite decide_False; [done|]. rewrite not_elem_of_cons. done.
    + apply IH.
Qed.

Lemma sweep_fold_order now l ma oa :
  (foldl (Memory.sweepStep now) (ma, oa) l).2 =
  filter (λ k, k ∉ expiredKeys now l) oa.
Proof.
  revert ma oa. induction l as [|[k0 e0] l IH]; intros ma oa.
  - rewrite expiredKeys_nil. cbn [foldl snd]. symmetry.
    induction oa as [|k oa IHoa]; [done|].
    rewrite filter_cons_True by apply not_elem_of_nil. by rewrite IHoa.
  - rewrite expiredKeys_cons. cbn [foldl]. unfold Memory.sweepStep at 2.
    cbn [fst snd]. destruct (isExpired e0 now) eqn:Hexp.
    + rewrite IH. unfold without. rewrite list_filter_filter.
      apply list_filter_iff. intros k. rewrite not_elem_of_cons. tauto.
    + apply IH.
Qed.

Lemma sweepExpired_store now m order :
  (Memory.sweepExpired now m order).1 =
  filter (λ kv, isExpired kv.2 now = false) m.
Proof.
  apply map_eq. intros k. unfold Memory.sweepExpired.
  rewrite sweep_fold_store. case_decide as Hk.
  - apply elem_of_expiredKeys_map in Hk as [e [Hm Hexp]]. symmetry.
    apply map_lookup_filter_None. right. intros e' He'. cbn.
    rewrite Hm in He'. injection He' as <-. congruence.
  - destruct (m !! k) as [e|] eqn:Hm.
    + symmetry. apply map_lookup_filter_Some. split; [done|]. cbn.
      destruct (isExpired e now) eqn:Hexp; [|done]. exfalso. apply Hk.
      apply elem_of_expiredKeys_map. eauto.
    + symmetry. apply map_lookup_filter_None. by left.
Qed.

Lemma sweepExpired_order now m order :
  (Memory.sweepExpired now m order).2 =
  filter (λ k, k ∉ expiredKeys now (map_to_list m)) order.
Proof. unfold Memory.sweepExpired. apply sweep_fold_order. Qed.

Lemma evictLoop_within_bound b (m : gmap string CacheEntry) order :
  gt_bound (size m) b = false → Memory.evictLoop b m order = Some (m, order).
Proof. intros Hb. destruct order as [|k order]; cbn; [done|]. by rewrite Hb. Qed.

Lemma cleanup_within_bound now self :
  gt_bound (size (Memory.store self)) (Memory.maxSize self) = false →
  Memory.cleanup now self =
  Some {| Memory.store := liveStore now self;
          Memory.maxSize := Memory.maxSize self;
          Memory.accessOrder := liveOrder now self |}.
Proof.
  intros Hb. unfold Memory.cleanup.
  rewrite sweepExpired_store, sweepExpired_order. fold (liveStore now self).
  rewrite evictLoop_within_bound.
  - f_equal. f_equal. unfold liveOrder. rewrite list_filter_filter.
    apply list_filter_iff. intros k.
    rewrite elem_of_expiredKeys_map, !elem_of_dom. unfold liveStore. split.
    + intros [Hnot [e He]]. exists e. apply map_lookup_filter_Some.
      split; [done|]. cbn. destruct (isExpired e now) eqn:Hexp; [|done].
      exfalso. eauto.
    + intros [e [He Hlive]%map_lookup_filter_Some]. cbn in Hlive. split; [|eauto].
      intros [e' [He' Hexp]]. congruence.
  - destruct (Memory.maxSize self) as [n|]; [|done]. cbn in *.
    apply bool_decide_eq_false in Hb. apply bool_decide_eq_false.
    pose proof (map_subseteq_size _ _ (map_filter_subseteq
      (λ kv : string * CacheEntry, isExpired kv.2 now = false) (Memory.store self))).
    unfold liveStore. lia.
Qed.

(** ** [Memory.set] on consistent states *)

Lemma liveStore_lookup now self k e :
  liveStore now self !! k = Some e
  ↔ Memory.store self !! k = Some e ∧ isExpired e now = false.
Proof. unfold liveStore. by rewrite map_lookup_filter_Some. Qed.

Lemma liveStore_size now self :
  (size (liveStore now self) ≤ size (Memory.store self))%nat.
Proof. apply map_subseteq_size, map_filter_subseteq. Qed.

Lemma elem_of_liveOrder now self k :
  consistent self →
  k ∈ liveOrder now self ↔ is_Some (liveStore now self !! k).
Proof.
  intros Hc. unfold liveOrder. rewrite list_elem_of_filter, elem_of_dom.
  split; [tauto|]. intros Hk. split; [done|].
  apply (order_dom _ Hc). destruct Hk as [e He].
  apply liveStore_lookup in He as [He _]. eauto.
Qed.

Lemma NoDup_liveOrder now self : consistent self → NoDup (liveOrder now self).
Proof. intros Hc. apply NoDup_filter, (order_NoDup _ Hc). Qed.

Lemma memory_set_within_bound key v options now self :
  gt_bound (size (Memory.store self)) (Memory.maxSize self) = false →
  Memory.set key v options now self =
  Some (Memory.updateAccessOrder key
          (let s2 := Memory.evictOldest key
                       {| Memory.store := liveStore now self;
                          Memory.maxSize := Memory.maxSize self;
                          Memory.accessOrder := liveOrder now self |} in
           {| Memory.store := <[key := newEntry v options now]> (Memory.store s2);
              Memory.maxSize := Memory.maxSize s2;
              Memory.accessOrder := Memory.accessOrder s2 |})).
Proof. intros Hb. unfold Memory.set. by rewrite cleanup_within_bound. Qed.

Lemma memory_set_consistent key v options now self :
  consistent self →
  ∃ self',
    Memory.set key v options now self = Some self'
    ∧ Memory.maxSize self' = Memory.maxSize self
    ∧ if setEvicts now self key
      then ∃ oldest rest,
             liveOrder now self = oldest :: rest
             ∧ Memory.store self' =
                 <[key := newEntry v options now]>
                   (delete oldest (liveStore now self))
             ∧ Memory.accessOrder self' = rest ++ [key]
      else Memory.store self' =
             <[key := newEntry v options now]> (liveStore now self)
           ∧ Memory.accessOrder self' = moveToTail key (liveOrder now self).
Proof.
  intros Hc. rewrite memory_set_within_bound by apply (within_bound _ Hc).
  eexists. split; [reflexivity|]. unfold Memory.evictOldest, setEvicts. cbn.
  destruct (ge_bound (size (liveStore now self)) (Memory.maxSize self)
            && bool_decide (liveStore now self !! key = None)) eqn:Hcond;
    cbn; [|done].
  apply andb_true_iff in Hcond as [Hge Hnew].
  apply bool_decide_eq_true in Hnew.
  destruct (liveOrder now self) as [|oldest rest] eqn:Horder.
  - exfalso. destruct (Memory.maxSize self) as [n|] eqn:Hn; [|done].
    cbn in Hge. apply bool_decide_eq_true in Hge.
    assert (n ≠ 0%nat) by (intros ->; by apply (bound_positive _ Hc)).
    destruct (map_size_ne_0_lookup_1 (liveStore now self)) as [k Hk]; [lia|].
    apply (elem_of_liveOrder now self k Hc) in Hk. rewrite Horder in Hk.
    by apply not_elem_of_nil in Hk.
  - assert (Holdest : oldest ∈ liveOrder now self)
      by (rewrite Horder; apply list_elem_of_here).
    assert (truthyKey oldest = true) as ->.
    { apply (order_truthy _ Hc). unfold liveOrder in Holdest.
      by apply list_elem_of_filter in Holdest as [_ ?]. }
    cbn. split; [done|]. exists oldest, rest. split_and!; [done..|].
    f_equal. apply without_not_elem.
    intros Hin. assert (Hk : key ∈ liveOrder now self)
      by (rewrite Horder; by apply list_elem_of_further).
    apply (elem_of_liveOrder now self key Hc) in Hk as [e He]. congruence.
Qed.

Lemma consistent_new options : consistent (Memory.new options).
Proof.
  split; cbn.
  - apply NoDup_nil_2.
  - intros k. rewrite lookup_empty, elem_of_nil. split; [done|]. by intros [? ?].
  - intros k Hk. by apply elem_of_nil in Hk.
  - rewrite map_size_empty. by destruct (maxSizeOrInfinity options) as [[|n]|].
  - apply maxSizeOrInfinity_positive.
Qed.

Lemma consistent_set key v options now self self' :
  consistent self → truthyKey key = true →
  Memory.set key v options now self = Some self' → consistent self'.
Proof.
  intros Hc Hkey Hset.
  destruct (memory_set_consistent key v options now self Hc)
    as [s [Hs [Hmax Hcase]]].
  rewrite Hs in Hset. injection Hset as <-.
  pose proof (NoDup_liveOrder now self Hc) as Hnd.
  pose proof (liveStore_size now self) as Hsize.
  pose proof (within_bound _ Hc) as Hb.
  unfold setEvicts in Hcase.
  destruct (ge_bound (size (liveStore now self)) (Memory.maxSize self)
            && bool_decide (liveStore now self !! key = None)) eqn:Hcond.
  - destruct Hcase as [oldest [rest [Horder [Hstore Hacc]]]].
    apply andb_true_iff in Hcond as [Hge Hnew].
    apply bool_decide_eq_true in Hnew.
    rewrite Horder in Hnd. apply NoDup_cons in Hnd as [Hnotin Hnd].
    assert (Hin : ∀ k, k ∈ rest
                       ↔ is_Some (liveStore now self !! k) ∧ k ≠ oldest).
    { intros k. rewrite <- (elem_of_liveOrder now self k Hc), Horder, elem_of_cons.
      split; [intros ?; split; [tauto|congruence]|tauto]. }
    assert (Hlive : is_Some (liveStore now self !! oldest)).
    { apply (elem_of_liveOrder now self oldest Hc). rewrite Horder.
      apply list_elem_of_here. }
    split; rewrite ?Hstore, ?Hacc, ?Hmax.
    + apply NoDup_app. split_and!; [done| |apply NoDup_singleton].
      intros k Hk ->%list_elem_of_singleton. apply Hin in Hk as [[e He] _].
      congruence.
    + intros k. rewrite elem_of_app, list_elem_of_singleton, Hin.
      destruct (decide (k = key)) as [->|Hne].
      * rewrite lookup_insert_eq. split; [eauto|tauto].
      * rewrite lookup_insert_ne by done. destruct (decide (k = oldest)) as [->|Hne'].
        -- rewrite lookup_delete_eq. split; [tauto|]. by intros [? ?].
        -- rewrite lookup_delete_ne by done. tauto.
    + intros k [Hk| ->%list_elem_of_singleton]%elem_of_app; [|done].
      apply (order_truthy _ Hc). assert (Hk' : k ∈ liveOrder now self)
        by (rewrite Horder; by apply list_elem_of_further).
      unfold liveOrder in Hk'. by apply list_elem_of_filter in Hk' as [_ ?].
    + destruct (Memory.maxSize self) as [n|]; [|done]. cbn in *.
      apply bool_decide_eq_false in Hb. apply bool_decide_eq_false.
      rewrite map_size_insert_None by (rewrite lookup_delete_ne; [done|];
        intros ->; destruct Hlive; congruence).
      rewrite map_size_delete_Some by done.
      assert (size (liveStore now self) ≠ 0)%nat; [|lia].
      intros H0. apply map_size_empty_inv in H0. rewrite H0 in Hlive.
      rewrite lookup_empty in Hlive. by destruct Hlive.
    + apply (bound_positive _ Hc).
  - destruct Hcase as [Hstore Hacc].
    split; rewrite ?Hstore, ?Hacc, ?Hmax.
    + by apply NoDup_moveToTail.
    + intros k. rewrite elem_of_moveToTail, (elem_of_liveOrder now self k Hc).
      destruct (decide (k = key)) as [->|Hne].
      * rewrite lookup_insert_eq. split; [eauto|tauto].
      * rewrite lookup_insert_ne by done. tauto.
    + intros k [Hk| ->]%elem_of_moveToTail; [|done].
      apply (order_truthy _ Hc). unfold liveOrder in Hk.
      by apply list_elem_of_filter in Hk as [_ ?].
    + destruct (Memory.maxSize self) as [n|]; [|done]. cbn in *.
      apply bool_decide_eq_false in Hb. apply bool_decide_eq_false.
      apply andb_false_iff in Hcond as [Hge|Hold].
      * apply bool_decide_eq_false in Hge.
        pose proof (map_size_insert key (newEntry v options now)
                      (liveStore now self)) as Hins.
        destruct (liveStore now self !! key); cbn in Hins; lia.
      * apply bool_decide_eq_false in Hold.
        destruct (liveStore now self !! key) as [e|] eqn:He; [|done].
        rewrite map_size_insert_Some by eauto. lia.
    + apply (bound_positive _ Hc).
Qed.

(** ** The state-and-exception monad *)

Lemma bind_Ok_inv {S A B : Type} (m : M S A) (k : A → M S B) s s' b :
  bind m k s = (s', Ok b) → ∃ s1 a, m s = (s1, Ok a) ∧ k a s1 = (s', Ok b).
Proof.
  unfold bind. destruct (m s) as [s1 [a|e]]; intros H; [eauto|discriminate].
Qed.

Lemma bind_Ok {S A B : Type} (m : M S A) (k : A → M S B) s s1 a :
  m s = (s1, Ok a) → bind m k s = k a s1.
Proof. unfold bind. by intros ->. Qed.

Lemma bind_Throw {S A B : Type} (m : M S A) (k : A → M S B) s s1 e :
  m s = (s1, Throw e) → bind m k s = (s1, Throw e).
Proof. unfold bind. by intros ->. Qed.

Lemma tryCatch_Ok {S A : Type} (m h : M S A) s s1 a :
  m s = (s1, Ok a) → tryCatch m h s = (s1, Ok a).
Proof. unfold tryCatch. by intros ->. Qed.

Lemma tryCatch_Throw {S A : Type} (m h : M S A) s s1 e :
  m s = (s1, Throw e) → tryCatch m h s = h s1.
Proof. unfold tryCatch. by intros ->. Qed.

Lemma tryCatch_Ok_inv {S A : Type} (m h : M S A) s s' a :
  tryCatch m h s = (s', Ok a) →
  m s = (s', Ok a) ∨ ∃ s1 e, m s = (s1, Throw e) ∧ h s1 = (s', Ok a).
Proof.
  unfold tryCatch. destruct (m s) as [s1 [a'|e]]; intros H; [by left|].
  right. eauto.
Qed.

(** ** The access order document of the key/value adapter *)

Lemma asArray_Throw j e : asArray j = Throw e → e = TypeError.
Proof. destruct j; cbn; congruence. Qed.

Lemma ls_getAccessOrder_eq self ls :
  LocalStorage.getAccessOrder self ls = (ls, Ok (storedOrder self ls)).
Proof.
  unfold LocalStorage.getAccessOrder, storedOrder, tryCatch, bind,
    LocalStorage.getItem, lift, ret.
  destruct (ls !! LocalStorage.accessOrderKey self) as [t|]; [|done].
  destruct t; cbn; done.
Qed.

Lemma ls_removeFromStorage_eq self key ls :
  LocalStorage.removeFromStorage self key ls =
  let ls1 := delete (LocalStorage.getFullKey self key) ls in
  match asArray (storedOrder self ls1) with
  | Ok order =>
      (<[LocalStorage.accessOrderKey self := TOrder (without key order)]> ls1,
       Ok tt)
  | Throw e => (ls1, Throw e)
  end.
Proof.
  unfold LocalStorage.removeFromStorage.
  erewrite bind_Ok by reflexivity.
  erewrite bind_Ok by apply ls_getAccessOrder_eq.
  cbn. unfold bind, lift.
  destruct (asArray _); reflexivity.
Qed.

Lemma ls_updateAccessOrder_eq self key ls :
  LocalStorage.updateAccessOrder self key ls =
  match asArray (storedOrder self ls) with
  | Ok order0 =>
      let order := moveToTail key order0 in
      if gt_bound (length order) (LocalStorage.maxSize self)
      then match order with
           | oldestKey :: rest =>
               bind (if truthyKey oldestKey
                     then LocalStorage.removeFromStorage self oldestKey
                     else ret tt)
                 (λ _, LocalStorage.setAccessOrder self rest) ls
           | [] => LocalStorage.setAccessOrder self [] ls
           end
      else LocalStorage.setAccessOrder self order ls
  | Throw e => (ls, Throw e)
  end.
Proof.
  unfold LocalStorage.updateAccessOrder.
  erewrite bind_Ok by apply ls_getAccessOrder_eq.
  unfold bind at 1, lift.
  destruct (asArray _) as [order0|e]; [|reflexivity]. cbv zeta.
  destruct (gt_bound _ _); [|reflexivity].
  destruct (moveToTail key order0); reflexivity.
Qed.

Lemma storedOrder_insert_order self order ls :
  storedOrder self (<[LocalStorage.accessOrderKey self := TOrder order]> ls)
  = JsArray order.
Proof. unfold storedOrder. by rewrite lookup_insert_eq. Qed.

Lemma storedOrder_insert_ne self k t ls :
  k ≠ LocalStorage.accessOrderKey self →
  storedOrder self (<[k := t]> ls) = storedOrder self ls.
Proof. intros Hne. unfold storedOrder. by rewrite lookup_insert_ne. Qed.

Lemma storedOrder_delete_ne self k ls :
  k ≠ LocalStorage.accessOrderKey self →
  storedOrder self (delete k ls) = storedOrder self ls.
Proof. intros Hne. unfold storedOrder. by rewrite lookup_delete_ne. Qed.

Lemma storedOrder_delete self k ls order :
  asArray (storedOrder self ls) = Ok order →
  ∃ order', asArray (storedOrder self (delete k ls)) = Ok order'.
Proof.
  intros Hok. destruct (decide (k = LocalStorage.accessOrderKey self)) as [->|Hne].
  - exists []. unfold storedOrder. by rewrite lookup_delete_eq.
  - exists order. by rewrite storedOrder_delete_ne.
Qed.

Lemma storedOrder_entry self e ls :
  ls !! LocalStorage.accessOrderKey self = Some (TEntry e) →
  asArray (storedOrder self ls) = Throw TypeError.
Proof. intros H. unfold storedOrder. by rewrite H. Qed.

Lemma ls_removeFromStorage_spec self key ls order :
  asArray (storedOrder self ls) = Ok order →
  ∃ order',
    asArray (storedOrder self (delete (LocalStorage.getFullKey self key) ls))
      = Ok order'
    ∧ LocalStorage.removeFromStorage self key ls =
      (<[LocalStorage.accessOrderKey self := TOrder (without key order')]>
         (delete (LocalStorage.getFullKey self key) ls), Ok tt).
Proof.
  intros Hok. rewrite ls_removeFromStorage_eq. cbv zeta.
  destruct (storedOrder_delete self (LocalStorage.getFullKey self key) ls order Hok)
    as [order' Hok'].
  exists order'. by rewrite Hok'.
Qed.

Lemma ls_updateAccessOrder_spec self key ls order0 :
  asArray (storedOrder self ls) = Ok order0 →
  LocalStorage.updateAccessOrder self key ls =
  (afterUpdateAccessOrder self key order0 ls, Ok tt).
Proof.
  intros Hok. rewrite ls_updateAccessOrder_eq, Hok.
  unfold afterUpdateAccessOrder. cbv zeta.
  destruct (gt_bound _ _); [|reflexivity].
  destruct (moveToTail key order0) as [|oldestKey rest]; [reflexivity|].
  destruct (truthyKey oldestKey).
  - destruct (ls_removeFromStorage_spec self oldestKey ls order0 Hok)
      as [order' [_ Hrm]].
    erewrite bind_Ok by apply Hrm.
    unfold LocalStorage.setAccessOrder, LocalStorage.setItem.
    by rewrite insert_insert_eq.
  - reflexivity.
Qed.

Lemma ls_set_spec self key v options now ls order0 :
  asArray (storedOrder self ls) = Ok order0 →
  LocalStorage.getFullKey self key ≠ LocalStorage.accessOrderKey self →
  LocalStorage.set self key v options now ls =
  (afterUpdateAccessOrder self key order0
     (<[LocalStorage.getFullKey self key := TEntry (newEntry v options now)]> ls),
   Ok tt).
Proof.
  intros Hok Hne. unfold LocalStorage.set. cbv zeta.
  apply tryCatch_Ok. erewrite bind_Ok by reflexivity.
  apply ls_updateAccessOrder_spec. by rewrite storedOrder_insert_ne.
Qed.

Lemma ls_cleanup_not_array self now ls e :
  asArray (storedOrder self ls) = Throw e →
  LocalStorage.cleanup self now ls = (ls, Throw e).
Proof.
  intros Hbad. unfold LocalStorage.cleanup.
  erewrite bind_Ok by reflexivity.
  erewrite bind_Ok by apply ls_getAccessOrder_eq.
  apply bind_Throw. unfold lift. by rewrite Hbad.
Qed.

(** A [set] that returns has found an array in the index and has not written
    its entry over the index. *)
Lemma ls_set_Ok_inv self key v options now ls ls' u :
  LocalStorage.set self key v options now ls = (ls', Ok u) →
  LocalStorage.getFullKey self key ≠ LocalStorage.accessOrderKey self
  ∧ ∃ order0, asArray (storedOrder self ls) = Ok order0.
Proof.
  intros Hset.
  set (ls1 := <[LocalStorage.getFullKey self key
                 := TEntry (newEntry v options now)]> ls).
  destruct (asArray (storedOrder self ls1)) as [order1|e] eqn:Hok.
  - assert (Hne : LocalStorage.getFullKey self key
                  ≠ LocalStorage.accessOrderKey self).
    { intros Heq. unfold ls1 in Hok. rewrite Heq in Hok.
      rewrite (storedOrder_entry self (newEntry v options now)) in Hok;
        [discriminate|]. apply lookup_insert_eq. }
    split; [done|]. exists order1. unfold ls1 in Hok.
    by rewrite storedOrder_insert_ne in Hok.
  - exfalso. unfold LocalStorage.set in Hset. cbv zeta in Hset.
    erewrite tryCatch_Throw in Hset.
    2:{ erewrite bind_Ok by reflexivity. fold ls1.
        rewrite ls_updateAccessOrder_eq, Hok. reflexivity. }
    erewrite bind_Throw in Hset by (by apply ls_cleanup_not_array).
    discriminate.
Qed.

Lemma ls_get_entry self key now ls e order0 :
  ls !! LocalStorage.getFullKey self key = Some (TEntry e) →
  asArray (storedOrder self ls) = Ok order0 →
  LocalStorage.get self key now ls =
  if isExpired e now
  then (<[LocalStorage.accessOrderKey self := TOrder (without key order0)]>
          (delete (LocalStorage.getFullKey self key) ls), Ok JUndefined)
  else (afterUpdateAccessOrder self key order0 ls, Ok (value e)).
Proof.
  intros Hitem Hok.
  assert (Hne : LocalStorage.getFullKey self key
                ≠ LocalStorage.accessOrderKey self).
  { intros Heq. rewrite Heq in Hitem.
    rewrite (storedOrder_entry self e ls Hitem) in Hok. discriminate. }
  unfold LocalStorage.get. erewrite bind_Ok by (unfold LocalStorage.getItem; reflexivity).
  rewrite Hitem. cbn [truthyText JSON_parse].
  destruct (isExpired e now) eqn:Hexp.
  - apply tryCatch_Ok. unfold lift at 1 2. unfold bind at 1 2. cbn [isExpiredJson].
    rewrite Hexp.
    destruct (ls_removeFromStorage_spec self key ls order0 Hok)
      as [order' [Hok' Hrm]].
    rewrite storedOrder_delete_ne, Hok in Hok' by done. injection Hok' as <-.
    erewrite bind_Ok by apply Hrm. reflexivity.
  - apply tryCatch_Ok. unfold lift at 1 2. unfold bind at 1 2. cbn [isExpiredJson].
    rewrite Hexp.
    erewrite bind_Ok by (by apply ls_updateAccessOrder_spec). reflexivity.
Qed.

(** ** The index file of the file adapter *)

Lemma fs_ensureDirectory_eq d :
  FileSystem.ensureDirectory d = (Some (default ∅ d), Ok tt).
Proof. by destruct d. Qed.

Lemma fs_getAccessOrder_eq d :
  FileSystem.getAccessOrder d = (d, Ok (indexedOrder d)).
Proof.
  unfold FileSystem.getAccessOrder, indexedOrder, tryCatch, bind,
    FileSystem.readFile, lift, ret.
  destruct d as [files|]; [|done].
  destruct (files !! FileSystem.accessOrderFile) as [t|]; [|done].
  destruct t; cbn; done.
Qed.

Lemma fs_setAccessOrder_eq order d :
  FileSystem.setAccessOrder order d =
  (Some (<[FileSystem.accessOrderFile := TOrder order]> (default ∅ d)), Ok tt).
Proof.
  unfold FileSystem.setAccessOrder.
  erewrite bind_Ok by apply fs_ensureDirectory_eq. reflexivity.
Qed.

Lemma fs_updateAccessOrder_eq key d :
  FileSystem.updateAccessOrder key d =
  match asArray (indexedOrder d) with
  | Ok order0 =>
      (Some (<[FileSystem.accessOrderFile := TOrder (moveToTail key order0)]>
               (default ∅ d)), Ok tt)
  | Throw e => (d, Throw e)
  end.
Proof.
  unfold FileSystem.updateAccessOrder.
  erewrite bind_Ok by apply fs_getAccessOrder_eq.
  unfold bind at 1, lift.
  destruct (asArray _) as [order0|e]; [|reflexivity].
  apply fs_setAccessOrder_eq.
Qed.

Lemma indexedOrder_insert_order order files :
  indexedOrder (Some (<[FileSystem.accessOrderFile := TOrder order]> files))
  = JsArray order.
Proof. unfold indexedOrder. by rewrite lookup_insert_eq. Qed.

Lemma indexedOrder_insert_ne name t files :
  name ≠ FileSystem.accessOrderFile →
  indexedOrder (Some (<[name := t]> files)) = indexedOrder (Some files).
Proof. intros Hne. unfold indexedOrder. by rewrite lookup_insert_ne. Qed.

Lemma indexedOrder_delete_ne name files :
  name ≠ FileSystem.accessOrderFile →
  indexedOrder (Some (delete name files)) = indexedOrder (Some files).
Proof. intros Hne. unfold indexedOrder. by rewrite lookup_delete_ne. Qed.

Lemma indexedOrder_entry e files :
  files !! FileSystem.accessOrderFile = Some (TEntry e) →
  asArray (indexedOrder (Some files)) = Throw TypeError.
Proof. intros H. unfold indexedOrder. by rewrite H. Qed.

Lemma fs_get_entry md5 key now files e order0 :
  files !! FileSystem.getFilePath md5 key = Some (TEntry e) →
  asArray (indexedOrder (Some files)) = Ok order0 →
  FileSystem.get md5 key now (Some files) =
  if isExpired e now
  then (Some (<[FileSystem.accessOrderFile := TOrder (without key order0)]>
                (delete (FileSystem.getFilePath md5 key) files)), Ok JUndefined)
  else (Some (<[FileSystem.accessOrderFile := TOrder (moveToTail key order0)]>
                files), Ok (value e)).
Proof.
  intros Hfile Hok.
  assert (Hne : FileSystem.getFilePath md5 key ≠ FileSystem.accessOrderFile).
  { intros Heq. rewrite Heq in Hfile.
    rewrite (indexedOrder_entry e files Hfile) in Hok. discriminate. }
  unfold FileSystem.get. erewrite bind_Ok by apply fs_ensureDirectory_eq.
  change (default ∅ (Some files)) with files.
  destruct (isExpired e now) eqn:Hexp; apply tryCatch_Ok;
    (erewrite bind_Ok by (unfold FileSystem.readFile; rewrite Hfile; reflexivity));
    unfold lift at 1 2; unfold bind at 1 2; cbn [JSON_parse isExpiredJson];
    rewrite Hexp.
  - erewrite bind_Ok by (unfold FileSystem.unlink; rewrite Hfile; reflexivity).
    erewrite bind_Ok by apply fs_getAccessOrder_eq.
    rewrite indexedOrder_delete_ne, Hok by done. unfold lift at 1.
    erewrite bind_Ok by reflexivity.
    erewrite bind_Ok by apply fs_setAccessOrder_eq. reflexivity.
  - erewrite bind_Ok by (rewrite fs_updateAccessOrder_eq, Hok; reflexivity).
    reflexivity.
Qed.


(** A [set] of the file adapter that returns has written the entry file and
    then the index, and the two are different files. *)
Lemma fs_set_Ok_inv md5 self key v options now d d' u :
  FileSystem.set md5 self key v options now d = (d', Ok u) →
  FileSystem.getFilePath md5 key ≠ FileSystem.accessOrderFile
  ∧ ∃ files order,
      d' = Some (<[FileSystem.accessOrderFile := TOrder order]>
                   (<[FileSystem.getFilePath md5 key
                      := TEntry (newEntry v options now)]> files)).
Proof.
  unfold FileSystem.set. intros Hset.
  apply bind_Ok_inv in Hset as (d1 & ? & _ & Hset).
  apply bind_Ok_inv in Hset as (d2 & ? & _ & Hset).
  apply bind_Ok_inv in Hset as (d3 & ? & _ & Hset).
  apply bind_Ok_inv in Hset as (d4 & ? & _ & Hset).
  apply bind_Ok_inv in Hset as (d5 & ? & Hwrite & Hupd).
  unfold FileSystem.writeFile in Hwrite.
  destruct d4 as [files|]; [|discriminate]. injection Hwrite as <-.
  rewrite fs_updateAccessOrder_eq in Hupd.
  destruct (asArray _) as [order0|e] eqn:Hok; [|discriminate].
  injection Hupd as <- _. split; [|eauto].
  intros Heq. rewrite Heq in Hok.
  rewrite (indexedOrder_entry (newEntry v options now)) in Hok; [discriminate|].
  apply lookup_insert_eq.
Qed.

(** ** Expiry at the boundary *)

Lemma isExpired_newEntry v d maxSize createdAt now :
  d ≠ 0 → createdAt + d ≠ 0 →
  isExpired (newEntry v (Some {| ttl := Some d; Types.maxSize := maxSize |})
               createdAt) now
  = bool_decide (createdAt + d <= now).
Proof.
  intros Hd Hsum. unfold isExpired, newEntry, expiryFor. cbn.
  rewrite decide_False by done. cbn. by rewrite decide_False.
Qed.

Lemma memory_set_lookup_key key v options now self self' :
  Memory.set key v options now self = Some self' →
  Memory.store self' !! key = Some (newEntry v options now).
Proof.
  unfold Memory.set. destruct (Memory.cleanup now self); [|discriminate].
  intros [= <-]. cbn. apply lookup_insert_eq.
Qed.

Lemma memory_get_entry key now self e :
  Memory.store self !! key = Some e →
  (Memory.get key now self).2 = if isExpired e now then JUndefined else value e.
Proof. intros He. unfold Memory.get. rewrite He. by destruct (isExpired e now). Qed.

Lemma memory_has_entry key now self e :
  Memory.store self !! key = Some e →
  (Memory.has key now self).2 = negb (isExpired e now).
Proof. intros He. unfold Memory.has. rewrite He. by destruct (isExpired e now). Qed.

Lemma ls_has_eq self key now ls :
  LocalStorage.has self key now ls =
  match LocalStorage.get self key now ls with
  | (ls', Ok v) => (ls', Ok (bool_decide (v ≠ JUndefined)))
  | (ls', Throw e) => (ls', Throw e)
  end.
Proof. reflexivity. Qed.

Lemma fs_has_eq md5 key now d :
  FileSystem.has md5 key now d =
  match FileSystem.get md5 key now d with
  | (d', Ok v) => (d', Ok (bool_decide (v ≠ JUndefined)))
  | (d', Throw e) => (d', Throw e)
  end.
Proof. reflexivity. Qed.

Lemma getFullKey_inj self k1 k2 :
  LocalStorage.getFullKey self k1 = LocalStorage.getFullKey self k2 → k1 = k2.
Proof. unfold LocalStorage.getFullKey. apply String.app_inj. Qed.

Lemma moveToTail_head_is_key key order rest :
  moveToTail key order = key :: rest → rest = [].
Proof.
  unfold moveToTail. intros Heq.
  destruct (without key order) as [|k l] eqn:Hw; cbn in Heq.
  - by injection Heq.
  - injection Heq as -> _. exfalso.
    assert (Hin : key ∈ without key order) by (rewrite Hw; apply list_elem_of_here).
    apply elem_of_without in Hin. tauto.
Qed.

Lemma afterUpdateAccessOrder_lookup_key self key order0 ls t :
  LocalStorage.maxSize self ≠ Fin 0 →
  LocalStorage.getFullKey self key ≠ LocalStorage.accessOrderKey self →
  ls !! LocalStorage.getFullKey self key = Some t →
  afterUpdateAccessOrder self key order0 ls !! LocalStorage.getFullKey self key
  = Some t.
Proof.
  intros Hpos Hne Hlook. unfold afterUpdateAccessOrder. cbv zeta.
  destruct (gt_bound _ _) eqn:Hgt; [|by rewrite lookup_insert_ne].
  destruct (moveToTail key order0) as [|oldestKey rest] eqn:Horder;
    [by rewrite lookup_insert_ne|].
  rewrite lookup_insert_ne by done.
  destruct (truthyKey oldestKey); [|done].
  rewrite lookup_delete_ne; [done|].
  intros Heq%getFullKey_inj. subst oldestKey.
  apply moveToTail_head_is_key in Horder as ->.
  destruct (LocalStorage.maxSize self) as [[|n]|]; cbn in Hgt; try done.
  all: apply bool_decide_eq_true in Hgt; cbn in Hgt; lia.
Qed.

Lemma afterUpdateAccessOrder_storedOrder self key order0 ls :
  ∃ order, storedOrder self (afterUpdateAccessOrder self key order0 ls)
           = JsArray order.
Proof.
  unfold afterUpdateAccessOrder. cbv zeta.
  destruct (gt_bound _ _); [|eexists; apply storedOrder_insert_order].
  destruct (moveToTail key order0); eexists; apply storedOrder_insert_order.
Qed.

(** C4, as stated, at [ttl = 0] on the volatile adapter: the entry written at
    time 0 is still served at time 5, which is past [createdAt + ttl]. *)
Lemma ttl_zero_entry_is_never_a_miss :
  ¬ (∀ self now,
       Memory.set "k" (JStr "v") (withTtl 0) 0 (Memory.new None) = Some self →
       0 + 0 <= now →
       (Memory.get "k" now self).2 = JUndefined).
Proof.
  intros H.
  destruct (Memory.set "k" (JStr "v") (withTtl 0) 0 (Memory.new None))
    as [self|] eqn:Hset; [|vm_compute in Hset; discriminate].
  specialize (H self 5 eq_refl ltac:(lia)).
  apply memory_set_lookup_key in Hset.
  rewrite (memory_get_entry _ _ _ _ Hset) in H. discriminate.
Qed.

(** C4: an entry written by [set] with a non-zero [ttl = d] at time
    [createdAt] (with [createdAt + d] non-zero) is a miss for [get] and [has]
    from [createdAt + d] on, and before that [get] returns the stored value
    and [has] returns true (in the persistent adapters, whose [has] is
    [get(key) !== undefined]: true when the stored value is not
    [undefined]). *)
Theorem ttl_expiry_boundary (key : string) (v : jsval) (d createdAt now : Z)
  (maxSize : option nat) :
  d ≠ 0 → createdAt + d ≠ 0 →
  let options := Some {| ttl := Some d; Types.maxSize := maxSize |} in
  (∀ self self',
     Memory.set key v options createdAt self = Some self' →
     (createdAt + d <= now →
      (Memory.get key now self').2 = JUndefined
      ∧ (Memory.has key now self').2 = false)
     ∧ (now < createdAt + d →
        (Memory.get key now self').2 = v
        ∧ (Memory.has key now self').2 = true))
  ∧ (∀ adapterOptions prefix ls ls',
       let self := LocalStorage.new adapterOptions prefix in
       LocalStorage.set self key v options createdAt ls = (ls', Ok tt) →
       (createdAt + d <= now →
        (LocalStorage.get self key now ls').2 = Ok JUndefined
        ∧ (LocalStorage.has self key now ls').2 = Ok false)
       ∧ (now < createdAt + d →
          (LocalStorage.get self key now ls').2 = Ok v
          ∧ (LocalStorage.has self key now ls').2
            = Ok (bool_decide (v ≠ JUndefined))))
  ∧ (∀ md5 self dir dir',
       FileSystem.set md5 self key v options createdAt dir = (dir', Ok tt) →
       (createdAt + d <= now →
        (FileSystem.get md5 key now dir').2 = Ok JUndefined
        ∧ (FileSystem.has md5 key now dir').2 = Ok false)
       ∧ (now < createdAt + d →
          (FileSystem.get md5 key now dir').2 = Ok v
          ∧ (FileSystem.has md5 key now dir').2
            = Ok (bool_decide (v ≠ JUndefined)))).
Proof.
  intros Hd Hsum options.
  pose proof (isExpired_newEntry v d maxSize createdAt now Hd Hsum) as Hexp.
  fold options in Hexp. split_and!.
  - intros self self' Hset. apply memory_set_lookup_key in Hset.
    rewrite (memory_get_entry _ _ _ _ Hset), (memory_has_entry _ _ _ _ Hset), Hexp.
    split; intros Hnow.
    + by rewrite bool_decide_eq_true_2.
    + by rewrite bool_decide_eq_false_2 by lia.
  - intros adapterOptions prefix ls ls' self Hset.
    destruct (ls_set_Ok_inv _ _ _ _ _ _ _ _ Hset) as [Hne [order0 Hok]].
    rewrite (ls_set_spec _ _ _ _ _ _ order0 Hok Hne) in Hset.
    injection Hset as <-.
    match goal with |- context [LocalStorage.get self key now ?s] =>
      set (ls1 := s) end.
    assert (Hitem : ls1 !! LocalStorage.getFullKey self key
                    = Some (TEntry (newEntry v options createdAt))).
    { apply afterUpdateAccessOrder_lookup_key; [|done|apply lookup_insert_eq].
      apply maxSizeOrInfinity_positive. }
    destruct (afterUpdateAccessOrder_storedOrder self key order0
                (<[LocalStorage.getFullKey self key
                   := TEntry (newEntry v options createdAt)]> ls))
      as [order1 Horder1].
    fold ls1 in Horder1.
    assert (Hok1 : asArray (storedOrder self ls1) = Ok order1)
      by (by rewrite Horder1).
    rewrite ls_has_eq, (ls_get_entry _ _ _ _ _ _ Hitem Hok1), Hexp.
    split; intros Hnow.
    + by rewrite bool_decide_eq_true_2.
    + by rewrite bool_decide_eq_false_2 by lia.
  - intros md5 self dir dir' Hset.
    destruct (fs_set_Ok_inv _ _ _ _ _ _ _ _ _ Hset)
      as [Hne [files [order ->]]].
    assert (Hfile : (<[FileSystem.accessOrderFile := TOrder order]>
                       (<[FileSystem.getFilePath md5 key
                          := TEntry (newEntry v options createdAt)]> files))
                    !! FileSystem.getFilePath md5 key
                    = Some (TEntry (newEntry v options createdAt))).
    { rewrite lookup_insert_ne by done. apply lookup_insert_eq. }
    rewrite fs_has_eq, (fs_get_entry _ _ _ _ _ order Hfile), Hexp
      by (by rewrite indexedOrder_insert_order).
    split; intros Hnow.
    + by rewrite bool_decide_eq_true_2.
    + by rewrite bool_decide_eq_false_2 by lia.
Qed.

Lemma ttl_expiry_boundary_witness :
  100 ≠ 0 ∧ 0 + 100 ≠ 0
  ∧ (∃ self',
       Memory.set "k" (JStr "v") (withTtl 100) 0 (Memory.new None) = Some self'
       ∧ (Memory.get "k" 100 self').2 = JUndefined
       ∧ (Memory.has "k" 100 self').2 = false
       ∧ (Memory.get "k" 99 self').2 = JStr "v"
       ∧ (Memory.has "k" 99 self').2 = true)
  ∧ (∃ ls',
       let self := LocalStorage.new None (Some "test:") in
       LocalStorage.set self "k" (JStr "v") (withTtl 100) 0 ∅ = (ls', Ok tt)
       ∧ (LocalStorage.get self "k" 100 ls').2 = Ok JUndefined
       ∧ (LocalStorage.has self "k" 99 ls').2 = Ok true)
  ∧ (∃ dir',
       let self := FileSystem.new None in
       FileSystem.set md5_examples self "k" (JStr "v") (withTtl 100) 0 None
       = (dir', Ok tt)
       ∧ (FileSystem.get md5_examples "k" 100 dir').2 = Ok JUndefined
       ∧ (FileSystem.has md5_examples "k" 99 dir').2 = Ok true).
Proof.
  split; [lia|]. split; [lia|].
  pose proof (λ now, ttl_expiry_boundary "k" (JStr "v") 100 0 now None
                       ltac:(lia) ltac:(lia)) as H.
  split_and!.
  - destruct (Memory.set "k" (JStr "v") (withTtl 100) 0 (Memory.new None))
      as [self'|] eqn:Hset; [|vm_compute in Hset; discriminate].
    exists self'. split; [reflexivity|].
    destruct (H 100) as [Hm _]. destruct (Hm _ _ Hset) as [Hmiss _].
    destruct (H 99) as [Hm' _]. destruct (Hm' _ _ Hset) as [_ Hhit].
    destruct (Hmiss ltac:(lia)) as [? ?]. destruct (Hhit ltac:(lia)) as [? ?].
    done.
  - destruct (LocalStorage.set (LocalStorage.new None (Some "test:")) "k"
                (JStr "v") (withTtl 100) 0 ∅) as [ls' [[]|e]] eqn:Hset;
      [|vm_compute in Hset; discriminate].
    exists ls'. cbv zeta. split; [exact Hset|].
    destruct (H 100) as (_ & Hl & _). destruct (Hl _ _ _ _ Hset) as [Hmiss _].
    destruct (H 99) as (_ & Hl' & _). destruct (Hl' _ _ _ _ Hset) as [_ Hhit].
    destruct (Hmiss ltac:(lia)) as [? ?]. destruct (Hhit ltac:(lia)) as [? ?].
    done.
  - destruct (FileSystem.set md5_examples (FileSystem.new None) "k"
                (JStr "v") (withTtl 100) 0 None) as [dir' [[]|e]] eqn:Hset;
      [|vm_compute in Hset; discriminate].
    exists dir'. cbv zeta. split; [exact Hset|].
    destruct (H 100) as (_ & _ & Hf). destruct (Hf _ _ _ _ Hset) as [Hmiss _].
    destruct (H 99) as (_ & _ & Hf'). destruct (Hf' _ _ _ _ Hset) as [_ Hhit].
    destruct (Hmiss ltac:(lia)) as [? ?]. destruct (Hhit ltac:(lia)) as [? ?].
    done.
Defined.

(** ** [has] against [get] *)

(** C6, as stated, on the volatile adapter holding the value [undefined]
    under ["k"]: [has] returns true and [get] returns a miss. *)
Lemma memory_has_true_where_get_misses :
  ¬ (∀ self,
       Memory.set "k" JUndefined None 0 (Memory.new None) = Some self →
       (Memory.has "k" 1 self).2 = true
       ↔ (Memory.get "k" 1 self).2 ≠ JUndefined).
Proof.
  intros H.
  destruct (Memory.set "k" JUndefined None 0 (Memory.new None))
    as [self|] eqn:Hset; [|vm_compute in Hset; discriminate].
  specialize (H self eq_refl). apply memory_set_lookup_key in Hset.
  rewrite (memory_get_entry _ _ _ _ Hset), (memory_has_entry _ _ _ _ Hset) in H.
  cbn in H. by apply H.
Qed.

(** [get] and [has] of the key/value adapter on an expired entry, in every
    state of the store: the item is removed, and what is returned depends on
    the index that is left. *)
Lemma ls_get_expired_entry_any self key now ls e :
  ls !! LocalStorage.getFullKey self key = Some (TEntry e) →
  isExpired e now = true →
  (LocalStorage.get self key now ls).2
  = match asArray (storedOrder self
                     (delete (LocalStorage.getFullKey self key) ls)) with
    | Ok _ => Ok JUndefined
    | Throw err => Throw err
    end
  ∧ (LocalStorage.has self key now ls).2
    = match asArray (storedOrder self
                       (delete (LocalStorage.getFullKey self key) ls)) with
      | Ok _ => Ok false
      | Throw err => Throw err
      end.
Proof.
  intros Hitem Hexp.
  assert (Hget : (LocalStorage.get self key now ls).2
                 = match asArray (storedOrder self
                           (delete (LocalStorage.getFullKey self key) ls)) with
                   | Ok _ => Ok JUndefined
                   | Throw err => Throw err
                   end).
  { unfold LocalStorage.get.
    erewrite bind_Ok by (unfold LocalStorage.getItem; reflexivity).
    rewrite Hitem. cbn [truthyText JSON_parse].
    unfold tryCatch, lift at 1 2. unfold bind at 1 2. cbn [isExpiredJson].
    rewrite Hexp. unfold bind at 1. rewrite ls_removeFromStorage_eq. cbv zeta.
    destruct (asArray (storedOrder self
                (delete (LocalStorage.getFullKey self key) ls)))
      as [order|err] eqn:Hok; [reflexivity|].
    unfold bind at 1. rewrite ls_removeFromStorage_eq. cbv zeta.
    by rewrite delete_delete_eq, Hok. }
  split; [exact Hget|]. rewrite ls_has_eq.
  destruct (LocalStorage.get self key now ls) as [ls' [v|err]];
    cbn [snd] in Hget |- *;
    destruct (asArray _) as [order|err']; try discriminate.
  - by injection Hget as ->.
  - by injection Hget as ->.
Qed.

Lemma fs_get_expired_entry md5 key now files e :
  files !! FileSystem.getFilePath md5 key = Some (TEntry e) →
  isExpired e now = true →
  (FileSystem.get md5 key now (Some files)).2 = Ok JUndefined
  ∧ (FileSystem.has md5 key now (Some files)).2 = Ok false.
Proof.
  intros Hfile Hexp. rewrite fs_has_eq.
  assert (Hget : (FileSystem.get md5 key now (Some files)).2 = Ok JUndefined).
  { unfold FileSystem.get. erewrite bind_Ok by apply fs_ensureDirectory_eq.
    change (default ∅ (Some files)) with files. unfold tryCatch.
    erewrite bind_Ok by (unfold FileSystem.readFile; rewrite Hfile; reflexivity).
    unfold lift at 1 2. unfold bind at 1 2. cbn [JSON_parse isExpiredJson].
    rewrite Hexp.
    erewrite bind_Ok by (unfold FileSystem.unlink; rewrite Hfile; reflexivity).
    erewrite bind_Ok by apply fs_getAccessOrder_eq.
    unfold bind at 1, lift at 1.
    destruct (asArray _) as [order|err]; [|reflexivity].
    erewrite bind_Ok by apply fs_setAccessOrder_eq. reflexivity. }
  destruct (FileSystem.get md5 key now (Some files)) as [d' [v|err]];
    cbn in Hget; [|discriminate].
  injection Hget as ->. done.
Qed.

(** C6: in the two persistent adapters [has(key)] returns true exactly when
    [get(key)], applied to the same state, returns a value other than
    [undefined], and it leaves the state that [get] leaves; in the volatile
    adapter the same equivalence holds in every state whose entry under
    [key], if any, does not hold [undefined].  On an expired entry [has]
    returns false, as [get] returns a miss, in the volatile and in the file
    adapter; in the key/value adapter both remove the item, and then [has]
    returns false and [get] a miss when the index that is left is absent,
    unparseable or an array, and both raise a TypeError when it is JSON that
    is no array. *)
Theorem has_agrees_with_get (key : string) (now : Z) :
  (∀ self,
     (∀ e, Memory.store self !! key = Some e → value e ≠ JUndefined) →
     (Memory.has key now self).2 = true
     ↔ (Memory.get key now self).2 ≠ JUndefined)
  ∧ (∀ self e,
       Memory.store self !! key = Some e → isExpired e now = true →
       (Memory.has key now self).2 = false
       ∧ (Memory.get key now self).2 = JUndefined)
  ∧ (∀ self ls,
       ((LocalStorage.has self key now ls).2 = Ok true
        ↔ ∃ v, (LocalStorage.get self key now ls).2 = Ok v ∧ v ≠ JUndefined)
       ∧ (LocalStorage.has self key now ls).1
         = (LocalStorage.get self key now ls).1)
  ∧ (∀ self ls e,
       ls !! LocalStorage.getFullKey self key = Some (TEntry e) →
       isExpired e now = true →
       match asArray (storedOrder self
                        (delete (LocalStorage.getFullKey self key) ls)) with
       | Ok _ =>
           (LocalStorage.has self key now ls).2 = Ok false
           ∧ (LocalStorage.get self key now ls).2 = Ok JUndefined
       | Throw _ =>
           (LocalStorage.has self key now ls).2 = Throw TypeError
           ∧ (LocalStorage.get self key now ls).2 = Throw TypeError
       end)
  ∧ (∀ md5 dir,
       ((FileSystem.has md5 key now dir).2 = Ok true
        ↔ ∃ v, (FileSystem.get md5 key now dir).2 = Ok v ∧ v ≠ JUndefined)
       ∧ (FileSystem.has md5 key now dir).1
         = (FileSystem.get md5 key now dir).1)
  ∧ (∀ md5 files e,
       files !! FileSystem.getFilePath md5 key = Some (TEntry e) →
       isExpired e now = true →
       (FileSystem.has md5 key now (Some files)).2 = Ok false
       ∧ (FileSystem.get md5 key now (Some files)).2 = Ok JUndefined).
Proof.
  split_and!.
  - intros self Hdef. unfold Memory.has, Memory.get.
    destruct (Memory.store self !! key) as [e|] eqn:He; [|done].
    destruct (isExpired e now); cbn; [done|].
    split; [intros _; by apply Hdef|done].
  - intros self e He Hexp.
    by rewrite (memory_get_entry _ _ _ _ He), (memory_has_entry _ _ _ _ He), Hexp.
  - intros self ls. rewrite ls_has_eq.
    destruct (LocalStorage.get self key now ls) as [ls' [v|err]]; cbn.
    + split; [|done]. split.
      * intros [= Hv]. apply bool_decide_eq_true in Hv. eauto.
      * intros [v' [[= <-] Hv]]. by rewrite bool_decide_eq_true_2.
    + split; [|done]. split; [done|]. by intros [v [? _]].
  - intros self ls e Hitem Hexp.
    destruct (ls_get_expired_entry_any self key now ls e Hitem Hexp)
      as [Hget Hhas].
    destruct (asArray _) as [order|err] eqn:Hok; [done|].
    by rewrite (asArray_Throw _ _ Hok) in Hget, Hhas.
  - intros md5 dir. rewrite fs_has_eq.
    destruct (FileSystem.get md5 key now dir) as [d' [v|err]]; cbn.
    + split; [|done]. split.
      * intros [= Hv]. apply bool_decide_eq_true in Hv. eauto.
      * intros [v' [[= <-] Hv]]. by rewrite bool_decide_eq_true_2.
    + split; [|done]. split; [done|]. by intros [v [? _]].
  - intros md5 files e Hfile Hexp.
    destruct (fs_get_expired_entry _ _ _ _ _ Hfile Hexp). done.
Qed.

Lemma has_agrees_with_get_witness :
  (∃ self,
     Memory.set "k" (JStr "v") (withTtl 100) 0 (Memory.new None) = Some self
     ∧ (∀ e, Memory.store self !! "k" = Some e → value e ≠ JUndefined)
     ∧ ((Memory.has "k" 1 self).2 = true
        ↔ (Memory.get "k" 1 self).2 ≠ JUndefined)
     ∧ isExpired (newEntry (JStr "v") (withTtl 100) 0) 100 = true
     ∧ (Memory.has "k" 100 self).2 = false
     ∧ (Memory.get "k" 100 self).2 = JUndefined)
  ∧ (let self := LocalStorage.new None (Some "test:") in
     let ls := <["test:k" := TEntry (newEntry (JStr "v") (withTtl 100) 0)]> ∅ in
     ls !! LocalStorage.getFullKey self "k"
     = Some (TEntry (newEntry (JStr "v") (withTtl 100) 0))
     ∧ (LocalStorage.has self "k" 100 ls).2 = Ok false
     ∧ (LocalStorage.get self "k" 100 ls).2 = Ok JUndefined)
  ∧ (let self := LocalStorage.new None (Some "test:") in
     let ls := <["test:__access_order" := TNull]>
                 (<["test:k" := TEntry (newEntry (JStr "v") (withTtl 100) 0)]> ∅) in
     ls !! LocalStorage.getFullKey self "k"
     = Some (TEntry (newEntry (JStr "v") (withTtl 100) 0))
     ∧ (LocalStorage.has self "k" 100 ls).2 = Throw TypeError
     ∧ (LocalStorage.get self "k" 100 ls).2 = Throw TypeError)
  ∧ (let files :=
       <["8ce4b16b22b58894aa86c421e8759df3.json"
         := TEntry (newEntry (JStr "v") (withTtl 100) 0)]> ∅ in
     files !! FileSystem.getFilePath md5_examples "k"
     = Some (TEntry (newEntry (JStr "v") (withTtl 100) 0))
     ∧ (FileSystem.has md5_examples "k" 100 (Some files)).2 = Ok false
     ∧ (FileSystem.get md5_examples "k" 100 (Some files)).2 = Ok JUndefined).
Proof.
  pose proof (has_agrees_with_get "k" 1) as (Hm1 & _).
  pose proof (has_agrees_with_get "k" 100) as (_ & Hm2 & _ & Hl & _ & Hf).
  split_and!.
  - destruct (Memory.set "k" (JStr "v") (withTtl 100) 0 (Memory.new None))
      as [self|] eqn:Hset; [|vm_compute in Hset; discriminate].
    exists self. split; [reflexivity|].
    pose proof (memory_set_lookup_key _ _ _ _ _ _ Hset) as Hk.
    assert (Hdef : ∀ e, Memory.store self !! "k" = Some e → value e ≠ JUndefined).
    { intros e He. rewrite Hk in He. injection He as <-. discriminate. }
    split; [exact Hdef|]. split; [exact (Hm1 self Hdef)|].
    split; [reflexivity|]. exact (Hm2 self _ Hk eq_refl).
  - cbv zeta. split; [reflexivity|].
    exact (Hl (LocalStorage.new None (Some "test:"))
             (<["test:k" := TEntry (newEntry (JStr "v") (withTtl 100) 0)]> ∅)
             (newEntry (JStr "v") (withTtl 100) 0) eq_refl eq_refl).
  - cbv zeta. split; [reflexivity|].
    exact (Hl (LocalStorage.new None (Some "test:"))
             (<["test:__access_order" := TNull]>
                (<["test:k" := TEntry (newEntry (JStr "v") (withTtl 100) 0)]> ∅))
             (newEntry (JStr "v") (withTtl 100) 0) eq_refl eq_refl).
  - cbv zeta. split; [reflexivity|]. eapply Hf; reflexivity.
Defined.

(** ** What an operation of the volatile adapter can leave in the store *)

Lemma evictLoop_lookup b (m m' : gmap string CacheEntry) order order' k e :
  Memory.evictLoop b m order = Some (m', order') →
  m' !! k = Some e → m !! k = Some e.
Proof.
  revert m. induction order as [|oldestKey rest IH]; intros m; cbn.
  - by intros [= <- <-].
  - destruct (gt_bound (size m) b); [|by intros [= <- <-]].
    destruct (truthyKey oldestKey); [|discriminate].
    intros Hloop Hk. specialize (IH _ Hloop Hk).
    apply lookup_delete_Some in IH. tauto.
Qed.

Lemma memory_cleanup_lookup now self self' k e :
  Memory.cleanup now self = Some self' →
  Memory.store self' !! k = Some e → Memory.store self !! k = Some e.
Proof.
  unfold Memory.cleanup.
  destruct (Memory.evictLoop _ _ _) as [[m order]|] eqn:Hloop; [|discriminate].
  intros [= <-]. cbn. intros Hk.
  apply (evictLoop_lookup _ _ _ _ _ _ _ Hloop) in Hk.
  rewrite sweepExpired_store in Hk. apply map_lookup_filter_Some in Hk. tauto.
Qed.

Lemma memory_evictOldest_lookup key self k e :
  Memory.store (Memory.evictOldest key self) !! k = Some e →
  Memory.store self !! k = Some e.
Proof.
  unfold Memory.evictOldest. destruct (_ && _); [|done].
  destruct (Memory.accessOrder self) as [|oldestKey rest]; [done|].
  destruct (truthyKey oldestKey); [|done]. cbn.
  intros Hk. apply lookup_delete_Some in Hk. tauto.
Qed.

(** After [set(key, ...)] every entry of the store is the new one under
    [key] or an entry that was there before. *)
Lemma memory_set_lookup key v options now self self' k e :
  Memory.set key v options now self = Some self' →
  Memory.store self' !! k = Some e →
  (k = key ∧ e = newEntry v options now)
  ∨ (k ≠ key ∧ Memory.store self !! k = Some e).
Proof.
  unfold Memory.set.
  destruct (Memory.cleanup now self) as [s1|] eqn:Hclean; [|discriminate].
  intros [= <-]. cbn. intros Hk.
  apply lookup_insert_Some in Hk as [[<- <-]|[Hne Hk]]; [by left|].
  right. split; [done|].
  apply memory_evictOldest_lookup in Hk.
  by apply (memory_cleanup_lookup _ _ _ _ _ Hclean).
Qed.

Lemma memory_get_lookup key now self k e :
  Memory.store (Memory.get key now self).1 !! k = Some e →
  Memory.store self !! k = Some e.
Proof.
  unfold Memory.get. destruct (Memory.store self !! key) as [e'|]; [|done].
  destruct (isExpired e' now); cbn; [|done].
  intros Hk. apply lookup_delete_Some in Hk. tauto.
Qed.

(** ** Memoization of a function that returns [undefined] *)

Section MemoizeUndefined.

Context {A U : Type}.
Variable fn : A → M U jsval.
Variable options : CacheOptions.
Variable keyResolver : A → string.

(** The key of the call under study. *)
Variable key : string.

(** Whenever [fn] returns on arguments that resolve to [key], it returns
    [undefined]. *)
Hypothesis fn_undefined :
  ∀ a u u' r, keyResolver a = key → fn a u = (u', Ok r) → r = JUndefined.

Lemma onlyUndefined_new : onlyUndefined key (Memoize.newCache options).
Proof. intros e. unfold Memoize.newCache, Memory.new. cbn. by rewrite lookup_empty. Qed.

Lemma onlyUndefined_get k now cache :
  onlyUndefined key cache → onlyUndefined key (Memory.get k now cache).1.
Proof. intros Hinv e He. apply Hinv. by apply (memory_get_lookup k now). Qed.

Lemma onlyUndefined_memoized a now now' cache u cache' u' r :
  onlyUndefined key cache →
  Memoize.memoized fn options keyResolver a now now' (cache, u)
  = Some (cache', u', r) →
  onlyUndefined key cache'.
Proof.
  intros Hinv. unfold Memoize.memoized. cbn [fst snd].
  pose proof (onlyUndefined_get (keyResolver a) now cache Hinv) as Hinv1.
  case_bool_decide as Hcached.
  - by intros [= <- <- <-].
  - destruct (fn a u) as [u1 [result|err]] eqn:Hfn.
    + destruct (Memory.set _ _ _ _ _) as [cache2|] eqn:Hset; [|discriminate].
      intros [= <- <- <-]. intros e He.
      destruct (memory_set_lookup _ _ _ _ _ _ _ _ Hset He) as [[Hk ->]|[_ Hold]].
      * cbn. symmetry in Hk. by apply (fn_undefined a u u1).
      * by apply Hinv1.
    + by intros [= <- <- <-].
Qed.

Lemma onlyUndefined_calls history cache u cache' u' :
  onlyUndefined key cache →
  Memoize.calls fn options keyResolver history (cache, u) = Some (cache', u') →
  onlyUndefined key cache'.
Proof.
  revert cache u. induction history as [|[[a now] now'] rest IH];
    intros cache u Hinv; cbn.
  - by intros [= <- <-].
  - destruct (Memoize.memoized _ _ _ _ _ _ _) as [[[cache1 u1] r]|] eqn:Hcall;
      [|discriminate].
    apply IH. by apply (onlyUndefined_memoized _ _ _ _ _ _ _ _ Hinv Hcall).
Qed.

Lemma onlyUndefined_get_misses now cache :
  onlyUndefined key cache → (Memory.get key now cache).2 = JUndefined.
Proof.
  intros Hinv. unfold Memory.get.
  destruct (Memory.store cache !! key) as [e|] eqn:He; [|done].
  destruct (isExpired e now); [done|]. cbn. by apply Hinv.
Qed.

End MemoizeUndefined.

(** C10: after [set(key, undefined)] on the volatile adapter, [get(key)]
    returns [undefined], the value of a miss, and [has(key)] returns true
    while the entry is not expired; and a memoized function that returns
    [undefined] on the arguments that resolve to one key is never served from
    the cache for such arguments: after any history of calls, the read of the
    cache misses and the call runs the function again. *)
Theorem stored_undefined_is_a_miss {A U : Type} (fn : A → M U jsval)
  (options : CacheOptions) (keyResolver : A → string) (a : A) :
  (∀ key setOptions now now' self self',
     Memory.set key JUndefined setOptions now self = Some self' →
     (Memory.get key now' self').2 = JUndefined
     ∧ (isExpired (newEntry JUndefined setOptions now) now' = false →
        (Memory.has key now' self').2 = true))
  ∧ ((∀ a' u u' r,
        keyResolver a' = keyResolver a → fn a' u = (u', Ok r) → r = JUndefined) →
     ∀ history u0 cache u now now',
       Memoize.calls fn options keyResolver history
         (Memoize.newCache options, u0) = Some (cache, u) →
       (Memory.get (keyResolver a) now cache).2 = JUndefined
       ∧ Memoize.memoized fn options keyResolver a now now' (cache, u) =
         match fn a u with
         | (u', Ok result) =>
             match Memory.set (keyResolver a) result (Some options) now'
                     (Memory.get (keyResolver a) now cache).1 with
             | Some cache' => Some (cache', u', Ok result)
             | None => None
             end
         | (u', Throw e) =>
             Some ((Memory.get (keyResolver a) now cache).1, u', Throw e)
         end).
Proof.
  split.
  - intros key setOptions now now' self self' Hset.
    apply memory_set_lookup_key in Hset.
    rewrite (memory_get_entry _ _ _ _ Hset), (memory_has_entry _ _ _ _ Hset).
    split.
    + by destruct (isExpired _ now').
    + by intros ->.
  - intros Hfn history u0 cache u now now' Hcalls.
    assert (Hinv : onlyUndefined (keyResolver a) cache).
    { eapply onlyUndefined_calls; [exact Hfn| |exact Hcalls].
      apply onlyUndefined_new. }
    pose proof (onlyUndefined_get_misses (keyResolver a) now cache Hinv) as Hmiss.
    split; [done|]. unfold Memoize.memoized. cbn [fst snd].
    rewrite Hmiss. rewrite bool_decide_eq_false_2 by (by intros ?). done.
Qed.

Lemma stored_undefined_is_a_miss_witness :
  (∃ self',
     Memory.set "k" JUndefined None 0 (Memory.new None) = Some self'
     ∧ (Memory.get "k" 1 self').2 = JUndefined
     ∧ (Memory.has "k" 1 self').2 = true)
  ∧ (∀ a' u u' r,
       noArguments a' = noArguments tt →
       countingUndefined a' u = (u', Ok r) → r = JUndefined)
  ∧ (∃ cache,
       Memoize.calls countingUndefined noOptions noArguments
         [(tt, 0, 0); (tt, 1, 1)] (Memoize.newCache noOptions, 0%nat)
       = Some (cache, 2%nat)
       ∧ (Memory.get "[]" 2 cache).2 = JUndefined
       ∧ ∃ cache',
           Memoize.memoized countingUndefined noOptions noArguments tt 2 2
             (cache, 2%nat) = Some (cache', 3%nat, Ok JUndefined)).
Proof.
  pose proof (stored_undefined_is_a_miss countingUndefined noOptions
                noArguments tt) as [Hset Hmemo].
  assert (Hfn : ∀ a' u u' r,
             noArguments a' = noArguments tt →
             countingUndefined a' u = (u', Ok r) → r = JUndefined).
  { intros a' u u' r _ [= _ <-]. reflexivity. }
  split_and!.
  - destruct (Memory.set "k" JUndefined None 0 (Memory.new None))
      as [self'|] eqn:Hs; [|vm_compute in Hs; discriminate].
    exists self'. split; [reflexivity|].
    destruct (Hset _ _ _ 1 _ _ Hs) as [Hget Hhas].
    split; [exact Hget|]. apply Hhas. reflexivity.
  - exact Hfn.
  - destruct (Memoize.calls countingUndefined noOptions noArguments
                [(tt, 0, 0); (tt, 1, 1)] (Memoize.newCache noOptions, 0%nat))
      as [[cache n]|] eqn:Hcalls; [|vm_compute in Hcalls; discriminate].
    assert (n = 2%nat) as ->.
    { vm_compute in Hcalls. by injection Hcalls as _ <-. }
    exists cache. split; [reflexivity|].
    destruct (Hmemo Hfn _ _ _ _ 2 2 Hcalls) as [Hmiss Hcall].
    split; [exact Hmiss|]. rewrite Hcall. cbn.
    change (noArguments ()) with "[]".
    destruct (Memory.set "[]" JUndefined (Some noOptions) 2
                (Memory.get "[]" 2 cache).1) as [cache'|] eqn:Hs.
    + by exists cache'.
    + exfalso. vm_compute in Hcalls. injection Hcalls as <-.
      vm_compute in Hs. discriminate.
Defined.

(** ** Malformed stored data *)






Lemma fs_delete_absent md5 key files :
  files !! FileSystem.getFilePath md5 key = None →
  FileSystem.delete md5 key (Some files) = (Some files, Ok tt).
Proof.
  intros Hfile. unfold FileSystem.delete.
  erewrite tryCatch_Throw; [reflexivity|].
  apply bind_Throw. unfold FileSystem.unlink. by rewrite Hfile.
Qed.




(** When the index of the key/value adapter holds JSON that is not an array,
    a [get] of a valid entry raises a [TypeError]. *)
Lemma localStorage_get_raises_on_a_null_index :
  (LocalStorage.get (LocalStorage.new None (Some "test:")) "k" 1
     nullIndexStorage).2 = Throw TypeError.
Proof. vm_compute. reflexivity. Qed.

(** The file that does not parse is deleted by the next [set], whose
    [cleanup] visits every file of the directory. *)
Lemma fileSystem_set_removes_the_corrupt_file :
  ∃ files,
    (FileSystem.set md5_examples (FileSystem.new None) "A" (JStr "a") None 0
       (Some corruptDirectory)).1 = Some files
    ∧ files !! FileSystem.getFilePath md5_examples "k" = None.
Proof. eexists. split; vm_compute; reflexivity. Qed.



(** ** Eviction by [set] *)

Lemma memory_expired_neighbour :
  option_map snd
    (runMemory expiredNeighbourScenario (Memory.new (withMaxSize 2)))
  = Some [Done; Done; Done; Value (JStr "a")].
Proof. vm_compute. reflexivity. Qed.


Lemma consistent_remove key self :
  consistent self →
  consistent {| Memory.store := delete key (Memory.store self);
                Memory.maxSize := Memory.maxSize self;
                Memory.accessOrder := without key (Memory.accessOrder self) |}.
Proof.
  intros Hc. split; cbn.
  - apply NoDup_without, (order_NoDup _ Hc).
  - intros k. rewrite elem_of_without, (order_dom _ Hc).
    destruct (decide (k = key)) as [->|Hne].
    + rewrite lookup_delete_eq. split; [tauto|]. by intros [? ?].
    + rewrite lookup_delete_ne by done. tauto.
  - intros k [Hk _]%elem_of_without. by apply (order_truthy _ Hc).
  - pose proof (within_bound _ Hc) as Hb.
    destruct (Memory.maxSize self) as [n|]; [|done]. cbn in *.
    apply bool_decide_eq_false in Hb. apply bool_decide_eq_false.
    pose proof (map_size_delete key (Memory.store self)) as Hsize.
    destruct (Memory.store self !! key); cbn in Hsize; lia.
  - apply (bound_positive _ Hc).
Qed.

Lemma consistent_touch key self :
  consistent self → is_Some (Memory.store self !! key) →
  consistent (Memory.updateAccessOrder key self).
Proof.
  intros Hc Hkey. split; cbn.
  - apply NoDup_moveToTail, (order_NoDup _ Hc).
  - intros k. rewrite elem_of_moveToTail, (order_dom _ Hc).
    split; [intros [?| ->]; done|tauto].
  - intros k [Hk| ->]%elem_of_moveToTail.
    + by apply (order_truthy _ Hc).
    + by apply (order_truthy _ Hc), (order_dom _ Hc).
  - apply (within_bound _ Hc).
  - apply (bound_positive _ Hc).
Qed.

(** Every operation on a consistent state leaves a consistent state. *)
Lemma consistent_step o now self self' r :
  consistent self → truthyOp o = true →
  memoryStep o now self = Some (self', r) → consistent self'.
Proof.
  intros Hc Htruthy. destruct o as [key|key v options|key| |key]; cbn.
  - intros [= <- <-]. unfold Memory.get.
    destruct (Memory.store self !! key) as [e|] eqn:He; [|done].
    destruct (isExpired e now); cbn.
    + by apply consistent_remove.
    + apply consistent_touch; [done|]. by rewrite He.
  - destruct (Memory.set key v options now self) as [s|] eqn:Hset;
      [|discriminate].
    intros [= <- <-]. by apply (consistent_set _ _ _ _ _ _ Hc Htruthy Hset).
  - intros [= <- <-]. by apply consistent_remove.
  - intros [= <- <-]. split; cbn.
    + apply NoDup_nil_2.
    + intros k. rewrite lookup_empty, elem_of_nil. split; [done|]. by intros [? ?].
    + intros k Hk. by apply elem_of_nil in Hk.
    + rewrite map_size_empty. pose proof (bound_positive _ Hc).
      by destruct (Memory.maxSize self) as [[|n]|].
    + apply (bound_positive _ Hc).
  - intros [= <- <-]. unfold Memory.has.
    destruct (Memory.store self !! key) as [e|] eqn:He; [|done].
    destruct (isExpired e now); cbn; [|done].
    by apply consistent_remove.
Qed.




(** ** An adapter without a bound *)

Lemma memory_set_unbounded key v options now self :
  Memory.maxSize self = Infinity →
  Memory.set key v options now self =
  Some {| Memory.store := <[key := newEntry v options now]> (liveStore now self);
          Memory.maxSize := Infinity;
          Memory.accessOrder := moveToTail key (liveOrder now self) |}.
Proof.
  intros Hinf. rewrite memory_set_within_bound by (by rewrite Hinf).
  unfold Memory.evictOldest. cbn. by rewrite Hinf.
Qed.

Lemma memory_step_keeps key e o now self :
  Memory.maxSize self = Infinity →
  Memory.store self !! key = Some e →
  isExpired e now = false →
  keeps key o = true →
  ∃ self' r,
    memoryStep o now self = Some (self', r)
    ∧ Memory.maxSize self' = Infinity
    ∧ Memory.store self' !! key = Some e.
Proof.
  intros Hinf He Hlive Hkeeps.
  destruct o as [k|k v options|k| |k]; cbn in *.
  - eexists _, _. split; [reflexivity|]. unfold Memory.get.
    destruct (Memory.store self !! k) as [e'|] eqn:Hk; [|done].
    destruct (isExpired e' now) eqn:Hexp; cbn; [|done].
    split; [done|]. rewrite lookup_delete_ne; [done|]. congruence.
  - apply bool_decide_eq_true in Hkeeps.
    rewrite (memory_set_unbounded _ _ _ _ _ Hinf).
    eexists _, _. split; [reflexivity|]. cbn. split; [done|].
    rewrite lookup_insert_ne by done. by apply liveStore_lookup.
  - apply bool_decide_eq_true in Hkeeps.
    eexists _, _. split; [reflexivity|]. cbn. split; [done|].
    by rewrite lookup_delete_ne.
  - discriminate.
  - eexists _, _. split; [reflexivity|]. unfold Memory.has.
    destruct (Memory.store self !! k) as [e'|] eqn:Hk; [|done].
    destruct (isExpired e' now) eqn:Hexp; cbn; [|done].
    split; [done|]. rewrite lookup_delete_ne; [done|]. congruence.
Qed.

Lemma memory_run_keeps key e ops self :
  Memory.maxSize self = Infinity →
  Memory.store self !! key = Some e →
  Forall (λ x, keeps key x.1 = true ∧ isExpired e x.2 = false) ops →
  ∃ self' rs,
    runMemory ops self = Some (self', rs)
    ∧ Memory.store self' !! key = Some e.
Proof.
  intros Hinf He Hops. revert self Hinf He.
  induction Hops as [|[o now] ops [Hkeeps Hlive] _ IH]; intros self Hinf He; cbn.
  - by eexists _, _.
  - destruct (memory_step_keeps key e o now self Hinf He Hlive Hkeeps)
      as (s1 & r & -> & Hinf1 & He1).
    destruct (IH s1 Hinf1 He1) as (s2 & rs & -> & He2).
    by eexists _, _.
Qed.

Lemma afterUpdateAccessOrder_unbounded self key order0 ls :
  LocalStorage.maxSize self = Infinity →
  afterUpdateAccessOrder self key order0 ls =
  <[LocalStorage.accessOrderKey self := TOrder (moveToTail key order0)]> ls.
Proof. intros Hinf. unfold afterUpdateAccessOrder. by rewrite Hinf. Qed.

(** In an adapter without a bound, [get(k)] returns and touches at most the
    item of [k] and the index. *)
Lemma ls_get_frame self k now ls order :
  LocalStorage.maxSize self = Infinity →
  asArray (storedOrder self ls) = Ok order →
  ∃ ls' v,
    LocalStorage.get self k now ls = (ls', Ok v)
    ∧ (∃ order', asArray (storedOrder self ls') = Ok order')
    ∧ ∀ name,
        name ≠ LocalStorage.accessOrderKey self →
        name ≠ LocalStorage.getFullKey self k →
        ls' !! name = ls !! name.
Proof.
  intros Hinf Hok.
  assert (Hpurge : ∀ order',
    (∃ order'', asArray (storedOrder self
       (<[LocalStorage.accessOrderKey self := TOrder order']>
          (delete (LocalStorage.getFullKey self k) ls))) = Ok order'')
    ∧ ∀ name,
        name ≠ LocalStorage.accessOrderKey self →
        name ≠ LocalStorage.getFullKey self k →
        <[LocalStorage.accessOrderKey self := TOrder order']>
          (delete (LocalStorage.getFullKey self k) ls) !! name = ls !! name).
  { intros order'. split.
    - eexists. by rewrite storedOrder_insert_order.
    - intros name Hn1 Hn2. by rewrite lookup_insert_ne, lookup_delete_ne. }
  assert (Htouch : ∀ order',
    (∃ order'', asArray (storedOrder self
       (<[LocalStorage.accessOrderKey self := TOrder order']> ls)) = Ok order'')
    ∧ ∀ name,
        name ≠ LocalStorage.accessOrderKey self →
        name ≠ LocalStorage.getFullKey self k →
        <[LocalStorage.accessOrderKey self := TOrder order']> ls !! name
        = ls !! name).
  { intros order'. split.
    - eexists. by rewrite storedOrder_insert_order.
    - intros name Hn1 Hn2. by rewrite lookup_insert_ne. }
  destruct (ls !! LocalStorage.getFullKey self k) as [t|] eqn:Hitem.
  2:{ unfold LocalStorage.get.
      erewrite bind_Ok by (unfold LocalStorage.getItem; reflexivity).
      rewrite Hitem. eexists _, _. split; [reflexivity|]. eauto. }
  destruct (ls_removeFromStorage_spec self k ls order Hok)
    as [order' [_ Hrm]].
  assert (Hcase : (∃ e, t = TEntry e) ∨ ∀ e, t ≠ TEntry e)
    by (destruct t; eauto).
  destruct Hcase as [[e ->]|Hnot].
  { rewrite (ls_get_entry _ _ _ _ _ _ Hitem Hok).
    rewrite afterUpdateAccessOrder_unbounded by done.
    destruct (isExpired e now); eexists _, _; (split; [reflexivity|]); eauto. }
  unfold LocalStorage.get.
  erewrite bind_Ok by (unfold LocalStorage.getItem; reflexivity).
  rewrite Hitem. destruct t; cbn [truthyText JSON_parse].
  - eexists _, _. split; [reflexivity|]. eauto.
  - eexists _, _. split; [|apply Hpurge].
    erewrite tryCatch_Throw by reflexivity.
    erewrite bind_Ok by apply Hrm. reflexivity.
  - eexists _, _. split; [|apply Hpurge].
    erewrite tryCatch_Throw by reflexivity.
    erewrite bind_Ok by apply Hrm. reflexivity.
  - eexists _, _. split; [|apply Htouch]. apply tryCatch_Ok.
    unfold lift at 1 2. unfold bind at 1 2. cbn [isExpiredJson].
    erewrite bind_Ok by (by apply ls_updateAccessOrder_spec).
    by rewrite afterUpdateAccessOrder_unbounded.
  - by destruct (Hnot e).
  - eexists _, _. split; [|apply Htouch]. apply tryCatch_Ok.
    unfold lift at 1 2. unfold bind at 1 2. cbn [isExpiredJson].
    erewrite bind_Ok by (by apply ls_updateAccessOrder_spec).
    by rewrite afterUpdateAccessOrder_unbounded.
Qed.

Lemma ls_entry_is_not_the_index self key e ls order :
  ls !! LocalStorage.getFullKey self key = Some (TEntry e) →
  asArray (storedOrder self ls) = Ok order →
  LocalStorage.getFullKey self key ≠ LocalStorage.accessOrderKey self.
Proof.
  intros Hitem Hok Heq. rewrite Heq in Hitem.
  rewrite (storedOrder_entry self e ls Hitem) in Hok. discriminate.
Qed.

Lemma ls_step_keeps self key e o now ls order :
  LocalStorage.maxSize self = Infinity →
  ls !! LocalStorage.getFullKey self key = Some (TEntry e) →
  asArray (storedOrder self ls) = Ok order →
  isExpired e now = false →
  keeps key o = true →
  isRaised (localStorageStep self o now ls).2 = false →
  (localStorageStep self o now ls).1 !! LocalStorage.getFullKey self key
  = Some (TEntry e)
  ∧ ∃ order', asArray (storedOrder self (localStorageStep self o now ls).1)
              = Ok order'.
Proof.
  intros Hinf Hitem Hok Hlive Hkeeps.
  pose proof (ls_entry_is_not_the_index _ _ _ _ _ Hitem Hok) as Hne.
  assert (Hget : ∀ k,
    (LocalStorage.get self k now ls).1 !! LocalStorage.getFullKey self key
    = Some (TEntry e)
    ∧ ∃ order', asArray (storedOrder self (LocalStorage.get self k now ls).1)
                = Ok order').
  { intros k. destruct (decide (k = key)) as [->|Hk].
    - rewrite (ls_get_entry _ _ _ _ _ _ Hitem Hok), Hlive.
      rewrite afterUpdateAccessOrder_unbounded by done. cbn. split.
      + by rewrite lookup_insert_ne.
      + eexists. by rewrite storedOrder_insert_order.
    - destruct (ls_get_frame self k now ls order Hinf Hok)
        as (ls' & v & -> & Hok' & Hframe). cbn. split; [|done].
      rewrite Hframe; [done..|]. by intros ?%getFullKey_inj. }
  destruct o as [k|k v options|k| |k]; cbn in Hkeeps; cbn [localStorageStep].
  - intros _. specialize (Hget k).
    by destruct (LocalStorage.get self k now ls) as [ls' [v|err]].
  - apply bool_decide_eq_true in Hkeeps.
    destruct (LocalStorage.set self k v options now ls) as [ls' [[]|err]] eqn:Hset;
      cbn; [|discriminate].
    intros _.
    destruct (ls_set_Ok_inv _ _ _ _ _ _ _ _ Hset) as [Hne' [order0 Hok0]].
    rewrite (ls_set_spec _ _ _ _ _ _ order0 Hok0 Hne') in Hset.
    injection Hset as <-. rewrite afterUpdateAccessOrder_unbounded by done.
    split.
    + rewrite !lookup_insert_ne; [done|by intros ?%getFullKey_inj|done].
    + eexists. by rewrite storedOrder_insert_order.
  - apply bool_decide_eq_true in Hkeeps. intros _.
    destruct (ls_removeFromStorage_spec self k ls order Hok)
      as [order' [_ Hrm]].
    unfold LocalStorage.delete. rewrite Hrm. cbn. split.
    + rewrite lookup_insert_ne, lookup_delete_ne;
        [done|by intros ?%getFullKey_inj|done].
    + eexists. by rewrite storedOrder_insert_order.
  - discriminate.
  - intros _. specialize (Hget k). rewrite ls_has_eq.
    by destruct (LocalStorage.get self k now ls) as [ls' [v|err]].
Qed.

Lemma ls_run_keeps self key e ops ls order :
  LocalStorage.maxSize self = Infinity →
  ls !! LocalStorage.getFullKey self key = Some (TEntry e) →
  asArray (storedOrder self ls) = Ok order →
  Forall (λ x, keeps key x.1 = true ∧ isExpired e x.2 = false) ops →
  noneRaised (runLocalStorage self ops ls).2 = true →
  (runLocalStorage self ops ls).1 !! LocalStorage.getFullKey self key
  = Some (TEntry e)
  ∧ ∃ order', asArray (storedOrder self (runLocalStorage self ops ls).1)
              = Ok order'.
Proof.
  intros Hinf Hitem Hok Hops. revert ls order Hitem Hok.
  induction Hops as [|[o now] ops [Hkeeps Hlive] _ IH];
    intros ls order Hitem Hok; cbn.
  - eauto.
  - intros [Hr Hrs]%andb_true_iff. apply negb_true_iff in Hr.
    destruct (ls_step_keeps self key e o now ls order Hinf Hitem Hok Hlive
                Hkeeps Hr) as [Hitem1 [order1 Hok1]].
    by apply (IH _ order1).
Qed.

(** ** File names *)

Lemma string_length_app (s1 s2 : string) :
  String.length (s1 +:+ s2) = (String.length s1 + String.length s2)%nat.
Proof.
  induction s1 as [|c s1 IH]; [done|].
  change (S (String.length (s1 +:+ s2)) = S (String.length s1 + String.length s2)).
  by rewrite IH.
Qed.

Lemma string_app_inj_r (s1 s2 t : string) : s1 +:+ t = s2 +:+ t → s1 = s2.
Proof.
  revert s2. induction s1 as [|c s1 IH]; intros [|c' s2] Heq.
  - done.
  - apply (f_equal String.length) in Heq.
    rewrite !string_length_app in Heq. cbn in Heq. lia.
  - apply (f_equal String.length) in Heq.
    rewrite !string_length_app in Heq. cbn in Heq. lia.
  - change (String c (s1 +:+ t) = String c' (s2 +:+ t)) in Heq.
    injection Heq as -> Heq. f_equal. by apply IH.
Qed.

Lemma getFilePath_inj md5 k1 k2 :
  FileSystem.getFilePath md5 k1 = FileSystem.getFilePath md5 k2 →
  md5 k1 = md5 k2.
Proof. apply string_app_inj_r. Qed.

(** ** What the cleanup of the file adapter keeps *)

Lemma fs_cleanupStep_cases now validKeys file files d' r :
  FileSystem.cleanupStep now validKeys file (Some files) = (d', r) →
  (d' = Some files ∨ d' = Some (delete file files))
  ∧ ∀ e, files !! file = Some (TEntry e) → isExpired e now = false →
         d' = Some files
         ∧ r = Ok (validKeys ++ [FileSystem.replaceFirst ".json" "" file]).
Proof.
  unfold FileSystem.cleanupStep, tryCatch, bind, FileSystem.readFile,
    FileSystem.unlink, lift, ret.
  destruct (files !! file) as [t|] eqn:Hfile.
  - destruct t as [| | | |e|l]; cbn; rewrite ?Hfile; cbn;
      try (intros [= <- <-]; split; [tauto|]; intros ? [=]; done).
    destruct (isExpired e now) eqn:Hexp; rewrite ?Hfile; cbn.
    + intros [= <- <-]. split; [tauto|]. intros e' [= <-]. congruence.
    + intros [= <- <-]. split; [tauto|]. done.
  - rewrite Hfile. intros [= <- <-]. split; [tauto|]. done.
Qed.

Lemma fs_cleanupLoop_keeps now files_list validKeys files d' r :
  FileSystem.cleanupLoop now validKeys files_list (Some files) = (d', r) →
  ∃ files',
    d' = Some files'
    ∧ ∀ name t,
        files !! name = Some t →
        name ∉ files_list ∨ (∃ e, t = TEntry e ∧ isExpired e now = false) →
        files' !! name = Some t.
Proof.
  revert validKeys files. induction files_list as [|file rest IH];
    intros validKeys files; cbn.
  - intros [= <- <-]. eauto.
  - unfold bind at 1.
    destruct (FileSystem.cleanupStep now validKeys file (Some files))
      as [d1 r1] eqn:Hstep.
    destruct (fs_cleanupStep_cases _ _ _ _ _ _ Hstep) as [Hd1 Hlive].
    assert (Hkeep : ∃ files1,
      d1 = Some files1
      ∧ ∀ name t,
          files !! name = Some t →
          name ≠ file ∨ (∃ e, t = TEntry e ∧ isExpired e now = false) →
          files1 !! name = Some t).
    { destruct Hd1 as [->| ->].
      - exists files. eauto.
      - exists (delete file files). split; [done|].
        intros name t Hname [Hne|[e [-> He]]].
        + by rewrite lookup_delete_ne.
        + destruct (decide (name = file)) as [->|Hne].
          * destruct (Hlive e Hname He) as [Heq _].
            injection Heq as Heq. by rewrite Heq.
          * by rewrite lookup_delete_ne. }
    destruct Hkeep as (files1 & -> & Hkeep).
    destruct r1 as [validKeys1|err].
    + intros Hloop. destruct (IH _ _ Hloop) as (files' & -> & Hrest).
      exists files'. split; [done|]. intros name t Hname Hcond.
      apply Hrest.
      * apply Hkeep; [done|]. destruct Hcond as [Hnot|?]; [|by right].
        left. intros ->. apply Hnot, list_elem_of_here.
      * destruct Hcond as [Hnot|?]; [|by right].
        left. intros Hin. apply Hnot. by apply list_elem_of_further.
    + intros [= <- <-]. exists files1. split; [done|].
      intros name t Hname Hcond. apply Hkeep; [done|].
      destruct Hcond as [Hnot|?]; [|by right].
      left. intros ->. apply Hnot, list_elem_of_here.
Qed.

Lemma fs_evictLoop_unbounded self order d :
  FileSystem.maxSize self = Infinity →
  FileSystem.evictLoop self order d = (d, Ok order).
Proof. intros Hinf. destruct order; cbn; [done|]. by rewrite Hinf. Qed.

(** A [cleanup] that returns, in an adapter without a bound, has kept every
    file that holds an entry that is not expired, and has written an array
    to the index. *)
Lemma fs_cleanup_keeps self now files d' u :
  FileSystem.maxSize self = Infinity →
  FileSystem.cleanup self now (Some files) = (d', Ok u) →
  ∃ files' order,
    d' = Some (<[FileSystem.accessOrderFile := TOrder order]> files')
    ∧ ∀ name e,
        files !! name = Some (TEntry e) → isExpired e now = false →
        files' !! name = Some (TEntry e).
Proof.
  intros Hinf. unfold FileSystem.cleanup.
  erewrite bind_Ok by apply fs_ensureDirectory_eq.
  change (default ∅ (Some files)) with files.
  erewrite bind_Ok by reflexivity.
  erewrite bind_Ok by apply fs_getAccessOrder_eq.
  intros Hrest.
  apply bind_Ok_inv in Hrest as (d1 & validKeys & Hloop & Hrest).
  apply fs_cleanupLoop_keeps in Hloop as (files1 & -> & Hkeep).
  apply bind_Ok_inv in Hrest as (d2 & order0 & Harr & Hrest).
  unfold lift in Harr. injection Harr as <- _.
  rewrite bind_Ok with (s1 := Some files1)
    (a := FileSystem.addMissing (filter (λ key, key ∈ validKeys) order0) validKeys)
    in Hrest by (by apply fs_evictLoop_unbounded).
  rewrite fs_setAccessOrder_eq in Hrest. injection Hrest as <-.
  eexists files1, _. split; [reflexivity|].
  intros name e Hname He. apply Hkeep; [done|]. right. eauto.
Qed.

Lemma fs_set_keeps md5 self k v options now files d' u :
  FileSystem.maxSize self = Infinity →
  FileSystem.set md5 self k v options now (Some files) = (d', Ok u) →
  FileSystem.getFilePath md5 k ≠ FileSystem.accessOrderFile
  ∧ ∃ files' order,
      d' = Some (<[FileSystem.accessOrderFile := TOrder order]>
                   (<[FileSystem.getFilePath md5 k
                      := TEntry (newEntry v options now)]> files'))
      ∧ ∀ name e,
          name ≠ FileSystem.accessOrderFile →
          files !! name = Some (TEntry e) → isExpired e now = false →
          files' !! name = Some (TEntry e).
Proof.
  intros Hinf Hset.
  destruct (fs_set_Ok_inv _ _ _ _ _ _ _ _ _ Hset) as [Hne _].
  split; [done|]. unfold FileSystem.set in Hset.
  apply bind_Ok_inv in Hset as (d1 & [] & Hclean & Hset).
  destruct (fs_cleanup_keeps _ _ _ _ _ Hinf Hclean)
    as (files1 & order1 & -> & Hkeep).
  rewrite bind_Ok with (s1 := Some (<[FileSystem.accessOrderFile
                                       := TOrder order1]> files1))
    (a := JsArray order1) in Hset
    by (rewrite fs_getAccessOrder_eq; by rewrite indexedOrder_insert_order).
  unfold lift at 1 in Hset. unfold bind at 1 in Hset. cbn [asArray] in Hset.
  rewrite Hinf in Hset. cbn [ge_bound] in Hset. rewrite andb_false_r in Hset.
  erewrite bind_Ok in Hset by reflexivity.
  erewrite bind_Ok in Hset by reflexivity.
  rewrite fs_updateAccessOrder_eq in Hset.
  rewrite indexedOrder_insert_ne, indexedOrder_insert_order in Hset by done.
  cbn [asArray default] in Hset. injection Hset as <-.
  eexists _, _. split; [reflexivity|].
  intros name e Hname Hfile He. rewrite lookup_insert_ne by done. eauto.
Qed.

(** When the index holds an array, [get(k)] of the file adapter touches at
    most the file of [k] and the index. *)
Lemma fs_get_frame md5 k now files order :
  asArray (indexedOrder (Some files)) = Ok order →
  ∃ files' v,
    FileSystem.get md5 k now (Some files) = (Some files', Ok v)
    ∧ (∃ order', asArray (indexedOrder (Some files')) = Ok order')
    ∧ ∀ name,
        name ≠ FileSystem.accessOrderFile →
        name ≠ FileSystem.getFilePath md5 k →
        files' !! name = files !! name.
Proof.
  intros Hok.
  assert (Htouch : ∀ order',
    (∃ order'', asArray (indexedOrder (Some
       (<[FileSystem.accessOrderFile := TOrder order']> files))) = Ok order'')
    ∧ ∀ name,
        name ≠ FileSystem.accessOrderFile →
        name ≠ FileSystem.getFilePath md5 k →
        <[FileSystem.accessOrderFile := TOrder order']> files !! name
        = files !! name).
  { intros order'. split.
    - eexists. by rewrite indexedOrder_insert_order.
    - intros name Hn1 Hn2. by rewrite lookup_insert_ne. }
  destruct (files !! FileSystem.getFilePath md5 k) as [t|] eqn:Hfile.
  2:{ exists files, JUndefined. split; [|eauto].
      unfold FileSystem.get. erewrite bind_Ok by apply fs_ensureDirectory_eq.
      change (default ∅ (Some files)) with files.
      erewrite tryCatch_Throw; [reflexivity|].
      apply bind_Throw. unfold FileSystem.readFile. by rewrite Hfile. }
  assert (Hcase : (∃ e, t = TEntry e) ∨ ∀ e, t ≠ TEntry e)
    by (destruct t; eauto).
  destruct Hcase as [[e ->]|Hnot].
  { rewrite (fs_get_entry _ _ _ _ _ _ Hfile Hok).
    destruct (isExpired e now).
    - eexists _, _. split; [reflexivity|]. split.
      + eexists. by rewrite indexedOrder_insert_order.
      + intros name Hn1 Hn2. by rewrite lookup_insert_ne, lookup_delete_ne.
    - eexists _, _. split; [reflexivity|]. apply Htouch. }
  unfold FileSystem.get. erewrite bind_Ok by apply fs_ensureDirectory_eq.
  change (default ∅ (Some files)) with files.
  destruct t; try (by destruct (Hnot e)).
  - exists files, JUndefined. split; [|eauto].
    erewrite tryCatch_Throw; [reflexivity|].
    erewrite bind_Ok by (unfold FileSystem.readFile; rewrite Hfile; reflexivity).
    reflexivity.
  - exists files, JUndefined. split; [|eauto].
    erewrite tryCatch_Throw; [reflexivity|].
    erewrite bind_Ok by (unfold FileSystem.readFile; rewrite Hfile; reflexivity).
    reflexivity.
  - exists files, JUndefined. split; [|eauto].
    erewrite tryCatch_Throw; [reflexivity|].
    erewrite bind_Ok by (unfold FileSystem.readFile; rewrite Hfile; reflexivity).
    reflexivity.
  - eexists _, _. split; [|apply Htouch]. apply tryCatch_Ok.
    erewrite bind_Ok by (unfold FileSystem.readFile; rewrite Hfile; reflexivity).
    unfold lift at 1 2. unfold bind at 1 2. cbn [JSON_parse isExpiredJson].
    erewrite bind_Ok by (rewrite fs_updateAccessOrder_eq, Hok; reflexivity).
    reflexivity.
  - eexists _, _. split; [|apply Htouch]. apply tryCatch_Ok.
    erewrite bind_Ok by (unfold FileSystem.readFile; rewrite Hfile; reflexivity).
    unfold lift at 1 2. unfold bind at 1 2. cbn [JSON_parse isExpiredJson].
    erewrite bind_Ok by (rewrite fs_updateAccessOrder_eq, Hok; reflexivity).
    reflexivity.
Qed.

Lemma fs_delete_frame md5 k files order :
  asArray (indexedOrder (Some files)) = Ok order →
  ∃ files',
    FileSystem.delete md5 k (Some files) = (Some files', Ok tt)
    ∧ (∃ order', asArray (indexedOrder (Some files')) = Ok order')
    ∧ ∀ name,
        name ≠ FileSystem.accessOrderFile →
        name ≠ FileSystem.getFilePath md5 k →
        files' !! name = files !! name.
Proof.
  intros Hok.
  destruct (files !! FileSystem.getFilePath md5 k) as [t|] eqn:Hfile.
  - assert (Hok' : ∃ order',
      asArray (indexedOrder (Some (delete (FileSystem.getFilePath md5 k) files)))
      = Ok order').
    { destruct (decide (FileSystem.getFilePath md5 k
                        = FileSystem.accessOrderFile)) as [Heq|Hne].
      - exists []. unfold indexedOrder. rewrite Heq. by rewrite lookup_delete_eq.
      - exists order. by rewrite indexedOrder_delete_ne. }
    destruct Hok' as [order' Hok'].
    eexists. split; [|split].
    + unfold FileSystem.delete. apply tryCatch_Ok.
      erewrite bind_Ok by (unfold FileSystem.unlink; rewrite Hfile; reflexivity).
      erewrite bind_Ok by apply fs_getAccessOrder_eq.
      rewrite Hok'. unfold lift at 1. erewrite bind_Ok by reflexivity.
      apply fs_setAccessOrder_eq.
    + eexists. by rewrite indexedOrder_insert_order.
    + intros name Hn1 Hn2. cbn. by rewrite lookup_insert_ne, lookup_delete_ne.
  - exists files. split; [by apply fs_delete_absent|]. eauto.
Qed.

Lemma fs_entry_is_not_the_index name e files order :
  files !! name = Some (TEntry e) →
  asArray (indexedOrder (Some files)) = Ok order →
  name ≠ FileSystem.accessOrderFile.
Proof.
  intros Hfile Hok ->. rewrite (indexedOrder_entry e files Hfile) in Hok.
  discriminate.
Qed.

Lemma fs_step_keepsFile md5 self key e o now files order :
  FileSystem.maxSize self = Infinity →
  files !! FileSystem.getFilePath md5 key = Some (TEntry e) →
  asArray (indexedOrder (Some files)) = Ok order →
  isExpired e now = false →
  keepsFile md5 key o = true →
  isRaised (fileSystemStep md5 self o now (Some files)).2 = false →
  ∃ files' order',
    (fileSystemStep md5 self o now (Some files)).1 = Some files'
    ∧ files' !! FileSystem.getFilePath md5 key = Some (TEntry e)
    ∧ asArray (indexedOrder (Some files')) = Ok order'.
Proof.
  intros Hinf Hfile Hok Hlive Hkeeps.
  pose proof (fs_entry_is_not_the_index _ _ _ _ Hfile Hok) as Hne.
  assert (Hother : ∀ k, md5 k ≠ md5 key →
    FileSystem.getFilePath md5 key ≠ FileSystem.getFilePath md5 k).
  { intros k Hk Heq. by apply getFilePath_inj in Heq. }
  assert (Hget : ∀ k, ∃ files' order' v,
    FileSystem.get md5 k now (Some files) = (Some files', Ok v)
    ∧ files' !! FileSystem.getFilePath md5 key = Some (TEntry e)
    ∧ asArray (indexedOrder (Some files')) = Ok order').
  { intros k.
    destruct (decide (FileSystem.getFilePath md5 k
                      = FileSystem.getFilePath md5 key)) as [Heq|Hk].
    - assert (Hfile' : files !! FileSystem.getFilePath md5 k = Some (TEntry e))
        by (by rewrite Heq).
      rewrite (fs_get_entry _ _ _ _ _ _ Hfile' Hok), Hlive.
      eexists _, _, _. split; [reflexivity|]. split.
      + by rewrite lookup_insert_ne.
      + by rewrite indexedOrder_insert_order.
    - destruct (fs_get_frame md5 k now files order Hok)
        as (files' & v & -> & [order' Hok'] & Hframe).
      exists files', order', v. split; [done|]. split; [|done].
      rewrite Hframe; [done..|]. by intros ?. }
  destruct o as [k|k v options|k| |k]; cbn in Hkeeps; cbn [fileSystemStep].
  - intros _. destruct (Hget k) as (files' & order' & v & -> & ? & ?).
    cbn. eauto.
  - apply bool_decide_eq_true in Hkeeps.
    destruct (FileSystem.set md5 self k v options now (Some files))
      as [d' [[]|err]] eqn:Hset; cbn; [|discriminate].
    intros _.
    destruct (fs_set_keeps _ _ _ _ _ _ _ _ _ Hinf Hset)
      as (Hne' & files' & order' & -> & Hkeep).
    eexists _, order'. split; [reflexivity|]. split.
    + rewrite !lookup_insert_ne; [by apply Hkeep| |done].
      intros Heq. by apply (Hother k).
    + by rewrite lookup_insert_eq.
  - apply bool_decide_eq_true in Hkeeps. intros _.
    destruct (fs_delete_frame md5 k files order Hok)
      as (files' & -> & [order' Hok'] & Hframe).
    cbn. exists files', order'. split; [done|]. split; [|done].
    rewrite Hframe; [done..|]. by apply Hother.
  - discriminate.
  - intros _. rewrite fs_has_eq.
    destruct (Hget k) as (files' & order' & v & -> & ? & ?).
    cbn. eauto.
Qed.

Lemma fs_run_keepsFile md5 self key e ops files order :
  FileSystem.maxSize self = Infinity →
  files !! FileSystem.getFilePath md5 key = Some (TEntry e) →
  asArray (indexedOrder (Some files)) = Ok order →
  Forall (λ x, keepsFile md5 key x.1 = true ∧ isExpired e x.2 = false) ops →
  noneRaised (runFileSystem md5 self ops (Some files)).2 = true →
  ∃ files' order',
    (runFileSystem md5 self ops (Some files)).1 = Some files'
    ∧ files' !! FileSystem.getFilePath md5 key = Some (TEntry e)
    ∧ asArray (indexedOrder (Some files')) = Ok order'.
Proof.
  intros Hinf Hfile Hok Hops. revert files order Hfile Hok.
  induction Hops as [|[o now] ops [Hkeeps Hlive] _ IH];
    intros files order Hfile Hok; cbn.
  - eauto.
  - intros [Hr Hrs]%andb_true_iff. apply negb_true_iff in Hr.
    destruct (fs_step_keepsFile md5 self key e o now files order Hinf Hfile
                Hok Hlive Hkeeps Hr) as (files1 & order1 & Heq & Hfile1 & Hok1).
    rewrite Heq in Hrs |- *. by apply (IH _ order1).
Qed.

(** The digests of the examples are those of MD5. *)
Lemma md5_examples_digests :
  Forall (λ k, md5_examples k = Crypto.md5 k) ["A"; "B"; "C"; "k"; ""].
Proof. repeat (apply Forall_cons; split; [vm_compute; reflexivity|]). done. Qed.

(** The two keys of the example are different and have one digest. *)
Lemma collidingKeys_digest :
  collidingKey1 ≠ collidingKey2
  ∧ Crypto.md5 collidingKey1 = "faad49866e9498fc1719f5289e7a0269"
  ∧ Crypto.md5 collidingKey2 = "faad49866e9498fc1719f5289e7a0269".
Proof. split; [discriminate|]. split; vm_compute; reflexivity. Qed.

(** C9, as stated, on the file adapter built with the capacity bound 0: two
    keys with one MD5 digest share a file, so the second [set] replaces the
    entry of the first key, which has neither expired nor been deleted, and
    [get] of the first key does not return the value set for it. *)
Lemma fileSystem_zero_capacity_loses_a_colliding_key :
  ¬ (∀ dir,
       runFileSystem Crypto.md5 (FileSystem.new (withMaxSize 0))
         [ (OpSet collidingKey1 (JStr "a") None, 0);
           (OpSet collidingKey2 (JStr "b") None, 1) ] None
       = (dir, [Done; Done]) →
       (FileSystem.get Crypto.md5 collidingKey1 2 dir).2 = Ok (JStr "a")).
Proof.
  intros H.
  pose (run := runFileSystem Crypto.md5 (FileSystem.new (withMaxSize 0))
                 [ (OpSet collidingKey1 (JStr "a") None, 0);
                   (OpSet collidingKey2 (JStr "b") None, 1) ] None).
  assert (Hdone : run.2 = [Done; Done]) by (vm_compute; reflexivity).
  assert (Hget : (FileSystem.get Crypto.md5 collidingKey1 2 run.1).2
                 = Ok (JStr "b")) by (vm_compute; reflexivity).
  rewrite H in Hget; [discriminate|].
  rewrite <- Hdone. apply surjective_pairing.
Qed.

(** C9: a capacity bound of 0 is replaced by [Infinity], and an adapter built
    with it keeps every key it has set: after a [set(key, v)] that returns,
    and after any later operations that return, do not clear the cache, run
    before the entry expires and whose [set] and [delete] use other keys
    than [key] (in the file adapter: keys with another digest than [key]),
    [get(key)] returns [v]. *)
Theorem zero_capacity_is_unbounded (key : string) (v : jsval)
  (setOptions : option CacheOptions) (t0 : Z) (d : option Z)
  (ops : list (op * Z)) (now : Z) :
  let adapterOptions := Some {| ttl := d; Types.maxSize := Some 0%nat |} in
  let e := newEntry v setOptions t0 in
  Forall (λ x, keeps key x.1 = true ∧ isExpired e x.2 = false) ops →
  isExpired e now = false →
  maxSizeOrInfinity adapterOptions = Infinity
  ∧ (∀ self self1,
       Memory.maxSize self = maxSizeOrInfinity adapterOptions →
       Memory.set key v setOptions t0 self = Some self1 →
       ∃ self2 rs,
         runMemory ops self1 = Some (self2, rs)
         ∧ (Memory.get key now self2).2 = v)
  ∧ (∀ prefix ls ls1,
       let self := LocalStorage.new adapterOptions prefix in
       LocalStorage.set self key v setOptions t0 ls = (ls1, Ok tt) →
       noneRaised (runLocalStorage self ops ls1).2 = true →
       (LocalStorage.get self key now (runLocalStorage self ops ls1).1).2
       = Ok v)
  ∧ (∀ md5 dir dir1,
       Forall (λ x, keepsFile md5 key x.1 = true) ops →
       let self := FileSystem.new adapterOptions in
       FileSystem.set md5 self key v setOptions t0 dir = (dir1, Ok tt) →
       noneRaised (runFileSystem md5 self ops dir1).2 = true →
       (FileSystem.get md5 key now (runFileSystem md5 self ops dir1).1).2
       = Ok v).
Proof.
  intros adapterOptions e Hops Hnow. split; [reflexivity|]. split_and!.
  - intros self self1 Hinf Hset.
    change (maxSizeOrInfinity adapterOptions) with Infinity in Hinf.
    rewrite (memory_set_unbounded _ _ _ _ _ Hinf) in Hset.
    injection Hset as <-.
    destruct (memory_run_keeps key e ops
                {| Memory.store := <[key := e]> (liveStore t0 self);
                   Memory.maxSize := Infinity;
                   Memory.accessOrder := moveToTail key (liveOrder t0 self) |}
                eq_refl (lookup_insert_eq _ _ _) Hops)
      as (self2 & rs & Hrun & He).
    exists self2, rs. split; [done|].
    by rewrite (memory_get_entry _ _ _ _ He), Hnow.
  - intros prefix ls ls1 self Hset Hraised.
    assert (Hinf : LocalStorage.maxSize self = Infinity) by reflexivity.
    destruct (ls_set_Ok_inv _ _ _ _ _ _ _ _ Hset) as [Hne [order0 Hok]].
    rewrite (ls_set_spec _ _ _ _ _ _ order0 Hok Hne) in Hset.
    injection Hset as <-.
    rewrite afterUpdateAccessOrder_unbounded in Hraised |- * by done.
    match goal with |- context [runLocalStorage self ops ?s] =>
      set (ls1 := s) in * end.
    assert (Hitem : ls1 !! LocalStorage.getFullKey self key = Some (TEntry e)).
    { unfold ls1. rewrite lookup_insert_ne by done. apply lookup_insert_eq. }
    assert (Hok1 : asArray (storedOrder self ls1)
                   = Ok (moveToTail key order0)).
    { unfold ls1. by rewrite storedOrder_insert_order. }
    destruct (ls_run_keeps self key e ops ls1 _ Hinf Hitem Hok1 Hops Hraised)
      as [Hitem2 [order2 Hok2]].
    by rewrite (ls_get_entry _ _ _ _ _ _ Hitem2 Hok2), Hnow.
  - intros md5 dir dir1 Hfiles self Hset Hraised.
    assert (Hinf : FileSystem.maxSize self = Infinity) by reflexivity.
    assert (Hops' : Forall (λ x, keepsFile md5 key x.1 = true
                                 ∧ isExpired e x.2 = false) ops).
    { apply Forall_forall. intros x Hx. split.
      - by apply (proj1 (Forall_forall _ _) Hfiles).
      - by apply (proj1 (Forall_forall _ _) Hops). }
    destruct (fs_set_Ok_inv _ _ _ _ _ _ _ _ _ Hset)
      as [Hne [files [order ->]]].
    match goal with |- context [runFileSystem md5 self ops (Some ?s)] =>
      set (files1 := s) in * end.
    assert (Hfile : files1 !! FileSystem.getFilePath md5 key = Some (TEntry e)).
    { unfold files1. rewrite lookup_insert_ne by done. apply lookup_insert_eq. }
    assert (Hok1 : asArray (indexedOrder (Some files1)) = Ok order).
    { unfold files1. by rewrite indexedOrder_insert_order. }
    destruct (fs_run_keepsFile md5 self key e ops files1 order Hinf Hfile Hok1
                Hops' Hraised) as (files2 & order2 & -> & Hfile2 & Hok2).
    by rewrite (fs_get_entry _ _ _ _ _ _ Hfile2 Hok2), Hnow.
Qed.

Lemma zero_capacity_is_unbounded_witness :
  let e := newEntry (JStr "a") None 0 in
  Forall (λ x, keeps "A" x.1 = true ∧ isExpired e x.2 = false) laterOperations
  ∧ isExpired e 9 = false
  ∧ (∃ self1 self2 rs,
       Memory.set "A" (JStr "a") None 0 (Memory.new (withMaxSize 0))
       = Some self1
       ∧ runMemory laterOperations self1 = Some (self2, rs)
       ∧ (Memory.get "A" 9 self2).2 = JStr "a")
  ∧ (∃ ls1,
       let self := LocalStorage.new (withMaxSize 0) (Some "test:") in
       LocalStorage.set self "A" (JStr "a") None 0 ∅ = (ls1, Ok tt)
       ∧ noneRaised (runLocalStorage self laterOperations ls1).2 = true
       ∧ (LocalStorage.get self "A" 9
            (runLocalStorage self laterOperations ls1).1).2 = Ok (JStr "a"))
  ∧ (∃ dir1,
       let self := FileSystem.new (withMaxSize 0) in
       Forall (λ x, keepsFile Crypto.md5 "A" x.1 = true) laterOperations
       ∧ FileSystem.set Crypto.md5 self "A" (JStr "a") None 0 None
         = (dir1, Ok tt)
       ∧ noneRaised (runFileSystem Crypto.md5 self laterOperations dir1).2
         = true
       ∧ (FileSystem.get Crypto.md5 "A" 9
            (runFileSystem Crypto.md5 self laterOperations dir1).1).2
         = Ok (JStr "a")).
Proof.
  intros e.
  assert (Hops : Forall (λ x, keeps "A" x.1 = true ∧ isExpired e x.2 = false)
                   laterOperations).
  { unfold laterOperations. repeat (apply Forall_cons; split; [by split|]).
    apply Forall_nil_2. }
  assert (Hnow : isExpired e 9 = false) by reflexivity.
  pose proof (zero_capacity_is_unbounded "A" (JStr "a") None 0 None
                laterOperations 9 Hops Hnow) as (_ & Hmem & Hls & Hfs).
  split; [exact Hops|]. split; [exact Hnow|]. split_and!.
  - destruct (Memory.set "A" (JStr "a") None 0 (Memory.new (withMaxSize 0)))
      as [self1|] eqn:Hset; [|vm_compute in Hset; discriminate].
    destruct (Hmem (Memory.new (withMaxSize 0)) self1 eq_refl Hset)
      as (self2 & rs & Hrun & Hget).
    by exists self1, self2, rs.
  - destruct (LocalStorage.set (LocalStorage.new (withMaxSize 0) (Some "test:"))
                "A" (JStr "a") None 0 ∅) as [ls1 [[]|err]] eqn:Hset;
      [|vm_compute in Hset; discriminate].
    exists ls1. cbv zeta.
    assert (Hraised : noneRaised
              (runLocalStorage (LocalStorage.new (withMaxSize 0) (Some "test:"))
                 laterOperations ls1).2 = true).
    { vm_compute in Hset. injection Hset as <-. vm_compute. reflexivity. }
    split; [exact Hset|]. split; [exact Hraised|].
    exact (Hls (Some "test:") ∅ ls1 Hset Hraised).
  - pose (self := FileSystem.new (withMaxSize 0)).
    pose (first := FileSystem.set Crypto.md5 self "A" (JStr "a") None 0 None).
    assert (Hfiles : Forall (λ x, keepsFile Crypto.md5 "A" x.1 = true)
                       laterOperations).
    { unfold laterOperations.
      repeat (apply Forall_cons; split; [vm_compute; reflexivity|]).
      apply Forall_nil_2. }
    assert (Hok : first.2 = Ok tt) by (vm_compute; reflexivity).
    assert (Hset : first = (first.1, Ok tt))
      by (rewrite <- Hok; apply surjective_pairing).
    assert (Hraised : noneRaised
              (runFileSystem Crypto.md5 self laterOperations first.1).2 = true)
      by (vm_compute; reflexivity).
    exists first.1. cbv zeta.
    split; [exact Hfiles|]. split; [exact Hset|].
    split; [exact Hraised|].
    exact (Hfs Crypto.md5 None first.1 Hfiles Hset Hraised).
Defined.

(** ** The last elements of a list *)








(** ** Entries that never expire *)

Lemma expiryFor_noTtl options now : noTtl options = true → expiryFor options now = None.
Proof.
  unfold noTtl, expiryFor. destruct options as [[[d|] ?]|]; cbn; try done.
  intros Hd%bool_decide_eq_true. by rewrite decide_True.
Qed.


Lemma liveStore_all now self :
  (∀ k e, Memory.store self !! k = Some e → isExpired e now = false) →
  liveStore now self = Memory.store self.
Proof.
  intros Hlive. unfold liveStore. apply map_filter_id.
  intros k e He. cbn. by apply (Hlive k).
Qed.

Lemma filter_all {A : Type} (P : A → Prop) `{!∀ x, Decision (P x)} (l : list A) :
  (∀ x, x ∈ l → P x) → filter P l = l.
Proof.
  induction l as [|x l IH]; intros Hall; [done|].
  rewrite filter_cons_True by apply Hall, list_elem_of_here.
  rewrite IH; [done|]. intros y Hy. by apply Hall, list_elem_of_further.
Qed.



(** ** Runs of [set] on the volatile adapter *)




(** ** Runs of [set] on the key/value adapter *)


Lemma ls_new_fullKey_ne options prefix k :
  k ≠ "__access_order" →
  LocalStorage.getFullKey (LocalStorage.new options prefix) k
  ≠ LocalStorage.accessOrderKey (LocalStorage.new options prefix).
Proof.
  intros Hk Heq. apply Hk. unfold LocalStorage.getFullKey in Heq.
  by apply String.app_inj in Heq.
Qed.


Lemma ls_get_absent self k now ls :
  ls !! LocalStorage.getFullKey self k = None →
  LocalStorage.get self k now ls = (ls, Ok JUndefined).
Proof.
  intros Hitem. unfold LocalStorage.get.
  erewrite bind_Ok by (unfold LocalStorage.getItem; reflexivity).
  by rewrite Hitem.
Qed.


(** ** Digests as file names *)





(** ** The reconciliation of the access order in [FileSystem.cleanup] *)

Lemma addMissing_nil updatedOrder : FileSystem.addMissing updatedOrder [] = updatedOrder.
Proof. reflexivity. Qed.




(** ** [FileSystem.cleanup] on a directory without stale files *)





(** ** Runs of [set] on the file adapter *)















Lemma fs_get_absent md5 k now d :
  default ∅ d !! FileSystem.getFilePath md5 k = None →
  FileSystem.get md5 k now d = (Some (default ∅ d), Ok JUndefined).
Proof.
  intros Hfile. unfold FileSystem.get.
  erewrite bind_Ok by apply fs_ensureDirectory_eq.
  erewrite tryCatch_Throw; [reflexivity|].
  apply bind_Throw. unfold FileSystem.readFile. by rewrite Hfile.
Qed.

(** ** The bound of a cache *)


(** A first key that is the empty string is not evicted by the volatile
    adapter with bound 2, and the next [set] does not end. *)
Lemma memory_empty_key_is_not_evicted :
  ∃ self,
    runMemory (asSets emptyKeyWrites) (Memory.new (withMaxSize 2))
    = Some (self, [Done; Done; Done])
    ∧ (Memory.get "" 3 self).2 = JStr "e"
    ∧ Memory.set "D" (JStr "d") None 4 self = None.
Proof.
  destruct (runMemory (asSets emptyKeyWrites) (Memory.new (withMaxSize 2)))
    as [[self rs]|] eqn:Hrun; [|vm_compute in Hrun; discriminate].
  exists self. vm_compute in Hrun. injection Hrun as <- <-.
  split; [reflexivity|]. split; vm_compute; reflexivity.
Qed.

(** The file adapter evicts the oldest file when it overwrites a key that is
    present: with bound 2, after set(A), set(B) and a second set(B), the key
    A is a miss. *)
Lemma fileSystem_overwrite_evicts :
  (runFileSystem md5_examples (FileSystem.new (withMaxSize 2))
     [ (OpSet "A" (JStr "a") None, 0); (OpSet "B" (JStr "b") None, 1);
       (OpSet "B" (JStr "b2") None, 2); (OpGet "A", 3); (OpGet "B", 4) ]
     None).2
  = [Done; Done; Done; Value JUndefined; Value (JStr "b2")].
Proof. vm_compute. reflexivity. Qed.



(** * Further properties of the adapters *)

(** ** The volatile adapter *)

Lemma memory_step_returns o now self :
  consistent self →
  ∃ self' r,
    memoryStep o now self = Some (self', r)
    ∧ Memory.maxSize self' = Memory.maxSize self.
Proof.
  intros Hc. destruct o as [key|key v options|key| |key]; cbn.
  - eexists _, _. split; [done|]. unfold Memory.get.
    destruct (Memory.store self !! key) as [e|]; [|done].
    by destruct (isExpired e now).
  - destruct (memory_set_consistent key v options now self Hc)
      as (s & -> & Hmax & _).
    by eexists _, _.
  - by eexists _, _.
  - by eexists _, _.
  - eexists _, _. split; [done|]. unfold Memory.has.
    destruct (Memory.store self !! key) as [e|]; [|done].
    by destruct (isExpired e now).
Qed.

Lemma memory_run_returns ops self :
  consistent self → forallb (λ x, truthyOp x.1) ops = true →
  ∃ self' rs,
    runMemory ops self = Some (self', rs)
    ∧ length rs = length ops
    ∧ Memory.maxSize self' = Memory.maxSize self
    ∧ consistent self'.
Proof.
  revert self. induction ops as [|[o now] ops IH]; intros self Hc Hops.
  - by exists self, [].
  - cbn in Hops. apply andb_true_iff in Hops as [Ho Hops].
    destruct (memory_step_returns o now self Hc) as (s1 & r & Hstep & Hmax1).
    pose proof (consistent_step _ _ _ _ _ Hc Ho Hstep) as Hc1.
    destruct (IH s1 Hc1 Hops) as (s2 & rs & Hrun & Hlen & Hmax2 & Hc2).
    exists s2, (r :: rs). cbn. rewrite Hstep, Hrun.
    split_and!; [done|by rewrite Hlen|congruence|done].
Qed.

(** X1: every operation of the volatile adapter returns, as long as no entry is
    written under the empty string, and after any number of them, from a
    new adapter, the access order lists the keys of the store, each once,
    and the store holds at most [maxSize] entries. *)
Theorem memory_run_invariant (options : option CacheOptions)
  (ops : list (op * Z)) :
  forallb (λ x, truthyOp x.1) ops = true →
  ∃ self rs,
    runMemory ops (Memory.new options) = Some (self, rs)
    ∧ length rs = length ops
    ∧ NoDup (Memory.accessOrder self)
    ∧ (∀ k, k ∈ Memory.accessOrder self ↔ is_Some (Memory.store self !! k))
    ∧ match maxSizeOrInfinity options with
      | Fin n => (size (Memory.store self) ≤ n)%nat
      | Infinity => True
      end.
Proof.
  intros Hops.
  destruct (memory_run_returns ops (Memory.new options) (consistent_new options)
              Hops) as (self & rs & Hrun & Hlen & Hmax & Hc).
  exists self, rs. split_and!; [done|done|apply (order_NoDup _ Hc)| |].
  - apply (order_dom _ Hc).
  - pose proof (within_bound _ Hc) as Hb. rewrite Hmax in Hb. cbn in Hb.
    destruct (maxSizeOrInfinity options) as [n|]; [|done].
    cbn in Hb. apply bool_decide_eq_false in Hb. lia.
Qed.

Lemma memory_run_invariant_witness :
  ∃ self rs,
    runMemory [ (OpSet "A" (JStr "a") None, 0); (OpSet "B" (JStr "b") None, 1);
                (OpGet "A", 2); (OpSet "C" (JStr "c") None, 3) ]
      (Memory.new (withMaxSize 2)) = Some (self, rs)
    ∧ length rs = 4%nat
    ∧ NoDup (Memory.accessOrder self)
    ∧ (∀ k, k ∈ Memory.accessOrder self ↔ is_Some (Memory.store self !! k))
    ∧ (size (Memory.store self) ≤ 2)%nat.
Proof.
  exact (memory_run_invariant (withMaxSize 2)
           [ (OpSet "A" (JStr "a") None, 0); (OpSet "B" (JStr "b") None, 1);
             (OpGet "A", 2); (OpSet "C" (JStr "c") None, 3) ] eq_refl).
Defined.







(** ** Reads after [delete], of an expired entry, after [clear] *)

Lemma fs_delete_eq md5 key d :
  FileSystem.delete md5 key d =
  match d with
  | Some files =>
      match files !! FileSystem.getFilePath md5 key with
      | Some _ =>
          let files1 := delete (FileSystem.getFilePath md5 key) files in
          match asArray (indexedOrder (Some files1)) with
          | Ok order =>
              (Some (<[FileSystem.accessOrderFile := TOrder (without key order)]>
                       files1), Ok tt)
          | Throw _ => (Some files1, Ok tt)
          end
      | None => (d, Ok tt)
      end
  | None => (None, Ok tt)
  end.
Proof.
  unfold FileSystem.delete, tryCatch, bind, FileSystem.unlink.
  destruct d as [files|]; [|done].
  destruct (files !! FileSystem.getFilePath md5 key) as [t|]; [|done].
  rewrite fs_getAccessOrder_eq. unfold lift.
  destruct (asArray _) as [order|err]; [|done].
  by rewrite fs_setAccessOrder_eq.
Qed.

(** X3: after [delete(key)] the key is a miss for [get] and [has], which then
    change nothing, and no other entry has been touched; in the key/value
    adapter also when [delete] has raised. *)
Theorem delete_makes_the_key_a_miss (key : string) (now : Z) :
  (∀ self,
     let self' := Memory.delete key self in
     Memory.get key now self' = (self', JUndefined)
     ∧ Memory.has key now self' = (self', false)
     ∧ ∀ k, k ≠ key → Memory.store self' !! k = Memory.store self !! k)
  ∧ (∀ self ls,
       LocalStorage.getFullKey self key ≠ LocalStorage.accessOrderKey self →
       let ls' := (LocalStorage.delete self key ls).1 in
       LocalStorage.get self key now ls' = (ls', Ok JUndefined)
       ∧ LocalStorage.has self key now ls' = (ls', Ok false)
       ∧ ∀ name, name ≠ LocalStorage.getFullKey self key →
                 name ≠ LocalStorage.accessOrderKey self →
                 ls' !! name = ls !! name)
  ∧ (∀ md5 d,
       FileSystem.getFilePath md5 key ≠ FileSystem.accessOrderFile →
       let d' := (FileSystem.delete md5 key d).1 in
       FileSystem.delete md5 key d = (d', Ok tt)
       ∧ FileSystem.get md5 key now d' = (Some (default ∅ d'), Ok JUndefined)
       ∧ FileSystem.has md5 key now d' = (Some (default ∅ d'), Ok false)
       ∧ ∀ name, name ≠ FileSystem.getFilePath md5 key →
                 name ≠ FileSystem.accessOrderFile →
                 default ∅ d' !! name = default ∅ d !! name).
Proof.
  split_and!.
  - intros self self'. unfold Memory.get, Memory.has. cbn.
    rewrite lookup_delete_eq. split_and!; [done..|].
    intros k Hk. by rewrite lookup_delete_ne.
  - intros self ls Hne ls'.
    assert (Habsent : ls' !! LocalStorage.getFullKey self key = None).
    { unfold ls', LocalStorage.delete. rewrite ls_removeFromStorage_eq.
      cbv zeta. destruct (asArray _); cbn.
      - rewrite lookup_insert_ne by done. apply lookup_delete_eq.
      - apply lookup_delete_eq. }
    split_and!.
    + by apply ls_get_absent.
    + rewrite ls_has_eq, ls_get_absent by done. done.
    + intros name Hname Hindex. unfold ls', LocalStorage.delete.
      rewrite ls_removeFromStorage_eq. cbv zeta. destruct (asArray _); cbn.
      * rewrite lookup_insert_ne by done. by rewrite lookup_delete_ne.
      * by rewrite lookup_delete_ne.
  - intros md5 d Hne d'.
    assert (Hdel : FileSystem.delete md5 key d = (d', Ok tt)).
    { unfold d'. rewrite fs_delete_eq. destruct d as [files|]; [|done].
      destruct (files !! _); [|done]. cbv zeta. by destruct (asArray _). }
    assert (Habsent : default ∅ d' !! FileSystem.getFilePath md5 key = None).
    { unfold d'. rewrite fs_delete_eq. destruct d as [files|]; [|done].
      destruct (files !! _) eqn:Hfile; [|done]. cbv zeta.
      destruct (asArray _); cbn.
      - rewrite lookup_insert_ne by done. apply lookup_delete_eq.
      - apply lookup_delete_eq. }
    split_and!; [done| | |].
    + by apply fs_get_absent.
    + rewrite fs_has_eq, fs_get_absent by done. done.
    + intros name Hname Hindex. unfold d'. rewrite fs_delete_eq.
      destruct d as [files|]; [|done].
      destruct (files !! _) eqn:Hfile; [|done]. cbv zeta.
      destruct (asArray _); cbn.
      * rewrite lookup_insert_ne by done. by rewrite lookup_delete_ne.
      * by rewrite lookup_delete_ne.
Qed.

Lemma delete_makes_the_key_a_miss_witness :
  let e := newEntry (JStr "a") None 0 in
  (let adapter := LocalStorage.new None None in
   let ls := <["cache:__access_order" := TOrder ["A"]]>
               (<["cache:A" := TEntry e]> ∅) in
   LocalStorage.getFullKey adapter "A" ≠ LocalStorage.accessOrderKey adapter
   ∧ LocalStorage.get adapter "A" 5 (LocalStorage.delete adapter "A" ls).1
     = (<["cache:__access_order" := TOrder []]> ∅, Ok JUndefined))
  ∧ (let d := Some (<["__access_order.json" := TOrder ["A"]]>
                     (<[FileSystem.getFilePath md5_examples "A" := TEntry e]> ∅)) in
     FileSystem.getFilePath md5_examples "A" ≠ FileSystem.accessOrderFile
     ∧ FileSystem.get md5_examples "A" 5
         (FileSystem.delete md5_examples "A" d).1
       = (Some (<["__access_order.json" := TOrder []]> ∅), Ok JUndefined)).
Proof.
  intros e.
  pose proof (delete_makes_the_key_a_miss "A" 5) as (_ & Hls & Hfs).
  split.
  - intros adapter ls.
    assert (Hne : LocalStorage.getFullKey adapter "A"
                  ≠ LocalStorage.accessOrderKey adapter)
      by (vm_compute; discriminate).
    split; [exact Hne|].
    destruct (Hls adapter ls Hne) as [Hget _]. rewrite Hget.
    vm_compute. reflexivity.
  - intros d.
    assert (Hne : FileSystem.getFilePath md5_examples "A"
                  ≠ FileSystem.accessOrderFile)
      by (vm_compute; discriminate).
    split; [exact Hne|].
    destruct (Hfs md5_examples d Hne) as (_ & Hget & _). rewrite Hget.
    vm_compute. reflexivity.
Defined.

(** X4: reading an entry that has expired does what [delete] does, and returns
    a miss. *)
Theorem reading_an_expired_entry_deletes_it (key : string) (e : CacheEntry)
  (now : Z) :
  isExpired e now = true →
  (∀ self,
     Memory.store self !! key = Some e →
     Memory.get key now self = (Memory.delete key self, JUndefined)
     ∧ Memory.has key now self = (Memory.delete key self, false))
  ∧ (∀ self ls order,
       ls !! LocalStorage.getFullKey self key = Some (TEntry e) →
       asArray (storedOrder self ls) = Ok order →
       LocalStorage.delete self key ls
       = (<[LocalStorage.accessOrderKey self := TOrder (without key order)]>
            (delete (LocalStorage.getFullKey self key) ls), Ok tt)
       ∧ LocalStorage.get self key now ls
         = ((LocalStorage.delete self key ls).1, Ok JUndefined)
       ∧ LocalStorage.has self key now ls
         = ((LocalStorage.delete self key ls).1, Ok false))
  ∧ (∀ md5 files,
       files !! FileSystem.getFilePath md5 key = Some (TEntry e) →
       FileSystem.get md5 key now (Some files)
       = ((FileSystem.delete md5 key (Some files)).1, Ok JUndefined)
       ∧ FileSystem.has md5 key now (Some files)
         = ((FileSystem.delete md5 key (Some files)).1, Ok false)).
Proof.
  intros Hexp. split_and!.
  - intros self He. unfold Memory.get, Memory.has, Memory.delete.
    by rewrite He, Hexp.
  - intros self ls order Hitem Hok.
    assert (Hne : LocalStorage.getFullKey self key
                  ≠ LocalStorage.accessOrderKey self).
    { intros Heq. rewrite Heq in Hitem.
      by rewrite (storedOrder_entry _ _ _ Hitem) in Hok. }
    assert (Hdel : LocalStorage.delete self key ls
                   = (<[LocalStorage.accessOrderKey self
                        := TOrder (without key order)]>
                        (delete (LocalStorage.getFullKey self key) ls), Ok tt)).
    { unfold LocalStorage.delete. rewrite ls_removeFromStorage_eq. cbv zeta.
      by rewrite storedOrder_delete_ne, Hok. }
    rewrite ls_has_eq, (ls_get_entry _ _ _ _ _ _ Hitem Hok), Hexp, Hdel.
    done.
  - intros md5 files Hfile.
    assert (Hget : FileSystem.get md5 key now (Some files)
                   = ((FileSystem.delete md5 key (Some files)).1, Ok JUndefined)).
    { rewrite fs_delete_eq, Hfile. cbv zeta.
      unfold FileSystem.get, bind, tryCatch.
      rewrite fs_ensureDirectory_eq. cbn [default from_option id].
      unfold FileSystem.readFile. rewrite Hfile. cbn. rewrite Hexp.
      unfold FileSystem.unlink. rewrite Hfile.
      rewrite fs_getAccessOrder_eq. unfold lift.
      destruct (asArray _) as [order|err]; [|done].
      by rewrite fs_setAccessOrder_eq. }
    by rewrite fs_has_eq, Hget.
Qed.

Lemma reading_an_expired_entry_deletes_it_witness :
  let e := newEntry (JStr "a") (withTtl 10) 0 in
  isExpired e 20 = true
  ∧ (let self := {| Memory.store := <["A" := e]> ∅; Memory.maxSize := Infinity;
                    Memory.accessOrder := ["A"] |} in
     Memory.get "A" 20 self
     = ({| Memory.store := delete "A" (<["A" := e]> ∅);
           Memory.maxSize := Infinity; Memory.accessOrder := [] |}, JUndefined))
  ∧ (let adapter := LocalStorage.new None None in
     let ls := <["cache:__access_order" := TOrder ["A"; "B"]]>
                 (<["cache:A" := TEntry e]> ∅) in
     (LocalStorage.get adapter "A" 20 ls).1 !! "cache:__access_order"
     = Some (TOrder ["B"])
     ∧ (LocalStorage.get adapter "A" 20 ls).1 !! "cache:A" = None)
  ∧ (let files := <["__access_order.json" := TOrder ["A"; "B"]]>
                    (<[FileSystem.getFilePath md5_examples "A" := TEntry e]> ∅) in
     (FileSystem.get md5_examples "A" 20 (Some files)).1
     = Some (<["__access_order.json" := TOrder ["B"]]> ∅)).
Proof.
  intros e.
  assert (Hexp : isExpired e 20 = true) by reflexivity.
  pose proof (reading_an_expired_entry_deletes_it "A" e 20 Hexp)
    as (Hmem & Hls & Hfs).
  split_and!; [done| | |].
  - intros self. destruct (Hmem self) as [-> _]; [|reflexivity].
    vm_compute. reflexivity.
  - intros adapter ls.
    destruct (Hls adapter ls ["A"; "B"]) as (Hdel & -> & _);
      [vm_compute; reflexivity..|].
    rewrite Hdel. split; vm_compute; reflexivity.
  - intros files.
    destruct (Hfs md5_examples files) as [-> _]; [vm_compute; reflexivity|].
    vm_compute. reflexivity.
Defined.

(** ** The key/value adapter: the index, the prefix, the bound *)





Section TouchesOnly.

Context {P : string → Prop}.

Lemma touchesOnly_ret {A : Type} (a : A) : touchesOnly P (ret a).
Proof. by intros ls name _. Qed.

Lemma touchesOnly_lift {A : Type} (r : result A) : touchesOnly P (lift r).
Proof. by intros ls name _. Qed.

Lemma touchesOnly_bind {A B : Type} (m : M (gmap string text) A)
  (k : A → M (gmap string text) B) :
  touchesOnly P m → (∀ a, touchesOnly P (k a)) → touchesOnly P (bind m k).
Proof.
  intros Hm Hk ls name Hname. unfold bind.
  specialize (Hm ls name Hname).
  destruct (m ls) as [ls1 [a|err]]; cbn in *; [|done].
  by rewrite (Hk a ls1 name Hname).
Qed.

Lemma touchesOnly_tryCatch {A : Type} (m h : M (gmap string text) A) :
  touchesOnly P m → touchesOnly P h → touchesOnly P (tryCatch m h).
Proof.
  intros Hm Hh ls name Hname. unfold tryCatch.
  specialize (Hm ls name Hname).
  destruct (m ls) as [ls1 [a|err]]; cbn in *; [done|].
  by rewrite (Hh ls1 name Hname).
Qed.

Lemma touchesOnly_getItem k : touchesOnly P (LocalStorage.getItem k).
Proof. by intros ls name _. Qed.

Lemma touchesOnly_storageKeys : touchesOnly P LocalStorage.storageKeys.
Proof. by intros ls name _. Qed.

Lemma touchesOnly_setItem k t :
  P k → touchesOnly P (LocalStorage.setItem k t).
Proof.
  intros Hk ls name Hname. cbn. rewrite lookup_insert_ne; [done|].
  by intros ->.
Qed.

Lemma touchesOnly_removeItem k :
  P k → touchesOnly P (LocalStorage.removeItem k).
Proof.
  intros Hk ls name Hname. cbn. rewrite lookup_delete_ne; [done|].
  by intros ->.
Qed.

End TouchesOnly.

Lemma ownName_index self : ownName self (LocalStorage.accessOrderKey self).
Proof. by left. Qed.

Lemma ownName_fullKey self key : ownName self (LocalStorage.getFullKey self key).
Proof. right. by exists key. Qed.

Lemma touchesOnly_getAccessOrder self :
  touchesOnly (ownName self) (LocalStorage.getAccessOrder self).
Proof.
  apply touchesOnly_tryCatch; [|apply touchesOnly_ret].
  apply touchesOnly_bind; [apply touchesOnly_getItem|].
  intros [t|]; [|apply touchesOnly_ret].
  destruct (truthyText _); [apply touchesOnly_lift|apply touchesOnly_ret].
Qed.

Lemma touchesOnly_setAccessOrder self order :
  touchesOnly (ownName self) (LocalStorage.setAccessOrder self order).
Proof. apply touchesOnly_setItem, ownName_index. Qed.

Lemma touchesOnly_removeFromStorage self key :
  touchesOnly (ownName self) (LocalStorage.removeFromStorage self key).
Proof.
  apply touchesOnly_bind; [apply touchesOnly_removeItem, ownName_fullKey|].
  intros _. apply touchesOnly_bind; [apply touchesOnly_getAccessOrder|].
  intros j. apply touchesOnly_bind; [apply touchesOnly_lift|].
  intros order. apply touchesOnly_setAccessOrder.
Qed.

Lemma touchesOnly_updateAccessOrder self key :
  touchesOnly (ownName self) (LocalStorage.updateAccessOrder self key).
Proof.
  apply touchesOnly_bind; [apply touchesOnly_getAccessOrder|].
  intros j. apply touchesOnly_bind; [apply touchesOnly_lift|].
  intros order0. cbv zeta.
  destruct (gt_bound _ _); [|apply touchesOnly_setAccessOrder].
  destruct (moveToTail key order0) as [|oldest rest];
    [apply touchesOnly_setAccessOrder|].
  apply touchesOnly_bind; [|intros _; apply touchesOnly_setAccessOrder].
  destruct (truthyKey oldest);
    [apply touchesOnly_removeFromStorage|apply touchesOnly_ret].
Qed.

Lemma touchesOnly_cleanupStep self now accessOrder key :
  touchesOnly (ownName self) (LocalStorage.cleanupStep self now accessOrder key).
Proof.
  apply touchesOnly_tryCatch.
  - apply touchesOnly_bind; [apply touchesOnly_getItem|].
    intros [t|]; [|apply touchesOnly_ret].
    destruct (truthyText _); [|apply touchesOnly_ret].
    apply touchesOnly_bind; [apply touchesOnly_lift|]. intros entry.
    apply touchesOnly_bind; [apply touchesOnly_lift|]. intros [|].
    + apply touchesOnly_bind; [apply touchesOnly_removeFromStorage|].
      intros _. apply touchesOnly_ret.
    + apply touchesOnly_ret.
  - apply touchesOnly_bind; [apply touchesOnly_removeFromStorage|].
    intros _. apply touchesOnly_ret.
Qed.

Lemma touchesOnly_cleanupLoop self now accessOrder allKeys :
  touchesOnly (ownName self) (LocalStorage.cleanupLoop self now accessOrder allKeys).
Proof.
  revert accessOrder. induction allKeys as [|key rest IH]; intros accessOrder.
  - apply touchesOnly_ret.
  - cbn. apply touchesOnly_bind; [apply touchesOnly_cleanupStep|].
    intros accessOrder'. apply IH.
Qed.

Lemma touchesOnly_evictLoop self accessOrder :
  touchesOnly (ownName self) (LocalStorage.evictLoop self accessOrder).
Proof.
  induction accessOrder as [|oldest rest IH]; [apply touchesOnly_ret|].
  cbn. destruct (gt_bound _ _); [|apply touchesOnly_ret].
  apply touchesOnly_bind; [|intros _; apply IH].
  destruct (truthyKey oldest);
    [apply touchesOnly_removeFromStorage|apply touchesOnly_ret].
Qed.

Lemma touchesOnly_cleanup self now :
  touchesOnly (ownName self) (LocalStorage.cleanup self now).
Proof.
  apply touchesOnly_bind; [apply touchesOnly_storageKeys|]. intros keys.
  cbv zeta.
  apply touchesOnly_bind; [apply touchesOnly_getAccessOrder|]. intros j.
  apply touchesOnly_bind; [apply touchesOnly_lift|]. intros order0.
  apply touchesOnly_bind; [apply touchesOnly_cleanupLoop|]. intros order1.
  apply touchesOnly_bind; [apply touchesOnly_evictLoop|]. intros order2.
  apply touchesOnly_setAccessOrder.
Qed.

Lemma touchesOnly_get self key now :
  touchesOnly (ownName self) (LocalStorage.get self key now).
Proof.
  apply touchesOnly_bind; [apply touchesOnly_getItem|].
  intros [t|]; [|apply touchesOnly_ret].
  destruct (truthyText _); [|apply touchesOnly_ret].
  apply touchesOnly_tryCatch.
  - apply touchesOnly_bind; [apply touchesOnly_lift|]. intros entry.
    apply touchesOnly_bind; [apply touchesOnly_lift|]. intros [|].
    + apply touchesOnly_bind; [apply touchesOnly_removeFromStorage|].
      intros _. apply touchesOnly_ret.
    + apply touchesOnly_bind; [apply touchesOnly_updateAccessOrder|].
      intros _. apply touchesOnly_ret.
  - apply touchesOnly_bind; [apply touchesOnly_removeFromStorage|].
    intros _. apply touchesOnly_ret.
Qed.

Lemma touchesOnly_set self key v options now :
  touchesOnly (ownName self) (LocalStorage.set self key v options now).
Proof.
  apply touchesOnly_tryCatch.
  - apply touchesOnly_bind; [apply touchesOnly_setItem, ownName_fullKey|].
    intros _. apply touchesOnly_updateAccessOrder.
  - apply touchesOnly_bind; [apply touchesOnly_cleanup|]. intros _.
    apply touchesOnly_bind; [apply touchesOnly_setItem, ownName_fullKey|].
    intros _. apply touchesOnly_updateAccessOrder.
Qed.

Lemma touchesOnly_has self key now :
  touchesOnly (ownName self) (LocalStorage.has self key now).
Proof.
  apply touchesOnly_bind; [apply touchesOnly_get|].
  intros v. apply touchesOnly_ret.
Qed.

Lemma prefix_app (p s : string) : String.prefix p (p +:+ s) = true.
Proof.
  induction p as [|c p IH]; [by destruct s|].
  change (String c p +:+ s) with (String c (p +:+ s)). cbn [String.prefix].
  by destruct (ascii_dec c c).
Qed.

Lemma ownName_prefix options prefixOption name :
  let self := LocalStorage.new options prefixOption in
  ownName self name → String.prefix (LocalStorage.prefix self) name = true.
Proof.
  intros self [->|[key ->]]; apply prefix_app.
Qed.

Lemma respond_fst {S A : Type} (f : A → response) (x : S * result A) :
  (respond f x).1 = x.1.
Proof. by destruct x as [s [a|e]]. Qed.

(** X6: the operations of the key/value adapter other than [clear], whether they
    return or raise, leave every item alone whose name does not start with
    the prefix of the adapter. *)
Theorem localStorage_touches_only_its_prefix (options : option CacheOptions)
  (prefixOption : option string) (name : string) (ops : list (op * Z))
  (ls : gmap string text) :
  let self := LocalStorage.new options prefixOption in
  String.prefix (LocalStorage.prefix self) name = false →
  forallb (λ x, notClear x.1) ops = true →
  (runLocalStorage self ops ls).1 !! name = ls !! name.
Proof.
  intros self Hname. revert ls.
  assert (Hown : ¬ ownName self name).
  { intros Hown%ownName_prefix. fold self in Hown. congruence. }
  induction ops as [|[o now] ops IH]; intros ls Hops; [done|].
  cbn in Hops. apply andb_true_iff in Hops as [Ho Hops].
  cbn. rewrite IH by done.
  destruct o as [key|key v o|key| |key]; cbn; rewrite ?respond_fst.
  - by apply touchesOnly_get.
  - by apply touchesOnly_set.
  - by apply touchesOnly_removeFromStorage.
  - done.
  - by apply touchesOnly_has.
Qed.

Lemma localStorage_touches_only_its_prefix_witness :
  let adapter := LocalStorage.new (withMaxSize 1) (Some "app:") in
  String.prefix (LocalStorage.prefix adapter) "other:x" = false
  ∧ (runLocalStorage adapter
       [ (OpSet "A" (JStr "a") None, 0); (OpSet "B" (JStr "b") None, 1);
         (OpGet "B", 2); (OpDelete "B", 3) ] sharedStorage).1 !! "other:x"
    = sharedStorage !! "other:x".
Proof.
  intros adapter. split; [reflexivity|].
  exact (localStorage_touches_only_its_prefix (withMaxSize 1) (Some "app:")
           "other:x"
           [ (OpSet "A" (JStr "a") None, 0); (OpSet "B" (JStr "b") None, 1);
             (OpGet "B", 2); (OpDelete "B", 3) ] sharedStorage
           eq_refl eq_refl).
Defined.

Lemma length_without_le key order :
  (length (without key order) ≤ length order)%nat.
Proof. apply length_filter. Qed.

Lemma length_without_elem key order :
  NoDup order → key ∈ order →
  (length (without key order) + 1 = length order)%nat.
Proof.
  induction order as [|k order IH]; intros Hnd Hin.
  - by apply elem_of_nil in Hin.
  - apply NoDup_cons in Hnd as [Hk Hnd]. unfold without in *.
    apply elem_of_cons in Hin as [->|Hin].
    + rewrite filter_cons_False by (by intros ?).
      fold (without k order). rewrite without_not_elem by done. cbn. lia.
    + rewrite filter_cons_True by (by intros ->). cbn.
      specialize (IH Hnd Hin). lia.
Qed.

Lemma gt_bound_le n m b :
  (n ≤ m)%nat → gt_bound m b = false → gt_bound n b = false.
Proof.
  intros Hle. destruct b as [k|]; cbn; [|done].
  intros Hm%bool_decide_eq_false. apply bool_decide_eq_false. lia.
Qed.

Lemma ls_get_cases self key now ls order :
  asArray (storedOrder self ls) = Ok order →
  LocalStorage.getFullKey self key ≠ LocalStorage.accessOrderKey self →
  ∃ v,
    LocalStorage.get self key now ls = (ls, Ok v)
    ∨ (is_Some (ls !! LocalStorage.getFullKey self key)
       ∧ LocalStorage.get self key now ls
         = (<[LocalStorage.accessOrderKey self := TOrder (without key order)]>
              (delete (LocalStorage.getFullKey self key) ls), Ok v))
    ∨ (is_Some (ls !! LocalStorage.getFullKey self key)
       ∧ LocalStorage.get self key now ls
         = (afterUpdateAccessOrder self key order ls, Ok v)).
Proof.
  intros Hok Hne.
  destruct (ls !! LocalStorage.getFullKey self key) as [t|] eqn:Hitem.
  2:{ exists JUndefined. left. by apply ls_get_absent. }
  assert (Hrm : LocalStorage.removeFromStorage self key ls
                = (<[LocalStorage.accessOrderKey self
                     := TOrder (without key order)]>
                     (delete (LocalStorage.getFullKey self key) ls), Ok tt)).
  { rewrite ls_removeFromStorage_eq. cbv zeta.
    by rewrite storedOrder_delete_ne, Hok. }
  assert (Hcase : (∃ e, t = TEntry e) ∨ ∀ e, t ≠ TEntry e)
    by (destruct t; eauto).
  destruct Hcase as [[e ->]|Hnot].
  { rewrite (ls_get_entry _ _ _ _ _ _ Hitem Hok).
    destruct (isExpired e now); eexists; eauto. }
  unfold LocalStorage.get.
  erewrite bind_Ok by (unfold LocalStorage.getItem; reflexivity).
  rewrite Hitem. destruct t; cbn [truthyText JSON_parse].
  - eexists. by left.
  - eexists. right. left. split; [eauto|].
    erewrite tryCatch_Throw by reflexivity.
    erewrite bind_Ok by apply Hrm. reflexivity.
  - eexists. right. left. split; [eauto|].
    erewrite tryCatch_Throw by reflexivity.
    erewrite bind_Ok by apply Hrm. reflexivity.
  - eexists. right. right. split; [eauto|]. apply tryCatch_Ok.
    unfold lift at 1 2. unfold bind at 1 2. cbn [isExpiredJson].
    erewrite bind_Ok by (by apply ls_updateAccessOrder_spec). reflexivity.
  - by destruct (Hnot e).
  - eexists. right. right. split; [eauto|]. apply tryCatch_Ok.
    unfold lift at 1 2. unfold bind at 1 2. cbn [isExpiredJson].
    erewrite bind_Ok by (by apply ls_updateAccessOrder_spec). reflexivity.
Qed.

Lemma lsConsistent_remove self ls order key :
  lsConsistent self ls order →
  LocalStorage.getFullKey self key ≠ LocalStorage.accessOrderKey self →
  lsConsistent self
    (<[LocalStorage.accessOrderKey self := TOrder (without key order)]>
       (delete (LocalStorage.getFullKey self key) ls))
    (without key order).
Proof.
  intros Hc Hne. split.
  - by rewrite storedOrder_insert_order.
  - apply NoDup_without, (ls_NoDup _ _ _ Hc).
  - intros k Hk. rewrite elem_of_without, lookup_insert_ne by done.
    destruct (decide (k = key)) as [->|Hkey].
    + rewrite lookup_delete_eq. split; [tauto|]. by intros [? ?].
    + rewrite lookup_delete_ne by (by intros ?%getFullKey_inj).
      rewrite (ls_items _ _ _ Hc) by done. tauto.
  - intros k [Hk _]%elem_of_without. by apply (ls_keys _ _ _ Hc).
  - eapply gt_bound_le; [apply length_without_le|apply (ls_within _ _ _ Hc)].
Qed.

Lemma lsConsistent_touch self ls order key :
  lsConsistent self ls order →
  LocalStorage.getFullKey self key ≠ LocalStorage.accessOrderKey self →
  is_Some (ls !! LocalStorage.getFullKey self key) →
  lsConsistent self (afterUpdateAccessOrder self key order ls)
    (moveToTail key order).
Proof.
  intros Hc Hne Hitem.
  assert (Hin : key ∈ order) by (by apply (ls_items _ _ _ Hc)).
  assert (Hlen : length (moveToTail key order) = length order).
  { unfold moveToTail. rewrite length_app. cbn.
    apply length_without_elem; [apply (ls_NoDup _ _ _ Hc)|done]. }
  unfold afterUpdateAccessOrder. cbv zeta.
  rewrite Hlen, (ls_within _ _ _ Hc). split.
  - by rewrite storedOrder_insert_order.
  - apply NoDup_moveToTail, (ls_NoDup _ _ _ Hc).
  - intros k Hk. rewrite elem_of_moveToTail, lookup_insert_ne by done.
    rewrite <- (ls_items _ _ _ Hc) by done.
    split; [intros [?| ->]; done|tauto].
  - intros k [Hk| ->]%elem_of_moveToTail; by apply (ls_keys _ _ _ Hc).
  - rewrite Hlen. apply (ls_within _ _ _ Hc).
Qed.

Lemma lsConsistent_set self ls order key t :
  lsConsistent self ls order →
  LocalStorage.maxSize self ≠ Fin 0 →
  truthyKey key = true →
  LocalStorage.getFullKey self key ≠ LocalStorage.accessOrderKey self →
  ∃ order',
    lsConsistent self
      (afterUpdateAccessOrder self key order
         (<[LocalStorage.getFullKey self key := t]> ls)) order'.
Proof.
  intros Hc Hpos Htruthy Hne.
  pose proof (NoDup_moveToTail key order (ls_NoDup _ _ _ Hc)) as Hnd.
  assert (Hkeys : ∀ k, k ∈ moveToTail key order →
            truthyKey k = true
            ∧ LocalStorage.getFullKey self k ≠ LocalStorage.accessOrderKey self).
  { intros k [Hk| ->]%elem_of_moveToTail; [|done].
    by apply (ls_keys _ _ _ Hc). }
  assert (Hitems : ∀ k,
            LocalStorage.getFullKey self k ≠ LocalStorage.accessOrderKey self →
            k ∈ moveToTail key order
            ↔ is_Some (<[LocalStorage.getFullKey self key := t]> ls
                         !! LocalStorage.getFullKey self k)).
  { intros k Hk. rewrite elem_of_moveToTail.
    destruct (decide (k = key)) as [->|Hkey].
    - rewrite lookup_insert_eq. split; [eauto|tauto].
    - rewrite lookup_insert_ne by (by intros ?%getFullKey_inj).
      rewrite (ls_items _ _ _ Hc) by done. split; [intros [?|?]; done|tauto]. }
  assert (Hlen : (length (moveToTail key order) ≤ length order + 1)%nat).
  { unfold moveToTail. rewrite length_app. cbn.
    pose proof (length_without_le key order). lia. }
  unfold afterUpdateAccessOrder. cbv zeta.
  destruct (gt_bound (length (moveToTail key order)) (LocalStorage.maxSize self))
    eqn:Hgt.
  - destruct (moveToTail key order) as [|oldest rest] eqn:Horder.
    { unfold moveToTail in Horder. by destruct (without key order). }
    assert (Holdest : oldest ≠ key).
    { intros ->. apply moveToTail_head_is_key in Horder as ->.
      destruct (LocalStorage.maxSize self) as [[|n]|]; cbn in Hgt;
        first [done | apply bool_decide_eq_true in Hgt; cbn in Hgt; lia]. }
    destruct (Hkeys oldest (list_elem_of_here _ _)) as [-> Hneo].
    apply NoDup_cons in Hnd as [Hnot Hnd].
    exists rest. split.
    + by rewrite storedOrder_insert_order.
    + done.
    + intros k Hk. rewrite lookup_insert_ne by done.
      destruct (decide (k = oldest)) as [->|Hko].
      * rewrite lookup_delete_eq. split; [done|]. by intros [? ?].
      * rewrite lookup_delete_ne by (by intros ?%getFullKey_inj).
        rewrite <- Hitems by done. rewrite elem_of_cons. tauto.
    + intros k Hk. apply Hkeys. by apply list_elem_of_further.
    + pose proof (ls_within _ _ _ Hc) as Hw. cbn in Hlen.
      eapply gt_bound_le; [|exact Hw]. lia.
  - exists (moveToTail key order). split; [|done| |done|done].
    + by rewrite storedOrder_insert_order.
    + intros k Hk. rewrite lookup_insert_ne by done. by apply Hitems.
Qed.

Lemma lsConsistent_empty self :
  lsConsistent self ∅ [].
Proof.
  split.
  - unfold storedOrder. by rewrite lookup_empty.
  - apply NoDup_nil_2.
  - intros key _. rewrite lookup_empty. split; [by intros ?%elem_of_nil|].
    by intros [? ?].
  - by intros key ?%elem_of_nil.
  - by destruct (LocalStorage.maxSize self).
Qed.

(** Every operation on a consistent store returns and leaves a consistent
    store. *)
Lemma lsConsistent_step self o now ls order :
  lsConsistent self ls order →
  LocalStorage.maxSize self ≠ Fin 0 →
  (∀ key, key ≠ "__access_order" →
          LocalStorage.getFullKey self key ≠ LocalStorage.accessOrderKey self) →
  plainOp o = true →
  ∃ order',
    isRaised (localStorageStep self o now ls).2 = false
    ∧ lsConsistent self (localStorageStep self o now ls).1 order'.
Proof.
  intros Hc Hpos Hres Hplain.
  pose proof (ls_index _ _ _ Hc) as Hok.
  assert (Hget : ∀ key, key ≠ "__access_order" →
            ∃ v order',
              (LocalStorage.get self key now ls).2 = Ok v
              ∧ lsConsistent self (LocalStorage.get self key now ls).1 order').
  { intros key Hkey%Hres.
    destruct (ls_get_cases self key now ls order Hok Hkey)
      as [v [->|[[Hitem ->]|[Hitem ->]]]]; cbn.
    - by exists v, order.
    - exists v, (without key order). split; [done|].
      by apply lsConsistent_remove.
    - exists v, (moveToTail key order). split; [done|].
      by apply lsConsistent_touch. }
  destruct o as [key|key v options|key| |key];
    cbn [plainOp] in Hplain; cbn [localStorageStep].
  - apply bool_decide_eq_true in Hplain.
    destruct (Hget key Hplain) as (v & order' & Hv & Hc').
    exists order'.
    destruct (LocalStorage.get self key now ls) as [ls' r].
    cbn in Hv, Hc'. subst r. by cbn.
  - apply andb_true_iff in Hplain as [Htruthy Hkey%bool_decide_eq_true].
    rewrite (ls_set_spec _ _ _ _ _ _ order Hok (Hres key Hkey)). cbn.
    destruct (lsConsistent_set self ls order key
                (TEntry (newEntry v options now)) Hc Hpos Htruthy (Hres key Hkey))
      as [order' Hc'].
    by exists order'.
  - apply bool_decide_eq_true in Hplain.
    unfold LocalStorage.delete. rewrite ls_removeFromStorage_eq. cbv zeta.
    rewrite storedOrder_delete_ne, Hok by (by apply Hres). cbn.
    exists (without key order). split; [done|].
    apply lsConsistent_remove; [done|by apply Hres].
  - rewrite localStorage_clear_empties_the_store. cbn.
    exists []. split; [done|]. apply lsConsistent_empty.
  - apply bool_decide_eq_true in Hplain.
    destruct (Hget key Hplain) as (v & order' & Hv & Hc').
    exists order'. rewrite ls_has_eq.
    destruct (LocalStorage.get self key now ls) as [ls' r].
    cbn in Hv, Hc'. subst r. by cbn.
Qed.

Lemma lsConsistent_run self ops ls order :
  lsConsistent self ls order →
  LocalStorage.maxSize self ≠ Fin 0 →
  (∀ key, key ≠ "__access_order" →
          LocalStorage.getFullKey self key ≠ LocalStorage.accessOrderKey self) →
  forallb (λ x, plainOp x.1) ops = true →
  ∃ order',
    noneRaised (runLocalStorage self ops ls).2 = true
    ∧ lsConsistent self (runLocalStorage self ops ls).1 order'.
Proof.
  intros Hc Hpos Hres. revert ls order Hc.
  induction ops as [|[o now] ops IH]; intros ls order Hc Hops.
  - by exists order.
  - cbn in Hops. apply andb_true_iff in Hops as [Ho Hops].
    destruct (lsConsistent_step self o now ls order Hc Hpos Hres Ho)
      as (order1 & Hr & Hc1).
    destruct (IH _ _ Hc1 Hops) as (order' & Hrs & Hc').
    exists order'.
    change (runLocalStorage self ((o, now) :: ops) ls)
      with (let x := localStorageStep self o now ls in
            let y := runLocalStorage self ops x.1 in (y.1, x.2 :: y.2)).
    cbv zeta. cbn [fst snd]. split; [|done].
    unfold noneRaised in *. cbn [forallb]. by rewrite Hr, Hrs.
Qed.

(** ** The key/value adapter on a store with a quota *)

Lemma bind_ext {S A B : Type} (m m' : M S A) (k k' : A → M S B) s :
  m s = m' s → (∀ a s', k a s' = k' a s') → bind m k s = bind m' k' s.
Proof.
  intros Hm Hk. unfold bind. rewrite Hm.
  destruct (m' s) as [s' [a|e]]; [apply Hk|done].
Qed.

Lemma tryCatch_ext {S A : Type} (m m' h h' : M S A) s :
  m s = m' s → (∀ s', h s' = h' s') → tryCatch m h s = tryCatch m' h' s.
Proof.
  intros Hm Hh. unfold tryCatch. rewrite Hm.
  destruct (m' s) as [s' [a|e]]; [done|apply Hh].
Qed.

(** On a store that takes every write the methods are those of
    [LocalStorage]. *)
Section Unlimited.

Variable accepts : gmap string text → string → text → bool.

Hypothesis accepts_all : ∀ ls k t, accepts ls k t = true.

Variable self : LocalStorage.LocalStorageAdapter.

Lemma quota_setItem k t ls :
  Quota.setItem accepts k t ls = LocalStorage.setItem k t ls.
Proof. unfold Quota.setItem. by rewrite accepts_all. Qed.

Lemma quota_setAccessOrder order ls :
  Quota.setAccessOrder accepts self order ls
  = LocalStorage.setAccessOrder self order ls.
Proof. apply quota_setItem. Qed.

Lemma quota_removeFromStorage key ls :
  Quota.removeFromStorage accepts self key ls
  = LocalStorage.removeFromStorage self key ls.
Proof.
  unfold Quota.removeFromStorage, LocalStorage.removeFromStorage.
  apply bind_ext; [done|]. intros _ ls1.
  apply bind_ext; [done|]. intros j ls2.
  apply bind_ext; [done|]. intros order ls3.
  apply quota_setAccessOrder.
Qed.

Lemma quota_evictOne oldestKey ls :
  (if truthyKey oldestKey then Quota.removeFromStorage accepts self oldestKey
   else ret tt) ls
  = (if truthyKey oldestKey then LocalStorage.removeFromStorage self oldestKey
     else ret tt) ls.
Proof. destruct (truthyKey oldestKey); [apply quota_removeFromStorage|done]. Qed.

Lemma quota_updateAccessOrder key ls :
  Quota.updateAccessOrder accepts self key ls
  = LocalStorage.updateAccessOrder self key ls.
Proof.
  unfold Quota.updateAccessOrder, LocalStorage.updateAccessOrder.
  apply bind_ext; [done|]. intros j ls1.
  apply bind_ext; [done|]. intros order0 ls2. cbv zeta.
  destruct (gt_bound _ _); [|apply quota_setAccessOrder].
  destruct (moveToTail key order0) as [|oldestKey rest];
    [apply quota_setAccessOrder|].
  apply bind_ext; [apply quota_evictOne|]. intros _ ls3.
  apply quota_setAccessOrder.
Qed.

Lemma quota_cleanupStep now accessOrder key ls :
  Quota.cleanupStep accepts self now accessOrder key ls
  = LocalStorage.cleanupStep self now accessOrder key ls.
Proof.
  unfold Quota.cleanupStep, LocalStorage.cleanupStep.
  apply tryCatch_ext.
  - apply bind_ext; [done|]. intros raw ls1.
    destruct raw as [t|]; [|done].
    destruct (truthyText (Some t)); [|done].
    apply bind_ext; [done|]. intros entry ls2.
    apply bind_ext; [done|]. intros expired ls3.
    destruct expired; [|done].
    apply bind_ext; [apply quota_removeFromStorage|done].
  - intros ls1. apply bind_ext; [apply quota_removeFromStorage|done].
Qed.

Lemma quota_cleanupLoop now allKeys accessOrder ls :
  Quota.cleanupLoop accepts self now accessOrder allKeys ls
  = LocalStorage.cleanupLoop self now accessOrder allKeys ls.
Proof.
  revert accessOrder ls. induction allKeys as [|key rest IH];
    intros accessOrder ls; [done|].
  cbn [Quota.cleanupLoop LocalStorage.cleanupLoop].
  apply bind_ext; [apply quota_cleanupStep|]. intros accessOrder' ls1.
  apply IH.
Qed.

Lemma quota_evictLoop accessOrder ls :
  Quota.evictLoop accepts self accessOrder ls
  = LocalStorage.evictLoop self accessOrder ls.
Proof.
  revert ls. induction accessOrder as [|oldestKey rest IH]; intros ls; [done|].
  cbn [Quota.evictLoop LocalStorage.evictLoop].
  destruct (gt_bound _ _); [|done].
  apply bind_ext; [apply quota_evictOne|]. intros _ ls1. apply IH.
Qed.

Lemma quota_cleanup now ls :
  Quota.cleanup accepts self now ls = LocalStorage.cleanup self now ls.
Proof.
  unfold Quota.cleanup, LocalStorage.cleanup.
  apply bind_ext; [done|]. intros keys ls1. cbv zeta.
  apply bind_ext; [done|]. intros j ls2.
  apply bind_ext; [done|]. intros order0 ls3.
  apply bind_ext; [apply quota_cleanupLoop|]. intros accessOrder1 ls4.
  apply bind_ext; [apply quota_evictLoop|]. intros accessOrder2 ls5.
  apply quota_setAccessOrder.
Qed.

Lemma quota_get key now ls :
  Quota.get accepts self key now ls = LocalStorage.get self key now ls.
Proof.
  unfold Quota.get, LocalStorage.get.
  apply bind_ext; [done|]. intros raw ls1.
  destruct raw as [t|]; [|done].
  destruct (truthyText (Some t)); [|done].
  apply tryCatch_ext.
  - apply bind_ext; [done|]. intros entry ls2.
    apply bind_ext; [done|]. intros expired ls3.
    destruct expired.
    + apply bind_ext; [apply quota_removeFromStorage|done].
    + apply bind_ext; [apply quota_updateAccessOrder|done].
  - intros ls2. apply bind_ext; [apply quota_removeFromStorage|done].
Qed.

Lemma quota_set key v options now ls :
  Quota.set accepts self key v options now ls
  = LocalStorage.set self key v options now ls.
Proof.
  unfold Quota.set, LocalStorage.set. cbv zeta.
  apply tryCatch_ext.
  - apply bind_ext; [apply quota_setItem|]. intros _ ls1.
    apply quota_updateAccessOrder.
  - intros ls1. apply bind_ext; [apply quota_cleanup|]. intros _ ls2.
    apply bind_ext; [apply quota_setItem|]. intros _ ls3.
    apply quota_updateAccessOrder.
Qed.

Lemma quota_has key now ls :
  Quota.has accepts self key now ls = LocalStorage.has self key now ls.
Proof.
  unfold Quota.has, LocalStorage.has. apply bind_ext; [apply quota_get|done].
Qed.

Lemma quotaStep_unlimited o now ls :
  quotaStep accepts self o now ls = localStorageStep self o now ls.
Proof.
  destruct o as [key|key v options|key| |key]; cbn [quotaStep localStorageStep].
  - by rewrite quota_get.
  - by rewrite quota_set.
  - unfold Quota.delete, LocalStorage.delete. by rewrite quota_removeFromStorage.
  - done.
  - by rewrite quota_has.
Qed.

Lemma runQuota_unlimited ops ls :
  runQuota accepts self ops ls = runLocalStorage self ops ls.
Proof.
  revert ls. induction ops as [|[o now] ops IH]; intros ls; [done|].
  cbn [runQuota runLocalStorage]. by rewrite quotaStep_unlimited, !IH.
Qed.

End Unlimited.

(** Whatever the store takes, the methods leave an array in the index and
    raise nothing but the exception of a full store. *)
Section KeepsIndex.

Variable accepts : gmap string text → string → text → bool.

Variable self : LocalStorage.LocalStorageAdapter.

Lemma keepsIndex_ret (E : exn → Prop) {A : Type} (a : A) (Q : A → Prop) :
  Q a → keepsIndex self E (ret a) Q.
Proof. intros Ha ls HJ. done. Qed.

Lemma keepsIndex_bind (E : exn → Prop) {A B : Type}
  (m : M (gmap string text) A) (k : A → M (gmap string text) B)
  (P : A → Prop) (Q : B → Prop) :
  keepsIndex self E m P →
  (∀ a, P a → keepsIndex self E (k a) Q) →
  keepsIndex self E (bind m k) Q.
Proof.
  intros Hm Hk ls HJ. destruct (Hm ls HJ) as [HJ1 Hr]. unfold bind.
  destruct (m ls) as [ls1 [a|e]]; cbn [fst snd] in *.
  - apply (Hk a Hr ls1 HJ1).
  - done.
Qed.

Lemma keepsIndex_tryCatch (E E' : exn → Prop) {A : Type}
  (m h : M (gmap string text) A) (Q : A → Prop) :
  keepsIndex self E' m Q → keepsIndex self E h Q →
  keepsIndex self E (tryCatch m h) Q.
Proof.
  intros Hm Hh ls HJ. destruct (Hm ls HJ) as [HJ1 Hr]. unfold tryCatch.
  destruct (m ls) as [ls1 [a|e]]; cbn [fst snd] in *.
  - done.
  - apply (Hh ls1 HJ1).
Qed.

Lemma keepsIndex_weaken (E E' : exn → Prop) {A : Type}
  (m : M (gmap string text) A) (Q Q' : A → Prop) :
  (∀ e, E e → E' e) → (∀ a, Q a → Q' a) →
  keepsIndex self E m Q → keepsIndex self E' m Q'.
Proof.
  intros HE HQ Hm ls HJ. destruct (Hm ls HJ) as [HJ1 Hr]. split; [done|].
  destruct ((m ls).2) as [a|e]; auto.
Qed.

Lemma keepsIndex_lift (E : exn → Prop) {A : Type} (r : result A)
  (Q : A → Prop) :
  match r with Ok a => Q a | Throw e => E e end →
  keepsIndex self E (lift r) Q.
Proof. intros Hr ls HJ. done. Qed.

Lemma keepsIndex_getItem (E : exn → Prop) k :
  keepsIndex self E (LocalStorage.getItem k) (λ _, True).
Proof. intros ls HJ. done. Qed.

Lemma keepsIndex_storageKeys (E : exn → Prop) :
  keepsIndex self E LocalStorage.storageKeys (λ _, True).
Proof. intros ls HJ. done. Qed.

Lemma keepsIndex_removeItem (E : exn → Prop) k :
  keepsIndex self E (LocalStorage.removeItem k) (λ _, True).
Proof.
  intros ls [order Hok]. split; [|done]. cbn.
  apply (storedOrder_delete self k ls order Hok).
Qed.

Lemma keepsIndex_getAccessOrder (E : exn → Prop) :
  keepsIndex self E (LocalStorage.getAccessOrder self)
    (λ j, ∃ order, asArray j = Ok order).
Proof. intros ls HJ. rewrite ls_getAccessOrder_eq. done. Qed.

Lemma keepsIndex_setItem k t :
  k ≠ LocalStorage.accessOrderKey self ∨ (∃ order, t = TOrder order) →
  keepsIndex self isQuota (Quota.setItem accepts k t) (λ _, True).
Proof.
  intros Hk ls [order Hok]. unfold Quota.setItem.
  destruct (accepts ls k t); cbn [fst snd]; [|by split; [exists order|]].
  split; [|done].
  destruct (decide (k = LocalStorage.accessOrderKey self)) as [->|Hne].
  - destruct Hk as [?|[order' ->]]; [done|].
    exists order'. by rewrite storedOrder_insert_order.
  - exists order. by rewrite storedOrder_insert_ne.
Qed.

Lemma keepsIndex_setAccessOrder order :
  keepsIndex self isQuota (Quota.setAccessOrder accepts self order) (λ _, True).
Proof. apply keepsIndex_setItem. right. by exists order. Qed.

Lemma keepsIndex_removeFromStorage key :
  keepsIndex self isQuota (Quota.removeFromStorage accepts self key)
    (λ _, True).
Proof.
  unfold Quota.removeFromStorage.
  eapply keepsIndex_bind; [apply keepsIndex_removeItem|]. intros _ _.
  eapply keepsIndex_bind; [apply keepsIndex_getAccessOrder|].
  intros j [order Hj].
  eapply keepsIndex_bind with (P := λ _, True);
    [apply keepsIndex_lift; by rewrite Hj|].
  intros order' _. apply keepsIndex_setAccessOrder.
Qed.

Lemma keepsIndex_evictOne oldestKey :
  keepsIndex self isQuota
    (if truthyKey oldestKey then Quota.removeFromStorage accepts self oldestKey
     else ret tt) (λ _, True).
Proof.
  destruct (truthyKey oldestKey);
    [apply keepsIndex_removeFromStorage|by apply keepsIndex_ret].
Qed.

Lemma keepsIndex_updateAccessOrder key :
  keepsIndex self isQuota (Quota.updateAccessOrder accepts self key)
    (λ _, True).
Proof.
  unfold Quota.updateAccessOrder.
  eapply keepsIndex_bind; [apply keepsIndex_getAccessOrder|].
  intros j [order Hj].
  eapply keepsIndex_bind with (P := λ _, True);
    [apply keepsIndex_lift; by rewrite Hj|].
  intros order0 _. cbv zeta.
  destruct (gt_bound _ _); [|apply keepsIndex_setAccessOrder].
  destruct (moveToTail key order0) as [|oldestKey rest];
    [apply keepsIndex_setAccessOrder|].
  eapply keepsIndex_bind; [apply keepsIndex_evictOne|].
  intros _ _. apply keepsIndex_setAccessOrder.
Qed.

Lemma keepsIndex_cleanupStep now accessOrder key :
  keepsIndex self isQuota (Quota.cleanupStep accepts self now accessOrder key)
    (λ _, True).
Proof.
  unfold Quota.cleanupStep.
  apply keepsIndex_tryCatch with (E' := λ _, True).
  - eapply keepsIndex_bind; [apply keepsIndex_getItem|]. intros raw _.
    destruct raw as [t|]; [|by apply keepsIndex_ret].
    destruct (truthyText (Some t)); [|by apply keepsIndex_ret].
    eapply keepsIndex_bind with (P := λ _, True);
      [apply keepsIndex_lift; by destruct (JSON_parse t)|].
    intros entry _.
    eapply keepsIndex_bind with (P := λ _, True);
      [apply keepsIndex_lift; by destruct (isExpiredJson entry now)|].
    intros expired _. destruct expired; [|by apply keepsIndex_ret].
    eapply keepsIndex_bind with (P := λ _, True).
    + eapply keepsIndex_weaken; [| |apply keepsIndex_removeFromStorage]; done.
    + intros _ _. by apply keepsIndex_ret.
  - eapply keepsIndex_bind; [apply keepsIndex_removeFromStorage|].
    intros _ _. by apply keepsIndex_ret.
Qed.

Lemma keepsIndex_cleanupLoop now allKeys accessOrder :
  keepsIndex self isQuota
    (Quota.cleanupLoop accepts self now accessOrder allKeys) (λ _, True).
Proof.
  revert accessOrder. induction allKeys as [|key rest IH]; intros accessOrder.
  - by apply keepsIndex_ret.
  - cbn [Quota.cleanupLoop].
    eapply keepsIndex_bind; [apply keepsIndex_cleanupStep|].
    intros accessOrder' _. apply IH.
Qed.

Lemma keepsIndex_evictLoop accessOrder :
  keepsIndex self isQuota (Quota.evictLoop accepts self accessOrder)
    (λ _, True).
Proof.
  induction accessOrder as [|oldestKey rest IH].
  - by apply keepsIndex_ret.
  - cbn [Quota.evictLoop].
    destruct (gt_bound _ _); [|by apply keepsIndex_ret].
    eapply keepsIndex_bind; [apply keepsIndex_evictOne|].
    intros _ _. apply IH.
Qed.

Lemma keepsIndex_cleanup now :
  keepsIndex self isQuota (Quota.cleanup accepts self now) (λ _, True).
Proof.
  unfold Quota.cleanup.
  eapply keepsIndex_bind; [apply keepsIndex_storageKeys|]. intros keys _.
  cbv zeta.
  eapply keepsIndex_bind; [apply keepsIndex_getAccessOrder|].
  intros j [order Hj].
  eapply keepsIndex_bind with (P := λ _, True);
    [apply keepsIndex_lift; by rewrite Hj|].
  intros order0 _.
  eapply keepsIndex_bind; [apply keepsIndex_cleanupLoop|].
  intros accessOrder1 _.
  eapply keepsIndex_bind; [apply keepsIndex_evictLoop|].
  intros accessOrder2 _. apply keepsIndex_setAccessOrder.
Qed.

Lemma keepsIndex_get key now :
  keepsIndex self isQuota (Quota.get accepts self key now) (λ _, True).
Proof.
  unfold Quota.get.
  eapply keepsIndex_bind; [apply keepsIndex_getItem|]. intros raw _.
  destruct raw as [t|]; [|by apply keepsIndex_ret].
  destruct (truthyText (Some t)); [|by apply keepsIndex_ret].
  apply keepsIndex_tryCatch with (E' := λ _, True).
  - eapply keepsIndex_bind with (P := λ _, True);
      [apply keepsIndex_lift; by destruct (JSON_parse t)|].
    intros entry _.
    eapply keepsIndex_bind with (P := λ _, True);
      [apply keepsIndex_lift; by destruct (isExpiredJson entry now)|].
    intros expired _.
    destruct expired; eapply keepsIndex_bind with (P := λ _, True).
    + eapply keepsIndex_weaken; [| |apply keepsIndex_removeFromStorage]; done.
    + intros _ _. by apply keepsIndex_ret.
    + eapply keepsIndex_weaken; [| |apply keepsIndex_updateAccessOrder]; done.
    + intros _ _. by apply keepsIndex_ret.
  - eapply keepsIndex_bind; [apply keepsIndex_removeFromStorage|].
    intros _ _. by apply keepsIndex_ret.
Qed.

Lemma keepsIndex_has key now :
  keepsIndex self isQuota (Quota.has accepts self key now) (λ _, True).
Proof.
  unfold Quota.has. eapply keepsIndex_bind; [apply keepsIndex_get|].
  intros v _. by apply keepsIndex_ret.
Qed.

Lemma keepsIndex_set key v options now :
  LocalStorage.getFullKey self key ≠ LocalStorage.accessOrderKey self →
  keepsIndex self isQuota (Quota.set accepts self key v options now)
    (λ _, True).
Proof.
  intros Hne. unfold Quota.set. cbv zeta.
  apply keepsIndex_tryCatch with (E' := isQuota).
  - eapply keepsIndex_bind; [apply keepsIndex_setItem; by left|].
    intros _ _. apply keepsIndex_updateAccessOrder.
  - eapply keepsIndex_bind; [apply keepsIndex_cleanup|]. intros _ _.
    eapply keepsIndex_bind; [apply keepsIndex_setItem; by left|].
    intros _ _. apply keepsIndex_updateAccessOrder.
Qed.

Lemma keepsIndex_clear :
  keepsIndex self isQuota (Quota.clear self) (λ _, True).
Proof.
  intros ls HJ. unfold Quota.clear.
  rewrite localStorage_clear_empties_the_store. split; [|done].
  by exists [].
Qed.

Lemma quotaStep_keepsIndex o now ls :
  (∀ key, key ≠ "__access_order" →
          LocalStorage.getFullKey self key ≠ LocalStorage.accessOrderKey self) →
  plainOp o = true →
  indexIsArray self ls →
  indexIsArray self (quotaStep accepts self o now ls).1
  ∧ quotaOnly (quotaStep accepts self o now ls).2.
Proof.
  intros Hres Hplain HJ.
  assert (Hrespond : ∀ (A : Type) (f : A → response)
            (m : M (gmap string text) A),
            (∀ a e, f a ≠ Raised e) →
            keepsIndex self isQuota m (λ _, True) →
            indexIsArray self (respond f (m ls)).1
            ∧ quotaOnly (respond f (m ls)).2).
  { intros A f m Hf Hm. destruct (Hm ls HJ) as [HJ1 Hr].
    destruct (m ls) as [ls1 [a|e]]; cbn [respond fst snd] in *.
    - split; [done|]. intros e He. by destruct (Hf a e).
    - split; [done|]. intros e' [= <-]. done. }
  destruct o as [key|key v options|key| |key];
    cbn [plainOp] in Hplain; cbn [quotaStep]; apply Hrespond; try done.
  - apply keepsIndex_get.
  - apply andb_true_iff in Hplain as [_ Hkey%bool_decide_eq_true].
    apply keepsIndex_set. by apply Hres.
  - apply keepsIndex_removeFromStorage.
  - apply keepsIndex_clear.
  - apply keepsIndex_has.
Qed.

Lemma runQuota_keepsIndex ops ls :
  (∀ key, key ≠ "__access_order" →
          LocalStorage.getFullKey self key ≠ LocalStorage.accessOrderKey self) →
  forallb (λ x, plainOp x.1) ops = true →
  indexIsArray self ls →
  indexIsArray self (runQuota accepts self ops ls).1
  ∧ Forall quotaOnly (runQuota accepts self ops ls).2.
Proof.
  intros Hres. revert ls. induction ops as [|[o now] ops IH]; intros ls Hops HJ.
  - split; [done|]. apply Forall_nil_2.
  - cbn in Hops. apply andb_true_iff in Hops as [Ho Hops].
    destruct (quotaStep_keepsIndex o now ls Hres Ho HJ) as [HJ1 Hr].
    destruct (IH _ Hops HJ1) as [HJ2 Hrs].
    cbn [runQuota fst snd]. split; [done|]. by apply Forall_cons.
Qed.

End KeepsIndex.

(** X7: from a store without items under its prefix, and as long as no key is
    the name of the index and nothing is written under the empty string, the
    operations of the key/value adapter raise nothing but the
    QuotaExceededError of a store that is full, and the index stays absent
    or an array; on a store that takes every write no operation raises, and
    after any number of them the index lists, each once, exactly the keys
    that have an item, at most [maxSize] of them. *)
Theorem localStorage_run_invariant
  (accepts : gmap string text → string → text → bool)
  (options : option CacheOptions) (prefixOption : option string)
  (ops : list (op * Z)) (ls0 : gmap string text) :
  let self := LocalStorage.new options prefixOption in
  (∀ name, String.prefix (LocalStorage.prefix self) name = true →
           ls0 !! name = None) →
  forallb (λ x, plainOp x.1) ops = true →
  let out := runQuota accepts self ops ls0 in
  Forall quotaOnly out.2
  ∧ indexIsArray self out.1
  ∧ ((∀ ls k t, accepts ls k t = true) →
     noneRaised out.2 = true
     ∧ ∃ order,
         asArray (storedOrder self out.1) = Ok order
         ∧ NoDup order
         ∧ (∀ key, key ≠ "__access_order" →
                   key ∈ order
                   ↔ is_Some (out.1 !! LocalStorage.getFullKey self key))
         ∧ match maxSizeOrInfinity options with
           | Fin n => (length order ≤ n)%nat
           | Infinity => True
           end).
Proof.
  intros self Hfree Hops out.
  assert (Hres : ∀ key, key ≠ "__access_order" →
            LocalStorage.getFullKey self key ≠ LocalStorage.accessOrderKey self)
    by (intros key; apply ls_new_fullKey_ne).
  assert (Hpos : LocalStorage.maxSize self ≠ Fin 0)
    by apply maxSizeOrInfinity_positive.
  assert (Hc0 : lsConsistent self ls0 []).
  { split.
    - unfold storedOrder. rewrite Hfree; [done|]. apply prefix_app.
    - apply NoDup_nil_2.
    - intros key _. rewrite Hfree by apply prefix_app.
      split; [by intros ?%elem_of_nil|]. by intros [? ?].
    - by intros key ?%elem_of_nil.
    - by destruct (LocalStorage.maxSize self). }
  assert (HJ0 : indexIsArray self ls0) by (exists []; apply (ls_index _ _ _ Hc0)).
  destruct (runQuota_keepsIndex accepts self ops ls0 Hres Hops HJ0)
    as [HJ Hquota].
  split; [done|]. split; [done|]. intros Hall. unfold out.
  rewrite (runQuota_unlimited accepts Hall self ops ls0).
  destruct (lsConsistent_run self ops ls0 [] Hc0 Hpos Hres Hops)
    as (order & Hrs & Hc).
  split; [done|]. exists order.
  split_and!; [apply (ls_index _ _ _ Hc)|apply (ls_NoDup _ _ _ Hc)| |].
  - intros key Hkey. by apply (ls_items _ _ _ Hc), Hres.
  - pose proof (ls_within _ _ _ Hc) as Hw.
    change (LocalStorage.maxSize self) with (maxSizeOrInfinity options) in Hw.
    destruct (maxSizeOrInfinity options) as [n|]; [|done].
    cbn in Hw. apply bool_decide_eq_false in Hw. lia.
Qed.

Lemma localStorage_run_invariant_witness :
  let self := LocalStorage.new (withMaxSize 2) None in
  let ops := [ (OpSet "A" (JStr "a") None, 0); (OpSet "B" (JStr "b") None, 1);
               (OpGet "A", 2); (OpSet "C" (JStr "c") None, 3);
               (OpDelete "B", 4); (OpHas "A", 5) ] in
  (let out := runQuota (roomFor 2) self ops ∅ in
   Forall quotaOnly out.2 ∧ indexIsArray self out.1)
  ∧ (let out := runQuota unlimited self ops ∅ in
     (∀ ls k t, unlimited ls k t = true)
     ∧ noneRaised out.2 = true
     ∧ ∃ order,
         asArray (storedOrder self out.1) = Ok order
         ∧ NoDup order
         ∧ (∀ key, key ≠ "__access_order" →
                   key ∈ order
                   ↔ is_Some (out.1 !! LocalStorage.getFullKey self key))
         ∧ (length order ≤ 2)%nat).
Proof.
  intros self ops.
  pose proof (localStorage_run_invariant (roomFor 2) (withMaxSize 2) None ops ∅
                (λ name _, lookup_empty name) eq_refl) as (Hquota & Hindex & _).
  pose proof (localStorage_run_invariant unlimited (withMaxSize 2) None ops ∅
                (λ name _, lookup_empty name) eq_refl) as (_ & _ & Hall).
  split; [by split|]. cbv zeta. split; [done|].
  exact (Hall (λ _ _ _, eq_refl)).
Defined.

(** ** [cleanup] of the key/value adapter *)












(** ** The file adapter: [clear], a missing directory, the index *)

Lemma fs_unlinkAll_eq names files :
  NoDup names → (∀ n, n ∈ names → is_Some (files !! n)) →
  ∃ files',
    FileSystem.unlinkAll names (Some files) = (Some files', Ok tt)
    ∧ ∀ k, files' !! k = if decide (k ∈ names) then None else files !! k.
Proof.
  revert files. induction names as [|n names IH]; intros files Hnd Hall.
  - exists files. split; [done|]. intros k. by rewrite decide_False by apply not_elem_of_nil.
  - apply NoDup_cons in Hnd as [Hn Hnd].
    destruct (Hall n (list_elem_of_here _ _)) as [t Ht].
    destruct (IH (delete n files) Hnd) as (files' & Hrun & Hlook).
    { intros m Hm. rewrite lookup_delete_ne; [|by intros ->].
      apply Hall. by apply list_elem_of_further. }
    exists files'. split.
    + cbn. unfold bind, FileSystem.unlink at 1. by rewrite Ht.
    + intros k. rewrite Hlook.
      destruct (decide (k = n)) as [->|Hne].
      * rewrite decide_False by done. rewrite lookup_delete_eq.
        by rewrite decide_True by apply list_elem_of_here.
      * rewrite lookup_delete_ne by done.
        destruct (decide (k ∈ names)) as [Hin|Hnot].
        -- by rewrite decide_True by (by apply list_elem_of_further).
        -- rewrite decide_False; [done|].
           intros [?|?]%elem_of_cons; done.
Qed.

Lemma fs_clear_eq files :
  FileSystem.clear (Some files)
  = (Some {[FileSystem.accessOrderFile := TOrder []]}, Ok tt).
Proof.
  unfold FileSystem.clear, tryCatch, bind. cbn [FileSystem.readdir].
  destruct (fs_unlinkAll_eq (map_to_list files).*1 files)
    as (files' & -> & Hlook).
  { apply NoDup_fst_map_to_list. }
  { intros n Hn. apply list_elem_of_fmap in Hn as ([n' t] & -> & Hin).
    apply elem_of_map_to_list in Hin. by exists t. }
  rewrite fs_setAccessOrder_eq. cbn [default from_option id].
  assert (files' = ∅) as ->; [|done].
  apply map_eq. intros k. rewrite Hlook, lookup_empty.
  destruct (decide _) as [|Hnot]; [done|].
  destruct (files !! k) as [t|] eqn:Hk; [|done].
  exfalso. apply Hnot. apply list_elem_of_fmap. exists (k, t).
  split; [done|]. by apply elem_of_map_to_list.
Qed.

(** X9: [clear] of the file adapter removes every file of the directory, also a
    file that is no cache entry, and leaves an index that holds the empty
    array; every key is a miss afterwards.  A directory that does not exist
    is left alone. *)
Theorem fileSystem_clear_leaves_an_empty_index :
  FileSystem.clear None = (None, Ok tt)
  ∧ (∀ files,
       FileSystem.clear (Some files)
       = (Some {[FileSystem.accessOrderFile := TOrder []]}, Ok tt))
  ∧ (∀ md5 key now d,
       (FileSystem.get md5 key now (FileSystem.clear d).1).2 = Ok JUndefined
       ∧ (FileSystem.has md5 key now (FileSystem.clear d).1).2 = Ok false).
Proof.
  split_and!; [done|apply fs_clear_eq|].
  intros md5 key now d.
  assert (Hget : (FileSystem.get md5 key now (FileSystem.clear d).1).2
                 = Ok JUndefined).
  { destruct d as [files|]; [rewrite fs_clear_eq|]; cbn [fst].
    - destruct (decide (FileSystem.getFilePath md5 key
                        = FileSystem.accessOrderFile)) as [Heq|Hne].
      + unfold FileSystem.get, bind, tryCatch.
        rewrite fs_ensureDirectory_eq. cbn [default from_option id].
        unfold FileSystem.readFile. rewrite Heq, lookup_singleton_eq. cbn.
        by rewrite fs_updateAccessOrder_eq.
      + rewrite fs_get_absent; [done|].
        by apply (lookup_singleton_ne (M := gmap string)).
    - by rewrite fs_get_absent. }
  split; [done|]. rewrite fs_has_eq.
  destruct (FileSystem.get md5 key now (FileSystem.clear d).1) as [d' [v|err]];
    cbn in *; by simplify_eq.
Qed.

Lemma fs_cleanupStep_returns now validKeys file files t :
  files !! file = Some t →
  ∃ d' validKeys',
    FileSystem.cleanupStep now validKeys file (Some files) = (d', Ok validKeys')
    ∧ (d' = Some files ∨ d' = Some (delete file files)).
Proof.
  intros Hfile.
  unfold FileSystem.cleanupStep, tryCatch, bind, FileSystem.readFile,
    FileSystem.unlink, lift, ret.
  rewrite Hfile.
  destruct t as [| | | |e|l]; cbn; rewrite ?Hfile; cbn;
    try (eexists _, _; split; [reflexivity|tauto]).
  destruct (isExpired e now); rewrite ?Hfile; cbn;
    eexists _, _; split; first [reflexivity | tauto].
Qed.

Lemma fs_cleanupLoop_returns now names validKeys files :
  NoDup names → (∀ n, n ∈ names → is_Some (files !! n)) →
  ∃ files' validKeys',
    FileSystem.cleanupLoop now validKeys names (Some files)
    = (Some files', Ok validKeys')
    ∧ ∀ name, name ∉ names → files' !! name = files !! name.
Proof.
  revert validKeys files. induction names as [|n names IH];
    intros validKeys files Hnd Hall.
  - by exists files, validKeys.
  - apply NoDup_cons in Hnd as [Hn Hnd].
    destruct (Hall n (list_elem_of_here _ _)) as [t Ht].
    destruct (fs_cleanupStep_returns now validKeys n files t Ht)
      as (d1 & validKeys1 & Hstep & Hd1).
    assert (H1 : ∃ files1, d1 = Some files1
                 ∧ ∀ name, name ≠ n → files1 !! name = files !! name).
    { destruct Hd1 as [->| ->]; eexists; (split; [reflexivity|]); [done|].
      intros name Hne. by rewrite lookup_delete_ne. }
    destruct H1 as (files1 & -> & Hsame).
    destruct (IH validKeys1 files1 Hnd) as (files' & validKeys' & Hloop & Hrest).
    { intros m Hm. rewrite Hsame by (by intros ->).
      apply Hall. by apply list_elem_of_further. }
    exists files', validKeys'. split.
    + cbn. unfold bind at 1. by rewrite Hstep.
    + intros name Hnot. rewrite Hrest, Hsame; [done| |].
      * intros ->. apply Hnot, list_elem_of_here.
      * intros Hin. apply Hnot. by apply list_elem_of_further.
Qed.

Lemma fs_evictLoop_returns self order files :
  ∃ files' order',
    FileSystem.evictLoop self order (Some files) = (Some files', Ok order').
Proof.
  revert files. induction order as [|oldest rest IH]; intros files.
  - by eexists _, _.
  - cbn. destruct (gt_bound _ _); [|by eexists _, _].
    unfold bind at 1.
    destruct (truthyKey oldest); [|apply IH].
    unfold tryCatch, FileSystem.unlink.
    destruct (files !! (oldest +:+ ".json")); apply IH.
Qed.

(** [cleanup] returns whenever the index is absent, unparseable or an
    array, and leaves an index that holds an array. *)
Lemma fs_cleanup_returns self now d order0 :
  asArray (indexedOrder d) = Ok order0 →
  ∃ files' order',
    FileSystem.cleanup self now d
    = (Some (<[FileSystem.accessOrderFile := TOrder order']> files'), Ok tt).
Proof.
  intros Hok. unfold FileSystem.cleanup.
  erewrite bind_Ok by apply fs_ensureDirectory_eq.
  set (files := default ∅ d).
  erewrite bind_Ok by reflexivity.
  erewrite bind_Ok by apply fs_getAccessOrder_eq.
  destruct (fs_cleanupLoop_returns now
              (filter (λ f, f ≠ "__access_order.json") (map_to_list files).*1)
              [] files) as (files1 & validKeys & Hloop & Hsame).
  { apply NoDup_filter, NoDup_fst_map_to_list. }
  { intros n [_ Hn]%list_elem_of_filter.
    apply list_elem_of_fmap in Hn as ([n' t] & -> & Hin).
    apply elem_of_map_to_list in Hin. by exists t. }
  erewrite bind_Ok by exact Hloop.
  assert (Hidx : indexedOrder (Some files) = indexedOrder d)
    by (unfold files; by destruct d).
  rewrite Hidx, Hok. unfold lift at 1. unfold bind at 1.
  destruct (fs_evictLoop_returns self
              (FileSystem.addMissing (filter (λ key, key ∈ validKeys) order0)
                 validKeys) files1) as (files2 & order2 & Hevict).
  erewrite bind_Ok by exact Hevict.
  rewrite fs_setAccessOrder_eq. by eexists _, _.
Qed.

Lemma fs_set_returns md5 self key v options now d order0 :
  FileSystem.getFilePath md5 key ≠ FileSystem.accessOrderFile →
  asArray (indexedOrder d) = Ok order0 →
  ∃ files order,
    FileSystem.set md5 self key v options now d
    = (Some (<[FileSystem.accessOrderFile := TOrder (order ++ [key])]>
               (<[FileSystem.getFilePath md5 key
                  := TEntry (newEntry v options now)]> files)), Ok tt)
    ∧ key ∉ order.
Proof.
  intros Hne Hok. unfold FileSystem.set.
  destruct (fs_cleanup_returns self now d order0 Hok)
    as (files1 & order1 & Hclean).
  erewrite bind_Ok by exact Hclean.
  erewrite bind_Ok
    by (rewrite fs_getAccessOrder_eq; by rewrite indexedOrder_insert_order).
  unfold lift at 1. unfold bind at 1. cbn [asArray].
  assert (Hmid : ∃ files2 order2,
    (if negb (bool_decide (key ∈ order1))
        && ge_bound (length order1) (FileSystem.maxSize self)
     then match order1 with
          | oldestKey :: rest =>
              if truthyKey oldestKey
              then tryCatch (FileSystem.unlink (oldestKey +:+ ".json")) (ret tt) ;;
                   FileSystem.setAccessOrder rest
              else ret tt
          | [] => ret tt
          end
     else ret tt)
      (Some (<[FileSystem.accessOrderFile := TOrder order1]> files1))
    = (Some (<[FileSystem.accessOrderFile := TOrder order2]> files2), Ok tt)).
  { destruct (_ && _); [|by eexists _, _].
    destruct order1 as [|oldest rest]; [by eexists _, _|].
    destruct (truthyKey oldest); [|by eexists _, _].
    unfold bind, tryCatch, FileSystem.unlink, ret.
    destruct (_ !! (oldest +:+ ".json")); eexists _, _;
      by rewrite fs_setAccessOrder_eq. }
  destruct Hmid as (files2 & order2 & Hmid).
  erewrite bind_Ok by exact Hmid.
  erewrite bind_Ok by reflexivity.
  rewrite fs_updateAccessOrder_eq.
  rewrite indexedOrder_insert_ne, indexedOrder_insert_order by done.
  cbn [asArray default from_option id].
  exists (<[FileSystem.accessOrderFile := TOrder order2]> files2),
    (without key order2).
  split; [done|]. intros Hin%elem_of_without. tauto.
Qed.

(** X10: whatever the directory holds, as long as its index is absent,
    unparseable or an array, [set] of the file adapter returns: it stores
    the entry and leaves an index that is an array with [key] at its end and
    nowhere else. *)
Theorem fileSystem_set_returns_and_stores (md5 : string → string)
  (self : FileSystem.FileSystemAdapter) (key : string) (v : jsval)
  (options : option CacheOptions) (now : Z) (d : option (gmap string text))
  (order0 : list string) :
  FileSystem.getFilePath md5 key ≠ FileSystem.accessOrderFile →
  asArray (indexedOrder d) = Ok order0 →
  ∃ files' order,
    FileSystem.set md5 self key v options now d = (Some files', Ok tt)
    ∧ files' !! FileSystem.getFilePath md5 key
      = Some (TEntry (newEntry v options now))
    ∧ asArray (indexedOrder (Some files')) = Ok (order ++ [key])
    ∧ key ∉ order.
Proof.
  intros Hne Hok.
  destruct (fs_set_returns md5 self key v options now d order0 Hne Hok)
    as (files & order & Hset & Hnot).
  eexists _, order. split_and!; [exact Hset| | |done].
  - rewrite lookup_insert_ne by done. apply lookup_insert_eq.
  - by rewrite indexedOrder_insert_order.
Qed.

Lemma fileSystem_set_returns_and_stores_witness :
  FileSystem.getFilePath md5_examples "A" ≠ FileSystem.accessOrderFile
  ∧ asArray (indexedOrder (Some corruptDirectory)) = Ok []
  ∧ ∃ files' order,
      FileSystem.set md5_examples (FileSystem.new (withMaxSize 2)) "A"
        (JStr "a") None 0 (Some corruptDirectory) = (Some files', Ok tt)
      ∧ files' !! FileSystem.getFilePath md5_examples "A"
        = Some (TEntry (newEntry (JStr "a") None 0))
      ∧ asArray (indexedOrder (Some files')) = Ok (order ++ ["A"])
      ∧ "A" ∉ order.
Proof.
  assert (Hne : FileSystem.getFilePath md5_examples "A"
                ≠ FileSystem.accessOrderFile) by (vm_compute; discriminate).
  assert (Hok : asArray (indexedOrder (Some corruptDirectory)) = Ok [])
    by (vm_compute; reflexivity).
  split; [exact Hne|]. split; [exact Hok|].
  exact (fileSystem_set_returns_and_stores md5_examples
           (FileSystem.new (withMaxSize 2)) "A" (JStr "a") None 0
           (Some corruptDirectory) [] Hne Hok).
Defined.

Lemma insert_insert_insert {A : Type} (m : gmap string A) i j x y z :
  <[i := x]> (<[j := y]> (<[i := z]> m)) = <[i := x]> (<[j := y]> m).
Proof.
  apply map_eq. intros k. destruct (decide (k = i)) as [->|Hi].
  - by rewrite !lookup_insert_eq.
  - rewrite !(lookup_insert_ne _ i) by done.
    destruct (decide (k = j)) as [->|Hj].
    + by rewrite !lookup_insert_eq.
    + by rewrite !lookup_insert_ne by done.
Qed.

(** X11: on a directory that does not exist yet, [get] and [has] create it and
    miss, [delete] leaves it absent, and [set] creates it with the entry and
    an index that holds the key. *)
Theorem fileSystem_first_use_creates_the_directory (md5 : string → string)
  (self : FileSystem.FileSystemAdapter) (key : string) (v : jsval)
  (options : option CacheOptions) (now : Z) :
  FileSystem.getFilePath md5 key ≠ FileSystem.accessOrderFile →
  FileSystem.get md5 key now None = (Some ∅, Ok JUndefined)
  ∧ FileSystem.has md5 key now None = (Some ∅, Ok false)
  ∧ FileSystem.delete md5 key None = (None, Ok tt)
  ∧ FileSystem.set md5 self key v options now None
    = (Some (<[FileSystem.accessOrderFile := TOrder [key]]>
               {[FileSystem.getFilePath md5 key
                 := TEntry (newEntry v options now)]}), Ok tt).
Proof.
  intros Hne. split_and!; [done..|].
  unfold FileSystem.set, FileSystem.cleanup.
  erewrite bind_Ok; [|erewrite bind_Ok by apply fs_ensureDirectory_eq;
                      cbn [default from_option id]; reflexivity].
  rewrite bind_Ok
    with (s1 := Some (<[FileSystem.accessOrderFile := TOrder []]> ∅))
         (a := JsArray []) by reflexivity.
  unfold lift at 1. unfold bind at 1. cbn [asArray].
  assert (Hif : (negb (bool_decide (key ∈ @nil string))
                 && ge_bound (length (@nil string)) (FileSystem.maxSize self)
                 = true)
                ∨ (negb (bool_decide (key ∈ @nil string))
                   && ge_bound (length (@nil string)) (FileSystem.maxSize self)
                   = false))
    by (destruct (_ && _); tauto).
  destruct Hif as [-> | ->].
  all: erewrite bind_Ok by reflexivity.
  all: erewrite bind_Ok by reflexivity.
  all: rewrite fs_updateAccessOrder_eq.
  all: rewrite indexedOrder_insert_ne, indexedOrder_insert_order by done.
  all: cbn [asArray default from_option id].
  all: f_equal; f_equal.
  all: apply insert_insert_insert.
Qed.

Lemma fileSystem_first_use_creates_the_directory_witness :
  FileSystem.getFilePath md5_examples "A" ≠ FileSystem.accessOrderFile
  ∧ FileSystem.get md5_examples "A" 0 None = (Some ∅, Ok JUndefined)
  ∧ FileSystem.set md5_examples (FileSystem.new None) "A" (JStr "a") None 0 None
    = (Some (<["__access_order.json" := TOrder ["A"]]>
               {["7fc56270e7a70fa81a5935b72eacbe29.json"
                 := TEntry (newEntry (JStr "a") None 0)]}), Ok tt).
Proof.
  assert (Hne : FileSystem.getFilePath md5_examples "A"
                ≠ FileSystem.accessOrderFile) by (vm_compute; discriminate).
  destruct (fileSystem_first_use_creates_the_directory md5_examples
              (FileSystem.new None) "A" (JStr "a") None 0 Hne)
    as (Hget & _ & _ & Hset).
  split; [exact Hne|]. split; [exact Hget|exact Hset].
Defined.

Lemma indexedOrder_no_array d e :
  asArray (indexedOrder d) = Throw e → ∃ files, d = Some files.
Proof. destruct d as [files|]; [eauto|done]. Qed.

Lemma fs_get_no_array md5 key now d e :
  FileSystem.getFilePath md5 key ≠ FileSystem.accessOrderFile →
  asArray (indexedOrder d) = Throw e →
  ∃ d', FileSystem.get md5 key now d = (d', Ok JUndefined)
        ∧ indexedOrder d' = indexedOrder d.
Proof.
  intros Hne Hno. destruct (indexedOrder_no_array d e Hno) as [files ->].
  unfold FileSystem.get, bind, tryCatch.
  rewrite fs_ensureDirectory_eq. cbn [default from_option id].
  unfold FileSystem.readFile.
  destruct (files !! FileSystem.getFilePath md5 key) as [t|] eqn:Hfile;
    [|by eexists].
  unfold lift. destruct (JSON_parse t) as [j|err]; [|by eexists].
  destruct (isExpiredJson j now) as [[|]|err]; [| |by eexists].
  - unfold FileSystem.unlink. rewrite Hfile.
    rewrite fs_getAccessOrder_eq.
    rewrite indexedOrder_delete_ne, Hno by done.
    eexists. split; [done|]. by rewrite indexedOrder_delete_ne.
  - rewrite fs_updateAccessOrder_eq, Hno. by eexists.
Qed.

Lemma fs_set_no_array md5 self key v options now d e :
  asArray (indexedOrder d) = Throw e →
  ∃ d', FileSystem.set md5 self key v options now d = (d', Throw TypeError)
        ∧ indexedOrder d' = indexedOrder d.
Proof.
  intros Hno. destruct (indexedOrder_no_array d e Hno) as [files ->].
  pose proof (asArray_Throw _ _ Hno) as ->.
  unfold FileSystem.set, FileSystem.cleanup.
  destruct (fs_cleanupLoop_returns now
              (filter (λ f, f ≠ "__access_order.json") (map_to_list files).*1)
              [] files) as (files1 & validKeys & Hloop & Hsame).
  { apply NoDup_filter, NoDup_fst_map_to_list. }
  { intros n [_ Hn]%list_elem_of_filter.
    apply list_elem_of_fmap in Hn as ([n' t] & -> & Hin).
    apply elem_of_map_to_list in Hin. by exists t. }
  exists (Some files1). split.
  - apply bind_Throw.
    erewrite bind_Ok by apply fs_ensureDirectory_eq.
    cbn [default from_option id].
    erewrite bind_Ok by reflexivity.
    erewrite bind_Ok by apply fs_getAccessOrder_eq.
    erewrite bind_Ok by exact Hloop.
    apply bind_Throw. unfold lift. by rewrite Hno.
  - unfold indexedOrder. rewrite Hsame; [done|].
    intros [Hne _]%list_elem_of_filter. by apply Hne.
Qed.

(** X12: once the index file of the file adapter holds JSON that is not an
    array, every [get] is a miss, also for a key whose entry is stored and
    has not expired, and every [set] raises a TypeError; [delete] returns;
    none of them repairs the index, [clear] does. *)
Theorem fileSystem_index_that_is_no_array (md5 : string → string)
  (d : option (gmap string text)) (e : exn) :
  (∀ k, FileSystem.getFilePath md5 k ≠ FileSystem.accessOrderFile) →
  asArray (indexedOrder d) = Throw e →
  (∀ key now,
     ∃ d', FileSystem.get md5 key now d = (d', Ok JUndefined)
           ∧ indexedOrder d' = indexedOrder d)
  ∧ (∀ self key v options now,
       ∃ d', FileSystem.set md5 self key v options now d = (d', Throw TypeError)
             ∧ indexedOrder d' = indexedOrder d)
  ∧ (∀ key,
       ∃ d', FileSystem.delete md5 key d = (d', Ok tt)
             ∧ indexedOrder d' = indexedOrder d)
  ∧ indexedOrder (FileSystem.clear d).1 = JsArray [].
Proof.
  intros Hmd5 Hno. split_and!.
  - intros key now. by apply (fs_get_no_array _ _ _ _ e).
  - intros self key v options now. by apply (fs_set_no_array _ _ _ _ _ _ _ e).
  - intros key. rewrite fs_delete_eq.
    destruct (indexedOrder_no_array d e Hno) as [files ->].
    destruct (files !! FileSystem.getFilePath md5 key); [|by eexists].
    cbv zeta. rewrite indexedOrder_delete_ne, Hno by done.
    eexists. split; [done|]. by rewrite indexedOrder_delete_ne.
  - destruct (indexedOrder_no_array d e Hno) as [files ->].
    by rewrite fs_clear_eq.
Qed.

Lemma fileSystem_index_that_is_no_array_witness :
  let e := newEntry (JStr "a") None 0 in
  let d := Some (<["__access_order.json" := TNull]>
                   (<[FileSystem.getFilePath md5_examples "A" := TEntry e]> ∅)) in
  asArray (indexedOrder d) = Throw TypeError
  ∧ isExpired e 1 = false
  ∧ (FileSystem.get md5_examples "A" 1 d).2 = Ok JUndefined
  ∧ (FileSystem.set md5_examples (FileSystem.new None) "B" (JStr "b") None 1 d).2
    = Throw TypeError.
Proof.
  intros e d.
  assert (Hmd5 : ∀ k, FileSystem.getFilePath md5_examples k
                      ≠ FileSystem.accessOrderFile).
  { intros k. unfold FileSystem.getFilePath, md5_examples.
    repeat case_decide; vm_compute; discriminate. }
  assert (Hno : asArray (indexedOrder d) = Throw TypeError)
    by (vm_compute; reflexivity).
  destruct (fileSystem_index_that_is_no_array md5_examples d TypeError Hmd5 Hno)
    as (Hget & Hset & _ & _).
  split; [exact Hno|]. split; [reflexivity|].
  destruct (Hget "A" 1) as (d1 & -> & _).
  destruct (Hset (FileSystem.new None) "B" (JStr "b") None 1) as (d2 & -> & _).
  done.
Defined.
(** ** Keys with the same digest *)

(** X13: the file adapter tells keys apart by their digest only: after
    [set(key, v)] a [get] of any key with the digest of [key] returns [v]
    until the entry expires. *)
Theorem fileSystem_keys_with_one_digest_share_the_entry
  (md5 : string → string) (self : FileSystem.FileSystemAdapter)
  (key key2 : string) (v : jsval) (options : option CacheOptions)
  (now t : Z) (d : option (gmap string text)) (order0 : list string) :
  md5 key2 = md5 key →
  FileSystem.getFilePath md5 key ≠ FileSystem.accessOrderFile →
  asArray (indexedOrder d) = Ok order0 →
  isExpired (newEntry v options now) t = false →
  ∃ d1,
    FileSystem.set md5 self key v options now d = (d1, Ok tt)
    ∧ (FileSystem.get md5 key2 t d1).2 = Ok v.
Proof.
  intros Hdigest Hne Hok Hlive.
  destruct (fs_set_returns md5 self key v options now d order0 Hne Hok)
    as (files & order & Hset & _).
  eexists. split; [exact Hset|].
  erewrite fs_get_entry; [by rewrite Hlive| |by rewrite indexedOrder_insert_order].
  unfold FileSystem.getFilePath. rewrite Hdigest.
  rewrite lookup_insert_ne by done. apply lookup_insert_eq.
Qed.

Lemma fileSystem_keys_with_one_digest_share_the_entry_witness :
  md5_examples "y" = md5_examples "x"
  ∧ ∃ d1,
      FileSystem.set md5_examples (FileSystem.new None) "x" (JStr "a") None 0
        None = (d1, Ok tt)
      ∧ (FileSystem.get md5_examples "y" 1 d1).2 = Ok (JStr "a").
Proof.
  split; [reflexivity|].
  apply (fileSystem_keys_with_one_digest_share_the_entry md5_examples
           (FileSystem.new None) "x" "y" (JStr "a") None 0 1 None []);
    [reflexivity|vm_compute; discriminate|reflexivity|reflexivity].
Defined.


(** ** Memoization *)

Section MemoizeCaches.

Context {A U : Type}.
Variable fn : A → M U jsval.
Variable options : CacheOptions.
Variable keyResolver : A → string.

#[local] Abbreviation memoized := (Memoize.memoized fn options keyResolver).

(** What the cache holds after a call that has returned [v]. *)
Lemma memoized_Ok_entry a now now' cache u cache1 u1 v :
  memoized a now now' (cache, u) = Some (cache1, u1, Ok v) →
  v ≠ JUndefined →
  ∃ e, Memory.store cache1 !! keyResolver a = Some e ∧ value e = v.
Proof.
  unfold Memoize.memoized. cbn [fst snd]. intros Hcall Hv.
  case_bool_decide as Hhit.
  - injection Hcall as <- <- <-. unfold Memory.get in *.
    destruct (Memory.store cache !! keyResolver a) as [e|] eqn:He; [|done].
    destruct (isExpired e now); [done|]. cbn in *. by exists e.
  - destruct (fn a u) as [u' [r|err]]; [|discriminate].
    destruct (Memory.set _ _ _ _ _) as [cache'|] eqn:Hset; [|discriminate].
    injection Hcall as <- <- <-.
    apply memory_set_lookup_key in Hset. by eexists.
Qed.

Lemma memoized_hit a now now' cache u e :
  Memory.store cache !! keyResolver a = Some e →
  isExpired e now = false → value e ≠ JUndefined →
  memoized a now now' (cache, u)
  = Some (Memory.updateAccessOrder (keyResolver a) cache, u, Ok (value e)).
Proof.
  intros He Hlive Hv. unfold Memoize.memoized, Memory.get. cbn [fst snd].
  rewrite He, Hlive. cbn [fst snd]. by rewrite bool_decide_eq_true_2.
Qed.

(** A call that misses: the function runs, and its result is written when
    it returns one. *)
Lemma memoized_miss a now now' cache u :
  consistent cache →
  (Memory.get (keyResolver a) now cache).2 = JUndefined →
  ∃ cache1,
    memoized a now now' (cache, u)
    = Some (cache1, (fn a u).1, (fn a u).2)
    ∧ ∀ v, (fn a u).2 = Ok v →
           Memory.set (keyResolver a) v (Some options) now'
             (Memory.get (keyResolver a) now cache).1 = Some cache1.
Proof.
  intros Hc Hmiss. unfold Memoize.memoized. cbn [fst snd].
  rewrite Hmiss. rewrite bool_decide_eq_false_2 by (by intros ?).
  destruct (fn a u) as [u' [r|err]]; cbn [fst snd].
  - assert (Hc1 : consistent (Memory.get (keyResolver a) now cache).1).
    { apply (consistent_step (OpGet (keyResolver a)) now cache _
               (Value (Memory.get (keyResolver a) now cache).2) Hc eq_refl).
      reflexivity. }
    destruct (memory_set_consistent (keyResolver a) r (Some options) now' _ Hc1)
      as (cache1 & Hset & _).
    exists cache1. rewrite Hset. split; [done|]. by intros v [= <-].
  - eexists. split; [done|]. by intros v [=].
Qed.

End MemoizeCaches.

(** X14: a call of a memoized function whose key matches an entry that has not
    expired returns the cached value and does not run the function: the
    world is as it was.  In particular the call that follows one that has
    returned [v], with arguments of the same key. *)
Theorem memoized_call_is_served_from_the_cache {A U : Type}
  (fn : A → M U jsval) (options : CacheOptions) (keyResolver : A → string)
  (a a2 : A) (now now' now2 now2' : Z) (cache cache1 : Memory.MemoryAdapter)
  (u u1 : U) (v : jsval) :
  Memoize.memoized fn options keyResolver a now now' (cache, u)
  = Some (cache1, u1, Ok v) →
  v ≠ JUndefined →
  keyResolver a2 = keyResolver a →
  (∀ e, Memory.store cache1 !! keyResolver a = Some e →
        isExpired e now2 = false) →
  Memoize.memoized fn options keyResolver a2 now2 now2' (cache1, u1)
  = Some (Memory.updateAccessOrder (keyResolver a) cache1, u1, Ok v).
Proof.
  intros Hcall Hv Hkey Hlive.
  destruct (memoized_Ok_entry fn options keyResolver _ _ _ _ _ _ _ _ Hcall Hv)
    as (e & He & <-).
  rewrite <- Hkey in He |- *.
  apply memoized_hit; [done| |done].
  apply Hlive. by rewrite <- Hkey.
Qed.

Lemma memoized_call_is_served_from_the_cache_witness :
  let memoized := Memoize.memoized countingEcho noOptions (λ s, s) in
  ∃ cache1,
    memoized "x" 0 1 (Memoize.newCache noOptions, 0%nat)
    = Some (cache1, 1%nat, Ok (JStr "x"))
    ∧ memoized "x" 2 3 (cache1, 1%nat)
      = Some (Memory.updateAccessOrder "x" cache1, 1%nat, Ok (JStr "x")).
Proof.
  intros memoized.
  destruct (memoized "x" 0 1 (Memoize.newCache noOptions, 0%nat))
    as [[[cache1 u1] r]|] eqn:Hcall; [|vm_compute in Hcall; discriminate].
  assert (u1 = 1%nat ∧ r = Ok (JStr "x")) as [-> ->]
    by (vm_compute in Hcall; by injection Hcall as _ <- <-).
  exists cache1. split; [done|].
  apply (memoized_call_is_served_from_the_cache countingEcho noOptions (λ s, s)
           "x" "x" 0 1 2 3 _ _ _ _ _ Hcall); [done|done|].
  intros e He. vm_compute in Hcall. injection Hcall as <-.
  vm_compute in He. by injection He as <-.
Defined.

(** X15: with a ttl, a result that the function has returned is served from the
    cache until [ttl] after it was written, and from then on the function
    runs again. *)
Theorem memoized_result_expires_with_the_ttl {A U : Type}
  (fn : A → M U jsval) (options : CacheOptions) (keyResolver : A → string)
  (a : A) (d now now' : Z) (cache : Memory.MemoryAdapter) (u u1 : U)
  (v : jsval) :
  ttl options = Some d → d ≠ 0 → now' + d ≠ 0 →
  consistent cache → truthyKey (keyResolver a) = true →
  (Memory.get (keyResolver a) now cache).2 = JUndefined →
  fn a u = (u1, Ok v) → v ≠ JUndefined →
  ∃ cache1,
    Memoize.memoized fn options keyResolver a now now' (cache, u)
    = Some (cache1, u1, Ok v)
    ∧ (∀ now2 now2',
         now2 < now' + d →
         Memoize.memoized fn options keyResolver a now2 now2' (cache1, u1)
         = Some (Memory.updateAccessOrder (keyResolver a) cache1, u1, Ok v))
    ∧ (∀ now2 now2',
         now' + d <= now2 →
         ∃ cache2,
           Memoize.memoized fn options keyResolver a now2 now2' (cache1, u1)
           = Some (cache2, (fn a u1).1, (fn a u1).2)).
Proof.
  intros Httl Hd Hsum Hc Hkey Hmiss Hfn Hv.
  destruct (memoized_miss fn options keyResolver a now now' cache u Hc Hmiss)
    as (cache1 & Hcall & Hset).
  rewrite Hfn in Hcall, Hset. cbn [fst snd] in Hcall, Hset.
  specialize (Hset v eq_refl).
  exists cache1. split; [done|].
  pose proof (memory_set_lookup_key _ _ _ _ _ _ Hset) as He.
  assert (Hexp : ∀ t, isExpired (newEntry v (Some options) now') t
                      = bool_decide (now' + d <= t)).
  { intros t. destruct options as [ttl0 maxSize0]. cbn in Httl. subst ttl0.
    by apply isExpired_newEntry. }
  split.
  - intros now2 now2' Hnow2.
    apply (memoized_hit fn options keyResolver a now2 now2' cache1 u1 _ He);
      [|done].
    rewrite Hexp. apply bool_decide_eq_false. lia.
  - intros now2 now2' Hnow2.
    assert (Hc1 : consistent cache1).
    { eapply consistent_set; [|exact Hkey|exact Hset].
      apply (consistent_step (OpGet (keyResolver a)) now cache _
               (Value (Memory.get (keyResolver a) now cache).2) Hc eq_refl).
      reflexivity. }
    destruct (memoized_miss fn options keyResolver a now2 now2' cache1 u1 Hc1)
      as (cache2 & Hcall2 & _); [|by exists cache2].
    rewrite (memory_get_entry _ _ _ _ He), Hexp.
    by rewrite bool_decide_eq_true_2.
Qed.

Lemma memoized_result_expires_with_the_ttl_witness :
  let memoized := Memoize.memoized countingEcho (ttlOnly 100) (λ s, s) in
  ∃ cache1 cache2,
    memoized "x" 0 1 (Memoize.newCache (ttlOnly 100), 0%nat)
    = Some (cache1, 1%nat, Ok (JStr "x"))
    ∧ memoized "x" 50 51 (cache1, 1%nat)
      = Some (Memory.updateAccessOrder "x" cache1, 1%nat, Ok (JStr "x"))
    ∧ memoized "x" 150 151 (cache1, 1%nat)
      = Some (cache2, 2%nat, Ok (JStr "x")).
Proof.
  intros memoized.
  destruct (memoized_result_expires_with_the_ttl countingEcho (ttlOnly 100)
              (λ s, s) "x" 100 0 1 (Memoize.newCache (ttlOnly 100))
              0%nat 1%nat (JStr "x"))
    as (cache1 & Hcall & Hhit & Hmiss);
    [reflexivity|discriminate|discriminate|apply consistent_new|reflexivity
    |reflexivity|reflexivity|discriminate|].
  destruct (Hmiss 150 151) as [cache2 Hcall2]; [lia|].
  exists cache1, cache2. split; [exact Hcall|].
  split; [apply Hhit; lia|exact Hcall2].
Defined.

(** X16: a call in which the function throws raises the same exception and
    caches nothing: the next call with that key runs the function again. *)
Theorem memoized_failure_is_not_cached {A U : Type}
  (fn : A → M U jsval) (options : CacheOptions) (keyResolver : A → string)
  (a : A) (now now' : Z) (cache cache1 : Memory.MemoryAdapter) (u u1 : U)
  (e : exn) :
  consistent cache →
  Memoize.memoized fn options keyResolver a now now' (cache, u)
  = Some (cache1, u1, Throw e) →
  fn a u = (u1, Throw e)
  ∧ ∀ a2 now2 now2',
      keyResolver a2 = keyResolver a →
      ∃ cache2,
        Memoize.memoized fn options keyResolver a2 now2 now2' (cache1, u1)
        = Some (cache2, (fn a2 u1).1, (fn a2 u1).2).
Proof.
  intros Hc Hcall. unfold Memoize.memoized in Hcall. cbn [fst snd] in Hcall.
  case_bool_decide as Hhit; [discriminate|].
  destruct (fn a u) as [u' [r|err]] eqn:Hfn.
  { destruct (Memory.set _ _ _ _ _); discriminate. }
  injection Hcall as <- <- <-. split; [done|].
  intros a2 now2 now2' Hkey.
  assert (Hc1 : consistent (Memory.get (keyResolver a) now cache).1).
  { apply (consistent_step (OpGet (keyResolver a)) now cache _
             (Value (Memory.get (keyResolver a) now cache).2) Hc eq_refl).
    reflexivity. }
  destruct (memoized_miss fn options keyResolver a2 now2 now2' _ u' Hc1)
    as (cache2 & Hcall2 & _); [|by exists cache2].
  rewrite Hkey.
  assert (Hundef : (Memory.get (keyResolver a) now cache).2 = JUndefined).
  { destruct (decide ((Memory.get (keyResolver a) now cache).2 = JUndefined));
      [done|by destruct Hhit]. }
  clear Hhit Hc1. unfold Memory.get in *.
  destruct (Memory.store cache !! keyResolver a) as [e0|] eqn:He0; cbn.
  - destruct (isExpired e0 now) eqn:Hexp0; cbn in *.
    + by rewrite lookup_delete_eq.
    + rewrite He0. by destruct (isExpired e0 now2).
  - by rewrite He0.
Qed.

Lemma memoized_failure_is_not_cached_witness :
  let memoized := Memoize.memoized countingFailure noOptions (λ s, s) in
  ∃ cache1 cache2,
    memoized "x" 0 1 (Memoize.newCache noOptions, 0%nat)
    = Some (cache1, 1%nat, Throw TypeError)
    ∧ memoized "x" 2 3 (cache1, 1%nat) = Some (cache2, 2%nat, Throw TypeError).
Proof.
  intros memoized.
  destruct (memoized "x" 0 1 (Memoize.newCache noOptions, 0%nat))
    as [[[cache1 u1] r]|] eqn:Hcall; [|vm_compute in Hcall; discriminate].
  assert (u1 = 1%nat ∧ r = Throw TypeError) as [-> ->]
    by (vm_compute in Hcall; by injection Hcall as _ <- <-).
  destruct (memoized_failure_is_not_cached countingFailure noOptions (λ s, s)
              "x" 0 1 _ _ _ _ _ (consistent_new (Some noOptions)) Hcall)
    as [_ Hnext].
  destruct (Hnext "x" 2 3 eq_refl) as [cache2 Hcall2].
  by exists cache1, cache2.
Defined.

(** ** The bound of a memoized function *)

Lemma memoized_consistent {A U : Type} (fn : A → M U jsval)
  (options : CacheOptions) (keyResolver : A → string) a now now' cache u :
  consistent cache → truthyKey (keyResolver a) = true →
  ∃ cache' u' r,
    Memoize.memoized fn options keyResolver a now now' (cache, u)
    = Some (cache', u', r)
    ∧ consistent cache'
    ∧ Memory.maxSize cache' = Memory.maxSize cache.
Proof.
  intros Hc Hkey.
  assert (Hc1 : consistent (Memory.get (keyResolver a) now cache).1).
  { apply (consistent_step (OpGet (keyResolver a)) now cache _
             (Value (Memory.get (keyResolver a) now cache).2) Hc eq_refl).
    reflexivity. }
  assert (Hmax1 : Memory.maxSize (Memory.get (keyResolver a) now cache).1
                  = Memory.maxSize cache).
  { unfold Memory.get. destruct (Memory.store cache !! keyResolver a) as [e|];
      [|done]. by destruct (isExpired e now). }
  unfold Memoize.memoized. cbn [fst snd].
  case_bool_decide as Hhit; [by eexists _, _, _|].
  destruct (fn a u) as [u' [r|err]]; [|by eexists _, _, _].
  destruct (memory_set_consistent (keyResolver a) r (Some options) now' _ Hc1)
    as (cache1 & Hset & Hmax & _).
  rewrite Hset. eexists _, _, _. split; [done|]. split; [|congruence].
  by apply (consistent_set _ _ _ _ _ _ Hc1 Hkey Hset).
Qed.

(** X17: a memoized function whose keys are never the empty string, as those of
    the default resolver never are, returns from every call, and its cache
    never holds more than [maxSize] results. *)
Theorem memoize_cache_stays_within_the_bound {A U : Type}
  (fn : A → M U jsval) (options : CacheOptions) (keyResolver : A → string)
  (history : list (A * Z * Z)) (u : U) :
  (∀ a, truthyKey (keyResolver a) = true) →
  ∃ cache u',
    Memoize.calls fn options keyResolver history
      (Memoize.newCache options, u) = Some (cache, u')
    ∧ match maxSizeOrInfinity (Some options) with
      | Fin n => (size (Memory.store cache) ≤ n)%nat
      | Infinity => True
      end.
Proof.
  intros Hkeys.
  assert (Hgen : ∀ cache0 u0,
            consistent cache0 →
            ∃ cache u',
              Memoize.calls fn options keyResolver history (cache0, u0)
              = Some (cache, u')
              ∧ consistent cache
              ∧ Memory.maxSize cache = Memory.maxSize cache0).
  { induction history as [|[[a now] now'] history IH]; intros cache0 u0 Hc0.
    - by exists cache0, u0.
    - destruct (memoized_consistent fn options keyResolver a now now' cache0 u0
                  Hc0 (Hkeys a)) as (cache1 & u1 & r & Hcall & Hc1 & Hmax1).
      destruct (IH cache1 u1 Hc1) as (cache & u' & Hrest & Hc & Hmax).
      exists cache, u'. cbn. rewrite Hcall. split; [done|].
      split; [done|congruence]. }
  destruct (Hgen (Memoize.newCache options) u (consistent_new _))
    as (cache & u' & Hcalls & Hc & Hmax).
  exists cache, u'. split; [done|].
  pose proof (within_bound _ Hc) as Hb. rewrite Hmax in Hb.
  change (Memory.maxSize (Memoize.newCache options))
    with (maxSizeOrInfinity (Some options)) in Hb.
  destruct (maxSizeOrInfinity (Some options)) as [n|]; [|done].
  cbn in Hb. apply bool_decide_eq_false in Hb. lia.
Qed.

Lemma memoize_cache_stays_within_the_bound_witness :
  ∃ cache u',
    Memoize.calls countingEcho {| ttl := None; Types.maxSize := Some 2%nat |}
      (λ s, "[" +:+ s +:+ "]")
      [ ("a", 0, 1); ("b", 2, 3); ("c", 4, 5); ("a", 6, 7) ]
      (Memoize.newCache {| ttl := None; Types.maxSize := Some 2%nat |}, 0%nat)
    = Some (cache, u')
    ∧ (size (Memory.store cache) ≤ 2)%nat.
Proof.
  apply (memoize_cache_stays_within_the_bound countingEcho
           {| ttl := None; Types.maxSize := Some 2%nat |}
           (λ s, "[" +:+ s +:+ "]")
           [ ("a", 0, 1); ("b", 2, 3); ("c", 4, 5); ("a", 6, 7) ] 0%nat).
  intros a. reflexivity.
Defined.


(** ** The cache: listeners and events *)

Section Listeners.

Context {S L : Type} `{EqDecision L}.

Lemma elem_of_setAdd (l x : L) (s : list L) :
  x ∈ Cache.setAdd l s ↔ x ∈ s ∨ x = l.
Proof.
  unfold Cache.setAdd. case_bool_decide as Hin.
  - split; [tauto|]. by intros [?| ->].
  - rewrite elem_of_app, list_elem_of_singleton. tauto.
Qed.

Lemma NoDup_setAdd (l : L) (s : list L) : NoDup s → NoDup (Cache.setAdd l s).
Proof.
  intros Hnd. unfold Cache.setAdd. case_bool_decide as Hin; [done|].
  apply NoDup_app. split_and!; [done| |apply NoDup_singleton].
  intros x Hx ->%list_elem_of_singleton. done.
Qed.

Lemma elem_of_setDelete (l x : L) (s : list L) :
  x ∈ Cache.setDelete l s ↔ x ∈ s ∧ x ≠ l.
Proof. unfold Cache.setDelete. rewrite list_elem_of_filter. tauto. Qed.

Lemma NoDup_setDelete (l : L) (s : list L) :
  NoDup s → NoDup (Cache.setDelete l s).
Proof. apply NoDup_filter. Qed.

Lemma listenersOf_add type l (c : Cache.Cache S L) t :
  listenersOf (Cache.addEventListener type l c) t
  = if decide (t = type) then Cache.setAdd l (listenersOf c type)
    else listenersOf c t.
Proof.
  unfold listenersOf, Cache.addEventListener. cbn.
  destruct (decide (t = type)) as [->|Hne].
  - by rewrite lookup_insert_eq.
  - by rewrite lookup_insert_ne.
Qed.

Lemma listenersOf_remove type l (c : Cache.Cache S L) t :
  listenersOf (Cache.removeEventListener type l c) t
  = if decide (t = type) then Cache.setDelete l (listenersOf c type)
    else listenersOf c t.
Proof.
  unfold listenersOf, Cache.removeEventListener.
  destruct (Cache.eventListeners c !! type) as [s|] eqn:Hs; cbn.
  - destruct (decide (t = type)) as [->|Hne].
    + by rewrite lookup_insert_eq.
    + by rewrite lookup_insert_ne.
  - destruct (decide (t = type)) as [->|Hne]; [|done]. by rewrite Hs.
Qed.

Lemma register_snoc acts act (c : Cache.Cache S L) :
  register (acts ++ [act]) c
  = match act with
    | Listen type listener =>
        Cache.addEventListener type listener (register acts c)
    | Unlisten type listener =>
        Cache.removeEventListener type listener (register acts c)
    end.
Proof. unfold register. by rewrite foldl_app. Qed.

Lemma listening_snoc type listener acts (act : registration L) :
  listening type listener (acts ++ [act])
  = match act with
    | Listen t l =>
        if decide (t = type ∧ l = listener) then true
        else listening type listener acts
    | Unlisten t l =>
        if decide (t = type ∧ l = listener) then false
        else listening type listener acts
    end.
Proof. unfold listening. by rewrite foldl_app. Qed.

End Listeners.

(** X18: the listeners of an event type are kept as a set: after any calls of
    [addEventListener] and [removeEventListener] on a new cache, a listener
    is registered for a type, and then once, exactly when the last call
    that names it with that type is one of [addEventListener]; the adapter
    is not touched. *)
Theorem listeners_are_kept_as_a_set {S L : Type} `{EqDecision L}
  (acts : list (registration L)) (options : option Cache.Options)
  (adapter : S) (type : Cache.CacheEventType) :
  let c := register acts (Cache.new options adapter) in
  NoDup (listenersOf c type)
  ∧ (∀ listener,
       listener ∈ listenersOf c type ↔ listening type listener acts = true)
  ∧ Cache.adapter c = adapter.
Proof.
  cbv zeta. induction acts as [|act acts IH] using rev_ind.
  - split_and!; [apply NoDup_nil_2| |done].
    intros listener. cbn. unfold listenersOf. cbn. rewrite lookup_empty. cbn.
    split; [by intros ?%elem_of_nil|done].
  - destruct IH as (Hnd & Hin & Hadapter).
    rewrite register_snoc. destruct act as [t l|t l].
    + rewrite listenersOf_add. split_and!.
      * destruct (decide (type = t)) as [->|Hne]; [|done].
        by apply NoDup_setAdd.
      * intros listener. rewrite listening_snoc.
        destruct (decide (type = t)) as [->|Hne].
        -- rewrite elem_of_setAdd, Hin.
           destruct (decide (t = t ∧ l = listener)) as [[_ ->]|Hno].
           ++ tauto.
           ++ split; [intros [?| ->]; [done|]|tauto]. by destruct Hno.
        -- rewrite Hin. rewrite decide_False; [done|]. by intros [-> _].
      * done.
    + rewrite listenersOf_remove. split_and!.
      * destruct (decide (type = t)) as [->|Hne]; [|done].
        by apply NoDup_setDelete.
      * intros listener. rewrite listening_snoc.
        destruct (decide (type = t)) as [->|Hne].
        -- rewrite elem_of_setDelete, Hin.
           destruct (decide (t = t ∧ l = listener)) as [[_ ->]|Hno].
           ++ split; [by intros [_ ?]|done].
           ++ split; [tauto|]. intros Hl. split; [done|].
              intros ->. by destruct Hno.
        -- rewrite Hin. rewrite decide_False; [done|]. by intros [-> _].
      * unfold Cache.removeEventListener.
        by destruct (Cache.eventListeners _ !! t).
Qed.

Section Events.

Context {S : Type} {SA : Adapter.StorageAdapter S}.
Context {L W : Type} `{EqDecision L}.

Lemma forEach_app (call : L → Cache.CacheEvent → M W unit) l1 l2 event w w1 :
  Cache.forEach call l1 event w = (w1, Ok tt) →
  Cache.forEach call (l1 ++ l2) event w = Cache.forEach call l2 event w1.
Proof.
  revert w. induction l1 as [|l l1 IH]; intros w.
  - cbn. by intros [= <-].
  - rewrite <- app_comm_cons. cbn [Cache.forEach]. unfold bind.
    destruct (call l event w) as [w' [[]|err]]; [|done].
    apply IH.
Qed.

Lemma emitEvent_eq (call : L → Cache.CacheEvent → M W unit)
  (c : Cache.Cache S L) event :
  Cache.emitEvent call c event
  = Cache.forEach call (listenersOf c (Cache.type event)) event.
Proof.
  unfold Cache.emitEvent, listenersOf.
  by destruct (Cache.eventListeners c !! Cache.type event).
Qed.

Lemma run_cons (call : L → Cache.CacheEvent → M W unit) r rs
  (c c' : Cache.Cache S L) w w' xs :
  Cache.run call (r :: rs) c w = Some (c', w', xs) →
  ∃ c1 w1 x xs',
    Cache.step call r.1.1 r.1.2 r.2 c w = Some (c1, w1, x)
    ∧ Cache.run call rs c1 w1 = Some (c', w', xs')
    ∧ xs = x :: xs'.
Proof.
  destruct r as [[r now] now']. cbn [fst snd].
  change (Cache.run call ((r, now, now') :: rs) c w)
    with (match Cache.step call r now now' c w with
          | Some (c1, w1, x) =>
              match Cache.run call rs c1 w1 with
              | Some (c2, w2, xs) => Some (c2, w2, x :: xs)
              | None => None
              end
          | None => None
          end).
  destruct (Cache.step call r now now' c w) as [[[c1 w1] x]|]; [|done].
  destruct (Cache.run call rs c1 w1) as [[[c2 w2] xs']|] eqn:Hrun; [|done].
  intros [= <- <- <-]. by exists c1, w1, x, xs'.
Qed.

(** No listener is called for an event type without listeners. *)
Lemma emitThen_no_listener {A : Type} (call : L → Cache.CacheEvent → M W unit)
  (c : Cache.Cache S L) event (a : A) w :
  listenersOf c (Cache.type event) = [] →
  Cache.emitThen call c event a w = Some (c, w, Ok a).
Proof.
  intros Hnone. unfold Cache.emitThen. by rewrite emitEvent_eq, Hnone.
Qed.

Lemma step_no_listener (call : L → Cache.CacheEvent → M W unit) r now now'
  (c c1 : Cache.Cache S L) w w1 x :
  (∀ t, t ≠ Cache.OnExpired → listenersOf c t = []) →
  Cache.step call r now now' c w = Some (c1, w1, x) →
  Cache.eventListeners c1 = Cache.eventListeners c ∧ w1 = w.
Proof.
  intros Hnone.
  destruct r as [key|key v callOptions|key| |key]; cbn [Cache.step].
  - unfold Cache.get.
    destruct (Adapter.get key now (Cache.adapter c)) as [[a [v|err]]|];
      [| |done].
    + destruct (decide (v = JUndefined)) as [->|Hv].
      * by intros [= <- <- <-].
      * rewrite emitThen_no_listener by (by apply Hnone).
        by intros [= <- <- <-].
    + by intros [= <- <- <-].
  - unfold Cache.set.
    destruct (Adapter.set key v _ now (Cache.adapter c)) as [[a [[]|err]]|];
      [| |done].
    + rewrite emitThen_no_listener by (by apply Hnone).
      by intros [= <- <- <-].
    + by intros [= <- <- <-].
  - unfold Cache.delete.
    destruct (Adapter.delete key (Cache.adapter c)) as [[a [[]|err]]|];
      [| |done].
    + rewrite emitThen_no_listener by (by apply Hnone).
      by intros [= <- <- <-].
    + by intros [= <- <- <-].
  - unfold Cache.clear.
    destruct (Adapter.clear (Cache.adapter c)) as [[a [[]|err]]|];
      [| |done].
    + rewrite emitThen_no_listener by (by apply Hnone).
      by intros [= <- <- <-].
    + by intros [= <- <- <-].
  - unfold Cache.has.
    destruct (Adapter.has key now (Cache.adapter c)) as [[a [b|err]]|];
      [| |done]; by intros [= <- <- <-].
Qed.

End Events.

Section Recorder.

Context {S : Type} {SA : Adapter.StorageAdapter S}.
Context {L : Type} `{EqDecision L}.

Lemma forEach_recorder (listeners : list L) event log :
  Cache.forEach recorder listeners event log
  = (log ++ ((λ l, (l, event)) <$> listeners), Ok tt).
Proof.
  revert log. induction listeners as [|l listeners IH]; intros log; cbn.
  - by rewrite app_nil_r.
  - unfold bind, recorder at 1. rewrite IH. by rewrite <- app_assoc.
Qed.

Lemma emitThen_recorder {A : Type} (c : Cache.Cache S L) event (a : A) log :
  Cache.emitThen recorder c event a log
  = Some (c, log ++ ((λ l, (l, event)) <$> listenersOf c (Cache.type event)),
          Ok a).
Proof.
  unfold Cache.emitThen. by rewrite emitEvent_eq, forEach_recorder.
Qed.

Lemma step_recorder r now now' (c c1 : Cache.Cache S L) log log1 x :
  Cache.step recorder r now now' c log = Some (c1, log1, x) →
  Cache.eventListeners c1 = Cache.eventListeners c
  ∧ log1 = log ++ deliveries c (r, now, now') x.
Proof.
  unfold deliveries. cbn [fst snd].
  destruct r as [key|key v callOptions|key| |key]; cbn [Cache.step eventOf].
  - unfold Cache.get.
    destruct (Adapter.get key now (Cache.adapter c)) as [[a [v|err]]|];
      [| |done].
    + destruct (decide (v = JUndefined)) as [->|Hv].
      * intros [= <- <- <-]. cbn. by rewrite app_nil_r.
      * rewrite emitThen_recorder. intros [= <- <- <-].
        by rewrite decide_False.
    + intros [= <- <- <-]. by rewrite app_nil_r.
  - unfold Cache.set.
    destruct (Adapter.set key v _ now (Cache.adapter c)) as [[a [[]|err]]|];
      [| |done].
    + rewrite emitThen_recorder. by intros [= <- <- <-].
    + intros [= <- <- <-]. by rewrite app_nil_r.
  - unfold Cache.delete.
    destruct (Adapter.delete key (Cache.adapter c)) as [[a [[]|err]]|];
      [| |done].
    + rewrite emitThen_recorder. by intros [= <- <- <-].
    + intros [= <- <- <-]. by rewrite app_nil_r.
  - unfold Cache.clear.
    destruct (Adapter.clear (Cache.adapter c)) as [[a [[]|err]]|];
      [| |done].
    + rewrite emitThen_recorder. by intros [= <- <- <-].
    + intros [= <- <- <-]. by rewrite app_nil_r.
  - unfold Cache.has.
    destruct (Adapter.has key now (Cache.adapter c)) as [[a [b|err]]|];
      [| |done]; intros [= <- <- <-]; by rewrite app_nil_r.
Qed.

End Recorder.

(** X19: the event stream mirrors the operations: a [get] that returns a value,
    and every [set], [delete] and [clear] that the adapter completes, calls
    each listener registered for its type once, in the order of
    registration, with the event of that operation; a miss, a [has] and an
    operation in which the adapter throws call no listener. *)
Theorem cache_events_mirror_the_operations {S L : Type}
  {SA : Adapter.StorageAdapter S} `{EqDecision L}
  (rs : list (Cache.request * Z * Z)) (c c' : Cache.Cache S L)
  (log log' : list (L * Cache.CacheEvent)) (xs : list response) :
  Cache.run recorder rs c log = Some (c', log', xs) →
  Cache.eventListeners c' = Cache.eventListeners c
  ∧ length xs = length rs
  ∧ log' = log ++ concat (zip_with (deliveries c) rs xs).
Proof.
  revert c log xs. induction rs as [|r rs IH]; intros c log xs Hrun.
  - cbn in Hrun. injection Hrun as <- <- <-. cbn. by rewrite app_nil_r.
  - apply run_cons in Hrun as (c1 & log1 & x & xs' & Hstep & Hrun & ->).
    destruct r as [[r now] now']. cbn [fst snd] in Hstep.
    apply step_recorder in Hstep as [Hl1 ->].
    destruct (IH _ _ _ Hrun) as (Hl & Hlen & ->).
    split_and!; [congruence|cbn; by rewrite Hlen|].
    cbn [zip_with concat]. rewrite <- app_assoc. f_equal. f_equal.
    f_equal. apply zip_with_ext; [|done..].
    intros r' x'. unfold deliveries, listenersOf. by rewrite Hl1.
Qed.

Lemma cache_events_mirror_the_operations_witness :
  let c := register [ Listen Cache.OnSet "first"; Listen Cache.OnGet "first";
                      Listen Cache.OnDelete "first";
                      Listen Cache.OnSet "second" ]
             (Cache.new None (Memory.new None)) in
  let rs := [ (Cache.CallSet "key" (JStr "value") None, 0, 1);
              (Cache.CallGet "key", 2, 3); (Cache.CallGet "other", 4, 5);
              (Cache.CallHas "key", 6, 7); (Cache.CallDelete "key", 8, 9) ] in
  ∃ c' log',
    Cache.run (SA := Adapter.memory) recorder rs c []
    = Some (c', log',
            [Done; Value (JStr "value"); Value JUndefined; Boolean true; Done])
    ∧ log'
      = [ ("first", Cache.mkEvent Cache.OnSet (Some "key") (Some (JStr "value")) 1);
          ("second", Cache.mkEvent Cache.OnSet (Some "key") (Some (JStr "value")) 1);
          ("first", Cache.mkEvent Cache.OnGet (Some "key") (Some (JStr "value")) 3);
          ("first", Cache.mkEvent Cache.OnDelete (Some "key") None 9) ].
Proof.
  intros c rs.
  destruct (Cache.run (SA := Adapter.memory) recorder rs c [])
    as [[[c' log'] xs]|] eqn:Hrun; [|vm_compute in Hrun; discriminate].
  assert (xs = [Done; Value (JStr "value"); Value JUndefined; Boolean true; Done])
    as -> by (vm_compute in Hrun; by injection Hrun as _ _ <-).
  exists c', log'. split; [done|].
  destruct (cache_events_mirror_the_operations rs c c' [] log' _ Hrun)
    as (_ & _ & ->).
  vm_compute. reflexivity.
Defined.

(** X20: a listener registered for ['expired'] is never called: in a cache
    whose other event types have no listener, no operation changes the
    world of the listeners, whatever the adapter does. *)
Theorem cache_never_emits_expired {S L W : Type}
  {SA : Adapter.StorageAdapter S}
  (call : L → Cache.CacheEvent → M W unit)
  (rs : list (Cache.request * Z * Z)) (c c' : Cache.Cache S L) (w w' : W)
  (xs : list response) :
  (∀ t, t ≠ Cache.OnExpired → listenersOf c t = []) →
  Cache.run call rs c w = Some (c', w', xs) →
  w' = w.
Proof.
  revert c w xs. induction rs as [|r rs IH]; intros c w xs Hnone Hrun.
  - cbn in Hrun. by injection Hrun as <- <- <-.
  - apply run_cons in Hrun as (c1 & w1 & x & xs' & Hstep & Hrun & ->).
    apply (step_no_listener call) in Hstep as [Hl ->]; [|done].
    apply (IH c1 w xs'); [|done].
    intros t Ht. unfold listenersOf. rewrite Hl. by apply Hnone.
Qed.

Lemma cache_never_emits_expired_witness :
  let c := register [ Listen Cache.OnExpired "first" ]
             (Cache.new None (Memory.new None)) in
  let rs := [ (Cache.CallSet "key" (JStr "value")
                 (Some (Cache.mkOptions (Cache.Present 10) Cache.Missing)), 0, 1);
              (Cache.CallGet "key", 20, 21); (Cache.CallHas "key", 22, 23) ] in
  ∃ c',
    Cache.run (SA := Adapter.memory) recorder rs c []
    = Some (c', [], [Done; Value JUndefined; Boolean false]).
Proof.
  intros c rs.
  destruct (Cache.run (SA := Adapter.memory) recorder rs c [])
    as [[[c' log'] xs]|] eqn:Hrun; [|vm_compute in Hrun; discriminate].
  assert (xs = [Done; Value JUndefined; Boolean false])
    as -> by (vm_compute in Hrun; by injection Hrun as _ _ <-).
  exists c'.
  assert (log' = []) as ->; [|reflexivity].
  apply (cache_never_emits_expired (SA := Adapter.memory) recorder rs c c'
           [] log' [Done; Value JUndefined; Boolean false]); [|exact Hrun].
  intros t Ht. by destruct t.
Defined.

(** X21: when a listener throws, the operation of the cache raises that
    exception although the adapter has completed its part: the entry is
    stored, the listeners registered before the one that throws have been
    called and those after it have not. *)
Theorem cache_set_raises_after_storing {S L W : Type}
  {SA : Adapter.StorageAdapter S}
  (call : L → Cache.CacheEvent → M W unit) (key : string) (v : jsval)
  (callOptions : option Cache.Options) (now now' : Z) (c : Cache.Cache S L)
  (a : S) (before after : list L) (l : L) (w w0 w1 : W) (e : exn) :
  let event := {| Cache.type := Cache.OnSet; Cache.key := Some key;
                  Cache.value := Some v; Cache.timestamp := now' |} in
  Adapter.set key v
    (Some (Cache.asCacheOptions (Cache.spread (Cache.options c) callOptions)))
    now (Cache.adapter c) = Some (a, Ok tt) →
  listenersOf c Cache.OnSet = before ++ l :: after →
  Cache.forEach call before event w = (w0, Ok tt) →
  call l event w0 = (w1, Throw e) →
  Cache.set call key v callOptions now now' c w
  = Some (Cache.withAdapter c a, w1, Throw e).
Proof.
  intros event Hset Hlisteners Hbefore Hcall. unfold event in *. clear event.
  unfold Cache.set. cbv zeta. rewrite Hset.
  unfold Cache.emitThen. rewrite emitEvent_eq.
  change (listenersOf (Cache.withAdapter c a) (Cache.type _))
    with (listenersOf c Cache.OnSet).
  rewrite Hlisteners, (forEach_app call before (l :: after) _ w w0 Hbefore).
  cbn [Cache.forEach]. unfold bind. by rewrite Hcall.
Qed.

Lemma cache_set_raises_after_storing_witness :
  let c := register [ Listen Cache.OnSet "first"; Listen Cache.OnSet "";
                      Listen Cache.OnSet "last" ]
             (Cache.new None (Memory.new None)) in
  ∃ c1,
    Cache.set (SA := Adapter.memory) failingRecorder "key" (JStr "value") None
      0 1 c []
    = Some (c1,
            [("first", Cache.mkEvent Cache.OnSet (Some "key")
                         (Some (JStr "value")) 1)],
            Throw TypeError)
    ∧ (Memory.get "key" 2 (Cache.adapter c1)).2 = JStr "value".
Proof.
  intros c.
  destruct (Memory.set "key" (JStr "value")
              (Some (Cache.asCacheOptions (Cache.spread (Cache.options c) None)))
              0 (Cache.adapter c)) as [a|] eqn:Hset;
    [|vm_compute in Hset; discriminate].
  exists (Cache.withAdapter c a). split.
  - apply (cache_set_raises_after_storing (SA := Adapter.memory)
             failingRecorder "key" (JStr "value") None 0 1 c a
             ["first"] ["last"] "" []
             [("first", Cache.mkEvent Cache.OnSet (Some "key")
                          (Some (JStr "value")) 1)]
             [("first", Cache.mkEvent Cache.OnSet (Some "key")
                          (Some (JStr "value")) 1)] TypeError).
    + cbn [Adapter.set Adapter.memory]. by rewrite Hset.
    + vm_compute. reflexivity.
    + vm_compute. reflexivity.
    + vm_compute. reflexivity.
  - vm_compute in Hset. injection Hset as <-. vm_compute. reflexivity.
Defined.

(** X22: [set] of the cache passes to the adapter the options of the
    constructor overridden by those of the call: the entry that the
    volatile adapter stores expires [ttl] after the write, where [ttl] is
    the one of the call when the call has that property, also when it
    holds 0 or [undefined], which both mean no expiry, and the one of the
    constructor otherwise. *)
Theorem cache_set_merges_the_ttl {L W : Type}
  (call : L → Cache.CacheEvent → M W unit) (key : string) (v : jsval)
  (callOptions : option Cache.Options) (now now' : Z)
  (c c1 : Cache.Cache Memory.MemoryAdapter L) (w w1 : W) (r : result unit) :
  Cache.set (SA := Adapter.memory) call key v callOptions now now' c w
  = Some (c1, w1, r) →
  Memory.store (Cache.adapter c1) !! key
  = Some {| value := v; timestamp := now;
            expiry := mergedExpiry (Cache.options c) callOptions now |}.
Proof.
  unfold Cache.set. cbv zeta. cbn [Adapter.set Adapter.memory].
  destruct (Memory.set key v _ now (Cache.adapter c)) as [a|] eqn:Hset;
    [|done].
  apply memory_set_lookup_key in Hset.
  assert (Hexp : expiryFor
                   (Some (Cache.asCacheOptions
                            (Cache.spread (Cache.options c) callOptions))) now
                 = mergedExpiry (Cache.options c) callOptions now).
  { unfold mergedExpiry, expiryFor, Cache.asCacheOptions, Cache.spread.
    destruct callOptions as [[[| |d] m]|]; cbn;
      by destruct (Cache.ttl (Cache.options c)). }
  unfold newEntry in Hset. rewrite Hexp in Hset.
  unfold Cache.emitThen.
  destruct (Cache.emitEvent _ _ _ _) as [w' [[]|err]];
    by intros [= <- <- <-].
Qed.

Lemma cache_set_merges_the_ttl_witness :
  let c : Cache.Cache Memory.MemoryAdapter string :=
    Cache.new (Some (Cache.mkOptions (Cache.Present 100) Cache.Missing))
      (Memory.new None) in
  let stored callOptions :=
    match Cache.set (SA := Adapter.memory) recorder "key" (JStr "value")
            callOptions 0 1 c [] with
    | Some (c1, _, _) => expiry <$> Memory.store (Cache.adapter c1) !! "key"
    | None => None
    end in
  stored None = Some (Some 100)
  ∧ stored (Some (Cache.mkOptions (Cache.Present 5) Cache.Missing))
    = Some (Some 5)
  ∧ stored (Some (Cache.mkOptions Cache.Undefined Cache.Missing)) = Some None
  ∧ stored (Some (Cache.mkOptions Cache.Missing (Cache.Present 3%nat)))
    = Some (Some 100).
Proof.
  intros c stored.
  assert (H : ∀ callOptions,
            stored callOptions = Some (mergedExpiry (Cache.options c) callOptions 0)).
  { intros callOptions. unfold stored.
    destruct (Cache.set recorder "key" (JStr "value") callOptions 0 1 c [])
      as [[[c1 w1] r]|] eqn:Hset.
    - by rewrite (cache_set_merges_the_ttl recorder "key" (JStr "value")
                    callOptions 0 1 c c1 [] w1 r Hset).
    - exfalso. unfold Cache.set in Hset. cbn in Hset.
      destruct callOptions as [[[| |d] [| |m]]|]; discriminate. }
  rewrite !H. by split_and!.
Defined.



(** ** One run of the function for each key *)

Section MemoizeOnce.

Context {A : Type}.
Variable f : A → jsval.
Variable options : CacheOptions.
Variable keyResolver : A → string.

Hypothesis f_defined : ∀ a, f a ≠ JUndefined.
Hypothesis options_noTtl : noTtl (Some options) = true.
Hypothesis options_unbounded : maxSizeOrInfinity (Some options) = Infinity.

Lemma holdsKeys_live seen cache now k e :
  holdsKeys seen cache → Memory.store cache !! k = Some e →
  isExpired e now = false.
Proof.
  intros Hh He. destruct (holds_entries _ _ Hh k e He) as [Hexp _].
  unfold isExpired. by rewrite Hexp.
Qed.

Lemma memoized_once a now now' seen cache n :
  holdsKeys seen cache →
  ∃ cache',
    Memoize.memoized (counting f) options keyResolver a now now' (cache, n)
    = Some (cache',
            if decide (keyResolver a ∈ seen) then n else S n,
            Ok (if decide (keyResolver a ∈ seen)
                then default JUndefined
                       (value <$> Memory.store cache !! keyResolver a)
                else f a))
    ∧ holdsKeys ({[keyResolver a]} ∪ seen) cache'.
Proof.
  intros Hh. unfold Memoize.memoized, Memory.get. cbn [fst snd].
  destruct (Memory.store cache !! keyResolver a) as [e|] eqn:He.
  - assert (Hin : keyResolver a ∈ seen)
      by (apply (holds_seen _ _ Hh); by rewrite He).
    rewrite (holdsKeys_live _ _ now _ _ Hh He). cbn [fst snd].
    destruct (holds_entries _ _ Hh _ _ He) as [_ Hv].
    rewrite bool_decide_eq_true_2 by done. rewrite !decide_True by done.
    eexists. split; [reflexivity|]. split; cbn.
    + apply (holds_unbounded _ _ Hh).
    + intros k. rewrite <- (holds_seen _ _ Hh).
      rewrite elem_of_union, elem_of_singleton.
      split; [intros [->|?]; done|tauto].
    + apply (holds_entries _ _ Hh).
  - assert (Hnot : keyResolver a ∉ seen).
    { intros Hin%(holds_seen _ _ Hh). rewrite He in Hin. by destruct Hin. }
    cbn [fst snd]. rewrite bool_decide_eq_false_2 by (by intros ?).
    rewrite !decide_False by done. unfold counting at 1.
    rewrite (memory_set_unbounded _ _ _ _ _ (holds_unbounded _ _ Hh)).
    rewrite liveStore_all
      by (intros k e Hk; by apply (holdsKeys_live _ _ _ _ _ Hh Hk)).
    eexists. split; [reflexivity|]. split; cbn.
    + done.
    + intros k. rewrite elem_of_union, elem_of_singleton, (holds_seen _ _ Hh).
      destruct (decide (k = keyResolver a)) as [->|Hne].
      * rewrite lookup_insert_eq. split; [eauto|tauto].
      * rewrite lookup_insert_ne by done. split; [intros [?|?]; done|tauto].
    + intros k e. destruct (decide (k = keyResolver a)) as [->|Hne].
      * rewrite lookup_insert_eq. intros [= <-]. unfold newEntry.
        cbn [expiry value]. by rewrite expiryFor_noTtl.
      * rewrite lookup_insert_ne by done. apply (holds_entries _ _ Hh).
Qed.

Lemma calls_once history seen cache n :
  holdsKeys seen cache →
  ∃ cache',
    Memoize.calls (counting f) options keyResolver history (cache, n)
    = Some (cache',
            (n + size (list_to_set (C := gset string)
                         (keysOf keyResolver history) ∖ seen))%nat).
Proof.
  revert seen cache n.
  induction history as [|[[a now] now'] history IH]; intros seen cache n Hh.
  - exists cache. cbn.
    assert (Hempty : (∅ : gset string) ∖ seen = ∅).
    { apply set_eq. intros k. rewrite elem_of_difference, elem_of_empty. tauto. }
    rewrite Hempty, size_empty. by rewrite Nat.add_0_r.
  - destruct (memoized_once a now now' seen cache n Hh) as (cache1 & Hcall & Hh1).
    destruct (IH _ cache1 (if decide (keyResolver a ∈ seen) then n else S n) Hh1)
      as (cache' & Hrest).
    exists cache'. cbn [Memoize.calls]. rewrite Hcall, Hrest. f_equal. f_equal.
    cbn [keysOf fmap list_fmap list_to_set fst].
    fold (keysOf keyResolver history).
    set (K := list_to_set (keysOf keyResolver history) : gset string).
    destruct (decide (keyResolver a ∈ seen)) as [Hin|Hnot].
    + f_equal. f_equal. apply set_eq. intros k.
      rewrite !elem_of_difference, !elem_of_union, !elem_of_singleton.
      split; [tauto|]. intros [[->|?] ?]; [done|].
      split; [done|]. intros [->|?]; done.
    + assert (Heq : ({[keyResolver a]} ∪ K) ∖ seen
                    = {[keyResolver a]} ∪ K ∖ ({[keyResolver a]} ∪ seen)).
      { apply set_eq. intros k.
        rewrite !elem_of_difference, !elem_of_union, !elem_of_difference,
          !elem_of_union, !elem_of_singleton.
        destruct (decide (k = keyResolver a)) as [->|?]; tauto. }
      rewrite Heq.
      rewrite (size_union (C := gset string) {[keyResolver a]}
                 (K ∖ ({[keyResolver a]} ∪ seen))).
      * rewrite (size_singleton (C := gset string)). lia.
      * intros k ->%elem_of_singleton [_ Hk]%elem_of_difference.
        apply Hk, elem_of_union. left. by apply elem_of_singleton.
Qed.

End MemoizeOnce.

(** X24: a memoized function without ttl and without bound that always
    returns a value other than [undefined] runs once for each distinct key:
    after any calls its counter of runs is the number of distinct keys of
    those calls. *)
Theorem memoized_function_runs_once_for_each_key {A : Type} (f : A → jsval)
  (options : CacheOptions) (keyResolver : A → string)
  (history : list (A * Z * Z)) :
  (∀ a, f a ≠ JUndefined) →
  noTtl (Some options) = true →
  maxSizeOrInfinity (Some options) = Infinity →
  ∃ cache,
    Memoize.calls (counting f) options keyResolver history
      (Memoize.newCache options, 0%nat)
    = Some (cache,
            size (list_to_set (C := gset string) (keysOf keyResolver history))).
Proof.
  intros Hf Httl Hinf.
  destruct (calls_once f options keyResolver Hf Httl history ∅
              (Memoize.newCache options) 0%nat) as (cache & Hcalls).
  { split.
    - exact Hinf.
    - intros k. cbn. rewrite lookup_empty, elem_of_empty.
      split; [done|by intros [? ?]].
    - intros k e. cbn. by rewrite lookup_empty. }
  exists cache. rewrite Hcalls. f_equal. f_equal.
  rewrite difference_empty_L. done.
Qed.

Lemma memoized_function_runs_once_for_each_key_witness :
  ∃ cache,
    Memoize.calls (counting JStr) noOptions (λ s, "[" +:+ s +:+ "]")
      [ ("a", 0, 1); ("a", 2, 3); ("b", 4, 5); ("a", 6, 7); ("b", 8, 9) ]
      (Memoize.newCache noOptions, 0%nat)
    = Some (cache, 2%nat).
Proof.
  assert (Hdefined : ∀ s, JStr s ≠ JUndefined) by (by intros s).
  destruct (memoized_function_runs_once_for_each_key JStr noOptions
              (λ s, "[" +:+ s +:+ "]")
              [ ("a", 0, 1); ("a", 2, 3); ("b", 4, 5); ("a", 6, 7); ("b", 8, 9) ]
              Hdefined eq_refl eq_refl) as (cache & Hcalls).
  exists cache. rewrite Hcalls. vm_compute. reflexivity.
Defined.

(** ** Keys that the adapters cannot hold *)


Lemma headedByEmpty_size n ks self :
  headedByEmpty n ks self → size (Memory.store self) = S (length ks).
Proof.
  intros Hh. rewrite <- size_dom. unfold size, set_size. cbn.
  change (S (length ks)) with (length ("" :: ks)).
  apply Permutation_length, NoDup_Permutation.
  - apply NoDup_elements.
  - apply (headed_NoDup _ _ _ Hh).
  - intros k. rewrite elem_of_elements, elem_of_dom. symmetry.
    apply (headed_dom _ _ _ Hh).
Qed.

Lemma headedByEmpty_live n ks self now k e :
  headedByEmpty n ks self → Memory.store self !! k = Some e →
  isExpired e now = false.
Proof.
  intros Hh He. unfold isExpired. by rewrite (headed_live _ _ _ Hh k e He).
Qed.

Lemma headedByEmpty_liveOrder n ks self now :
  headedByEmpty n ks self → liveOrder now self = "" :: ks.
Proof.
  intros Hh. unfold liveOrder.
  rewrite liveStore_all
    by (intros k e He; by apply (headedByEmpty_live _ _ _ _ _ _ Hh He)).
  rewrite (headed_order _ _ _ Hh). apply filter_all.
  intros k Hk. apply elem_of_dom. by apply (headed_dom _ _ _ Hh).
Qed.

(** A write of a new key, while the store is within the bound, evicts
    nothing: the oldest key is the empty string. *)
Lemma headedByEmpty_set n ks self key v options now :
  headedByEmpty n ks self → (S (length ks) ≤ n)%nat →
  key ∉ "" :: ks → noTtl options = true →
  ∃ self',
    Memory.set key v options now self = Some self'
    ∧ headedByEmpty n (ks ++ [key]) self'.
Proof.
  intros Hh Hlen Hkey Httl.
  pose proof (headedByEmpty_size _ _ _ Hh) as Hsize.
  assert (Hnew : Memory.store self !! key = None).
  { destruct (Memory.store self !! key) as [e|] eqn:He; [|done].
    exfalso. apply Hkey, (headed_dom _ _ _ Hh). by rewrite He. }
  rewrite memory_set_within_bound.
  2:{ rewrite (headed_bound _ _ _ Hh), Hsize. cbn.
      apply bool_decide_eq_false. lia. }
  rewrite (headedByEmpty_liveOrder _ _ _ now Hh).
  rewrite liveStore_all
    by (intros k e He; by apply (headedByEmpty_live _ _ _ _ _ _ Hh He)).
  assert (Hevict : Memory.evictOldest key
                     {| Memory.store := Memory.store self;
                        Memory.maxSize := Memory.maxSize self;
                        Memory.accessOrder := "" :: ks |}
                   = {| Memory.store := Memory.store self;
                        Memory.maxSize := Memory.maxSize self;
                        Memory.accessOrder := "" :: ks |}).
  { unfold Memory.evictOldest. cbn. by destruct (_ && _). }
  cbv zeta. rewrite Hevict. eexists. split; [reflexivity|].
  assert (Hmove : moveToTail key ("" :: ks) = "" :: ks ++ [key]).
  { unfold moveToTail. by rewrite without_not_elem. }
  split;
    cbn [Memory.updateAccessOrder Memory.store Memory.maxSize
         Memory.accessOrder].
  - apply (headed_bound _ _ _ Hh).
  - by rewrite Hmove.
  - rewrite app_comm_cons. apply NoDup_app.
    split_and!; [apply (headed_NoDup _ _ _ Hh)| |apply NoDup_singleton].
    intros k Hk ->%list_elem_of_singleton. done.
  - intros k. rewrite app_comm_cons, elem_of_app, list_elem_of_singleton.
    rewrite (headed_dom _ _ _ Hh).
    destruct (decide (k = key)) as [->|Hne].
    + rewrite lookup_insert_eq. split; [eauto|tauto].
    + rewrite lookup_insert_ne by done. split; [intros [?|?]; done|tauto].
  - intros k e. destruct (decide (k = key)) as [->|Hne].
    + rewrite lookup_insert_eq. intros [= <-]. unfold newEntry. cbn [expiry].
      by apply expiryFor_noTtl.
    + rewrite lookup_insert_ne by done. apply (headed_live _ _ _ Hh).
Qed.

(** Once the store is over the bound, [cleanup] does not end. *)
Lemma headedByEmpty_hangs n ks self key v options now :
  headedByEmpty n ks self → (n < S (length ks))%nat →
  Memory.set key v options now self = None.
Proof.
  intros Hh Hlen. unfold Memory.set, Memory.cleanup.
  rewrite sweepExpired_store, sweepExpired_order.
  fold (liveStore now self).
  rewrite liveStore_all
    by (intros k e He; by apply (headedByEmpty_live _ _ _ _ _ _ Hh He)).
  assert (Horder : filter (λ k, k ∉ expiredKeys now (map_to_list (Memory.store self)))
                     (filter (λ k, k ∈ dom (Memory.store self))
                        (Memory.accessOrder self)) = "" :: ks).
  { rewrite (headed_order _ _ _ Hh). rewrite !filter_all; [done| |].
    - intros k Hk. apply elem_of_dom. by apply (headed_dom _ _ _ Hh).
    - intros k _ Hexp. apply elem_of_expiredKeys_map in Hexp as (e & He & Hexp).
      by rewrite (headedByEmpty_live _ _ _ now _ _ Hh He) in Hexp. }
  rewrite Horder. cbn [Memory.evictLoop].
  rewrite (headed_bound _ _ _ Hh), (headedByEmpty_size _ _ _ Hh).
  cbn [gt_bound truthyKey]. by rewrite bool_decide_eq_true_2 by lia.
Qed.

Lemma runMemory_asSets_cons (w : write) (ws : list write) self :
  runMemory (asSets (w :: ws)) self
  = match Memory.set (wkey w) (wvalue w) (woptions w) (wtime w) self with
    | Some self' =>
        match runMemory (asSets ws) self' with
        | Some (self'', rs) => Some (self'', Done :: rs)
        | None => None
        end
    | None => None
    end.
Proof.
  change (asSets (w :: ws))
    with ((OpSet (wkey w) (wvalue w) (woptions w), wtime w) :: asSets ws).
  cbn [runMemory memoryStep]. by destruct (Memory.set _ _ _ _ _).
Qed.

Lemma headedByEmpty_run n ks (ws : list write) self :
  headedByEmpty n ks self →
  (S (length ks) + length ws ≤ S n)%nat →
  NoDup (("" :: ks) ++ (wkey <$> ws)) →
  Forall (λ w, noTtl (woptions w) = true) ws →
  ∃ self',
    runMemory (asSets ws) self = Some (self', replicate (length ws) Done)
    ∧ headedByEmpty n (ks ++ (wkey <$> ws)) self'.
Proof.
  revert ks self. induction ws as [|w ws IH]; intros ks self Hh Hlen Hnd Httl.
  - exists self. cbn. by rewrite app_nil_r.
  - apply Forall_cons in Httl as [Hw Httl]. cbn in Hlen.
    assert (Hkey : wkey w ∉ "" :: ks).
    { apply NoDup_app in Hnd as (_ & Hdisj & _). intros Hin.
      apply (Hdisj _ Hin). cbn. apply list_elem_of_here. }
    destruct (headedByEmpty_set n ks self (wkey w) (wvalue w) (woptions w)
                (wtime w) Hh) as (self1 & Hset & Hh1); [lia|done|done|].
    destruct (IH (ks ++ [wkey w]) self1 Hh1) as (self' & Hrun & Hh');
      [rewrite length_app; cbn; lia| |done|].
    { cbn in Hnd |- *. rewrite <- app_assoc. exact Hnd. }
    exists self'. rewrite runMemory_asSets_cons, Hset, Hrun.
    split; [done|]. cbn [fmap list_fmap]. fold (wkey <$> ws).
    by rewrite <- app_assoc in Hh'.
Qed.

(** X26: the volatile adapter never evicts the empty string: after a [set]
    under the empty string and [n] more of distinct keys, without ttl, an
    adapter with the bound [n] holds [n + 1] entries, and from then on no
    [set] returns, whatever its key. *)
Theorem memory_empty_key_blocks_every_later_set (n : nat) (w0 : write)
  (ws : list write) :
  (1 ≤ n)%nat → wkey w0 = "" → length ws = n →
  NoDup (wkey <$> ws) →
  Forall (λ w, truthyKey (wkey w) = true) ws →
  Forall (λ w, noTtl (woptions w) = true) (w0 :: ws) →
  ∃ self,
    runMemory (asSets (w0 :: ws)) (Memory.new (withMaxSize n))
    = Some (self, replicate (S n) Done)
    ∧ size (Memory.store self) = S n
    ∧ ∀ key v options now, Memory.set key v options now self = None.
Proof.
  intros Hn Hw0 Hlen Hnd Htruthy Httl.
  apply Forall_cons in Httl as [Httl0 Httl].
  assert (Hbound : maxSizeOrInfinity (withMaxSize n) = Fin n)
    by (destruct n; [lia|done]).
  (* the first write *)
  assert (H0 : ∃ self0,
            Memory.set "" (wvalue w0) (woptions w0) (wtime w0)
              (Memory.new (withMaxSize n)) = Some self0
            ∧ headedByEmpty n [] self0).
  { rewrite memory_set_within_bound
      by (cbn [Memory.new Memory.store Memory.maxSize]; rewrite Hbound;
          rewrite map_size_empty; cbn; apply bool_decide_eq_false; lia).
    eexists. split; [reflexivity|].
    assert (Hlive : liveStore (wtime w0) (Memory.new (withMaxSize n)) = ∅)
      by (unfold liveStore; cbn; apply map_filter_empty).
    assert (Horder : liveOrder (wtime w0) (Memory.new (withMaxSize n)) = [])
      by done.
    rewrite Hlive, Horder. unfold Memory.evictOldest.
    cbn [Memory.store Memory.maxSize Memory.accessOrder Memory.new].
    rewrite Hbound, map_size_empty.
    assert (Hge : ge_bound 0 (Fin n) = false)
      by (cbn; apply bool_decide_eq_false; lia).
    rewrite Hge. cbn [andb]. cbn [Memory.store Memory.maxSize Memory.accessOrder].
    split; cbn.
    - done.
    - done.
    - apply NoDup_singleton.
    - intros k. rewrite list_elem_of_singleton.
      destruct (decide (k = "")) as [->|Hne].
      + rewrite lookup_insert_eq. split; [eauto|done].
      + rewrite lookup_insert_ne, lookup_empty by done.
        split; [done|by intros [? ?]].
    - intros k e. destruct (decide (k = "")) as [->|Hne].
      + rewrite lookup_insert_eq. intros [= <-]. unfold newEntry. cbn [expiry].
        by apply expiryFor_noTtl.
      + by rewrite lookup_insert_ne, lookup_empty. }
  destruct H0 as (self0 & Hset0 & Hh0).
  destruct (headedByEmpty_run n [] ws self0 Hh0) as (self & Hrun & Hh);
    [cbn; lia| |done|].
  { cbn. apply NoDup_cons. split; [|done].
    intros Hin%list_elem_of_fmap. destruct Hin as (w & Hw & Hin).
    pose proof (proj1 (Forall_forall _ _) Htruthy w Hin) as Ht.
    cbn in Ht. by rewrite <- Hw in Ht. }
  cbn [app] in Hh.
  exists self. split_and!.
  - rewrite runMemory_asSets_cons, Hw0, Hset0, Hrun. by rewrite Hlen.
  - rewrite (headedByEmpty_size _ _ _ Hh), length_fmap. lia.
  - intros key v options now. apply (headedByEmpty_hangs n _ _ _ _ _ _ Hh).
    rewrite length_fmap. lia.
Qed.

Lemma memory_empty_key_blocks_every_later_set_witness :
  ∃ self,
    runMemory
      (asSets [mkWrite "" (JStr "x") None 0; mkWrite "a" (JStr "y") None 1;
               mkWrite "b" (JStr "z") None 2])
      (Memory.new (withMaxSize 2))
    = Some (self, [Done; Done; Done])
    ∧ size (Memory.store self) = 3%nat
    ∧ Memory.set "a" (JStr "w") None 3 self = None.
Proof.
  destruct (memory_empty_key_blocks_every_later_set 2
              (mkWrite "" (JStr "x") None 0)
              [mkWrite "a" (JStr "y") None 1; mkWrite "b" (JStr "z") None 2])
    as (self & Hrun & Hsize & Hset).
  - lia.
  - reflexivity.
  - reflexivity.
  - cbn. repeat constructor; rewrite ?list_elem_of_singleton, ?elem_of_nil;
      try discriminate; tauto.
  - repeat constructor.
  - repeat constructor.
  - exists self. split_and!; [exact Hrun|exact Hsize|apply Hset].
Defined.
